(** * Event ingestion and live fan-out of the Starknet streaming backend

    A shallow embedding of
    - [backend/pendingBatchIngestion.js] (module [Batch]): the checkpointed
      block scanner with the bulk mutator [processEventsBatch];
    - [backend/pendingIngestion.js] (module [PerEvent]): the older scanner
      that applies one event at a time with [processEvent];
    - the WebSocket server with the capped queue and the per-client backlog
      (module [Manager]), and the fetch of its two predecessors: the first
      server, which resets the continuation token on error (module
      [FirstServer]), and the second, which has neither the reset nor a
      capacity (module [SecondServer]);
    - the loops around them: the outer loop of the older scanner (module
      [PerEventLoop]), the client loops of the second server (module
      [SecondStream]), the statistics message (module [Stats]) and the tile
      views (module [TileManager]).

    Conventions.  A MongoDB collection is the list of its documents in
    insertion order; [updateOne] touches the first document that satisfies
    the filter.  A JavaScript field that may be [undefined] ([data[2]] of a
    short array, [keys[0]] of an event without keys) is an [option]; a
    filter on such a field matches the documents holding the same optional
    value.  Numbers (block numbers, scores, clock readings) are integers in
    [Z].  Store writes succeed; the ledger RPC may fail. *)

From stdpp Require Import base option list strings gmap sorting.
From Stdlib Require Import ZArith Lia Ascii.
From Stdlib Require HexString.

Open Scope Z_scope.

(** ** Documents of the persistent store *)

Inductive BotStatus := alive | dead.
Inductive MineType := Empty | Bomb | Diamond.

Record Bot := mkBot {
  bot_address : option string;
  player : option string;
  status : BotStatus;
  score : Z;
  starting_tile : option string }.

Record Mine := mkMine {
  mine_bot_address : option string;
  location : option string;
  mine_type : MineType;
  mine_timestamp : string }.

Record Transaction := mkTransaction {
  block : Z;
  event_name : string;
  event_hash : option string;
  data : list string;
  timestamp : string }.

Record Store := mkStore {
  checkpoint : option Z;          (* value of the "lastProcessedBlock" row *)
  bots : list Bot;
  mines : list Mine;
  transactions : list Transaction }.

#[global] Instance BotStatus_eq_dec : EqDecision BotStatus.
Proof. solve_decision. Defined.
#[global] Instance MineType_eq_dec : EqDecision MineType.
Proof. solve_decision. Defined.

(** An event as the scanners hand it to the mutators:
    [{block, key: event.keys[0], data: event.data, timestamp}]. *)
Record Event := mkEvent {
  ev_block : Z;
  ev_key : option string;
  ev_data : list string;
  ev_timestamp : string }.

(** ** The event table *)

Definition SPAWNED_BOT : string :=
  "0x2cd0383e81a65036ae8acc94ac89e891d1385ce01ae6cc127c27615f5420fa3".
Definition TILE_MINED : string :=
  "0xd5efc9cfb6a4f6bb9eae0ce39d32480473877bb3f7a4eaa3944c881a2c8d25".
Definition BOMB_FOUND : string :=
  "0x111861367b42e77c11a98efb6d09a14c2dc470eee1a4d2c3c1e8c54015da2e5".
Definition DIAMOND_FOUND : string :=
  "0x14528085c8fd64b9210572c5b6015468f8352c17c9c22f5b7aa62a55a56d8d7".
Definition TILE_ALREADY_MINED : string :=
  "0x1b74d97806c93468070e49a1626aba00f8e89dfb07246492af4566f898de982".
Definition SUSPEND_BOT : string :=
  "0x1dcca826eea45d96bfbf26e9aabf510e94c6de62d0ce5e5b6e60c51c7640af8".
Definition REVIVE_BOT : string :=
  "0x1d6a6a42fd13b206a721dbca3ae720621707ef3016850e2c5536244e5a7858a".

Definition EVENT_MAP_entries : list (string * string) :=
  [ (SPAWNED_BOT, "SpawnedBot"); (TILE_MINED, "TileMined");
    (BOMB_FOUND, "BombFound"); (DIAMOND_FOUND, "DiamondFound");
    (TILE_ALREADY_MINED, "TileAlreadyMined"); (SUSPEND_BOT, "SuspendBot");
    (REVIVE_BOT, "ReviveBot") ]%string.

Fixpoint assoc (k : string) (l : list (string * string)) : option string :=
  match l with
  | [] => None
  | (k', v) :: l' => if decide (k = k') then Some v else assoc k l'
  end.

(** [EVENT_MAP[key]]; a missing key and an unknown hash both read
    [undefined]. *)
Definition EVENT_MAP (key : option string) : option string :=
  match key with
  | Some k => assoc k EVENT_MAP_entries
  | None => None
  end.

(** [EVENT_MAP[key] || "TransferEvent"]. *)
Definition eventName (key : option string) : string :=
  default "TransferEvent"%string (EVENT_MAP key).

(** ** Collections *)

Section Collection.
Context {D : Type}.

(** Replace the first document satisfying [p] by its image under [f]. *)
Fixpoint update_first (p : D → bool) (f : D → D) (c : list D)
  : option (list D) :=
  match c with
  | [] => None
  | d :: c' =>
      if p d then Some (f d :: c')
      else match update_first p f c' with
           | Some c'' => Some (d :: c'')
           | None => None
           end
  end.

(** [Model.updateOne(filter, update, { upsert })]: [upsert] is the
    document inserted when nothing matches ([None] without the option). *)
Definition updateOne (p : D → bool) (f : D → D) (upsert : option D)
    (c : list D) : list D :=
  match update_first p f c with
  | Some c' => c'
  | None => match upsert with Some d => c ++ [d] | None => c end
  end.

(** [Model.findOne(filter)]. *)
Fixpoint findOne (p : D → bool) (c : list D) : option D :=
  match c with
  | [] => None
  | d :: c' => if p d then Some d else findOne p c'
  end.

(** [Model.create(doc)]. *)
Definition create (d : D) (c : list D) : list D := c ++ [d].

(** Number of documents satisfying a filter. *)
Definition countDocuments (p : D → bool) (c : list D) : nat :=
  length (List.filter p c).
End Collection.

(** The filters [{ bot_address }] and [{ bot_address, location }]. *)
Definition bot_filter (a : option string) (b : Bot) : bool :=
  bool_decide (bot_address b = a).

Definition mine_filter (a l : option string) (m : Mine) : bool :=
  bool_decide (mine_bot_address m = a) && bool_decide (location m = l).

Definition add_score (n : Z) (b : Bot) : Bot :=
  mkBot (bot_address b) (player b) (status b) (score b + n) (starting_tile b).

Definition set_status (st : BotStatus) (b : Bot) : Bot :=
  mkBot (bot_address b) (player b) st (score b) (starting_tile b).

(** ** pendingBatchIngestion.js *)

Module Batch.

(** The entries pushed on [bulkBots]. *)
Inductive BotOp :=
| IncScore (a : option string) (n : Z)
    (* filter {bot_address}, update {$inc: {score: n}} *)
| SetDead (a : option string)
    (* filter {bot_address}, update {$set: {status: "dead"}} *)
| SetSpawned (a pl tile : option string).
    (* filter {bot_address}, $set of all five fields, upsert *)

(** A field of a [$set] whose value is [undefined] is left out of the
    update: the document keeps what it has. *)
Definition set_defined (v old : option string) : option string :=
  match v with Some _ => v | None => old end.

(** The [$set] of a SpawnedBot on a bot that is there. *)
Definition set_spawned (a pl tile : option string) (b : Bot) : Bot :=
  mkBot (set_defined a (bot_address b)) (set_defined pl (player b)) alive 0
        (set_defined tile (starting_tile b)).

(** The entries pushed on [bulkMines]; both are upserts on the filter
    [{bot_address, location}]. *)
Inductive MineOp :=
| SetOnInsert (a l : option string) (ty : MineType) (ts : string)
| ForceSet (a l : option string) (ty : MineType) (ts : string).

Definition exec_bot (op : BotOp) (c : list Bot) : list Bot :=
  match op with
  | IncScore a n => updateOne (bot_filter a) (add_score n) None c
  | SetDead a => updateOne (bot_filter a) (set_status dead) None c
  | SetSpawned a pl tile =>
      updateOne (bot_filter a) (set_spawned a pl tile)
                (Some (mkBot a pl alive 0 tile)) c
  end.

Definition exec_mine (op : MineOp) (c : list Mine) : list Mine :=
  match op with
  | SetOnInsert a l ty ts =>
      updateOne (mine_filter a l) (λ m, m) (Some (mkMine a l ty ts)) c
  | ForceSet a l ty ts =>
      let d := mkMine a l ty ts in
      updateOne (mine_filter a l) (λ _, d) (Some d) c
  end.

(** [Model.bulkWrite(ops, { ordered: false })], the operations taken in
    the order of the array. *)
Definition bulkWrite {D Op : Type} (exec : Op → list D → list D)
    (ops : list Op) (c : list D) : list D :=
  foldl (λ acc op, exec op acc) c ops.

(** What one turn of the loop over [events] pushes on [bulkBots] and on
    [bulkMines]: the [switch (key)]. *)
Definition bot_ops_of (ev : Event) : list BotOp :=
  let a := ev_data ev !! 0%nat in
  match ev_key ev with
  | Some k =>
      if decide (k = TILE_MINED) then [IncScore a 10]
      else if decide (k = DIAMOND_FOUND) then [IncScore a 5000]
      else if decide (k = BOMB_FOUND) then [SetDead a]
      else if decide (k = SPAWNED_BOT)
           then [SetSpawned a (ev_data ev !! 1%nat) (ev_data ev !! 2%nat)]
      else []
  | None => []
  end.

Definition mine_ops_of (ev : Event) : list MineOp :=
  let a := ev_data ev !! 0%nat in
  match ev_key ev with
  | Some k =>
      if decide (k = TILE_MINED)
      then [SetOnInsert a (ev_data ev !! 2%nat) Empty (ev_timestamp ev)]
      else if decide (k = DIAMOND_FOUND)
      then [ForceSet a (ev_data ev !! 2%nat) Diamond (ev_timestamp ev)]
      else if decide (k = BOMB_FOUND)
      then [ForceSet a (ev_data ev !! 1%nat) Bomb (ev_timestamp ev)]
      else []
  | None => []
  end.

(** The document pushed on [bulkTransactions], outside the [switch]. *)
Definition transaction_of (blockNumber : Z) (ev : Event) : Transaction :=
  mkTransaction blockNumber (eventName (ev_key ev)) (ev_key ev)
                (ev_data ev) (ev_timestamp ev).

Definition bulkBots (events : list Event) : list BotOp :=
  concat (map bot_ops_of events).
Definition bulkMines (events : list Event) : list MineOp :=
  concat (map mine_ops_of events).
Definition bulkTransactions (events : list Event) (blockNumber : Z)
  : list Transaction :=
  map (transaction_of blockNumber) events.

(** [processEventsBatch(events, blockNumber)]: the three bulk writes, in
    the order of the source. *)
Definition processEventsBatch (events : list Event) (blockNumber : Z)
    (s : Store) : Store :=
  mkStore (checkpoint s)
          (bulkWrite exec_bot (bulkBots events) (bots s))
          (bulkWrite exec_mine (bulkMines events) (mines s))
          (transactions s ++ bulkTransactions events blockNumber).

(** [getLastProcessedBlock()] and [updateCheckpoint(blockNumber)]. *)
Definition getLastProcessedBlock (s : Store) : Z :=
  default 430 (checkpoint s).

Definition updateCheckpoint (blockNumber : Z) (s : Store) : Store :=
  mkStore (Some blockNumber) (bots s) (mines s) (transactions s).

End Batch.

(** ** The ledger RPC as the scanners see it *)

(** An event of an RPC page, with the reading of the clock
    ([new Date().toISOString()]) taken when the scanner copies it. *)
Record RpcEvent := mkRpcEvent {
  keys : list string;
  rpc_data : list string;
  seen_at : string }.

(** The answers of [provider.getEvents] to the successive calls of one scan:
    a call throws, or returns a page and a continuation token; [next] is
    the answer to the call that follows, made when the token is truthy. *)
Inductive RpcScan :=
| RpcError
| RpcPage (events : list RpcEvent) (continuation_token : option string)
          (next : RpcScan).

(** JavaScript truthiness of a token: [undefined], [null] and the empty
    string are falsy. *)
Definition truthy (tok : option string) : bool :=
  match tok with
  | Some t => negb (bool_decide (t = ""%string))
  | None => false
  end.

Definition to_event (blockNumber : Z) (e : RpcEvent) : Event :=
  mkEvent blockNumber (keys e !! 0%nat) (rpc_data e) (seen_at e).

(** What a scanner does, in the order it does it. *)
Inductive Action :=
| Scanned (blockNumber : Z) (ok : bool)     (* the getEvents loop of a block *)
| WroteBots (blockNumber : Z)               (* Bot.bulkWrite *)
| WroteMines (blockNumber : Z)              (* Mine.bulkWrite *)
| WroteTransactions (blockNumber : Z)       (* Transaction.bulkWrite *)
| Applied (blockNumber : Z) (key : option string)   (* one processEvent *)
| CheckpointSet (blockNumber : Z).          (* updateCheckpoint *)

(** One observation of the chain by the outer loop: the head returned by
    [provider.getBlock("latest")] and the answers to the scans of that
    pass. *)
Record Round := mkRound {
  latest : Z;
  getEvents : Z → RpcScan }.

Module BatchScan.
Import Batch.

(** The [do ... while (continuationToken)] of [fetchAndStoreEvents]:
    [None] when a call throws. *)
Fixpoint collect (blockNumber : Z) (r : RpcScan) (events : list Event)
  : option (list Event) :=
  match r with
  | RpcError => None
  | RpcPage evs tok next =>
      let events' := events ++ map (to_event blockNumber) evs in
      if truthy tok then collect blockNumber next events'
      else Some events'
  end.

(** The bulk writes [processEventsBatch] issues: each one only for a
    non-empty array. *)
Definition writes (events : list Event) (blockNumber : Z) : list Action :=
  (if bulkBots events is [] then [] else [WroteBots blockNumber]) ++
  (if bulkMines events is [] then [] else [WroteMines blockNumber]) ++
  (if bulkTransactions events blockNumber is [] then []
   else [WroteTransactions blockNumber]).

(** [fetchAndStoreEvents(blockNumber)]: the [catch] logs and returns. *)
Definition fetchAndStoreEvents (blockNumber : Z) (r : RpcScan) (s : Store)
  : Store * list Action :=
  match collect blockNumber r [] with
  | None => (s, [Scanned blockNumber false])
  | Some events =>
      let s1 := if events is [] then s
                else processEventsBatch events blockNumber s in
      let w := if events is [] then [] else writes events blockNumber in
      (updateCheckpoint blockNumber s1,
       Scanned blockNumber true :: w ++ [CheckpointSet blockNumber])
  end.

(** [n] turns of [for (block = ...; block <= latestBlockNumber; block++)],
    the first one at [block]. *)
Fixpoint for_blocks (n : nat) (block : Z) (rpc : Z → RpcScan) (s : Store)
  : Store * list Action :=
  match n with
  | O => (s, [])
  | S n' =>
      let '(s1, l1) := fetchAndStoreEvents block (rpc block) s in
      let '(s2, l2) := for_blocks n' (block + 1) rpc s1 in
      (s2, l1 ++ l2)
  end.

(** One turn of the [while (true)] of [fetchLiveBlocks]. *)
Definition pass (startBlock : Z) (r : Round) (s : Store)
  : Store * list Action :=
  for_blocks (Z.to_nat (latest r - startBlock)) (startBlock + 1)
             (getEvents r) s.

(** [fetchLiveBlocks(startBlock)] over the observations [rounds]; the
    result carries the value of [startBlock] after the last turn. *)
Fixpoint fetchLiveBlocks (rounds : list Round) (startBlock : Z) (s : Store)
  : Z * Store * list Action :=
  match rounds with
  | [] => (startBlock, s, [])
  | r :: rounds' =>
      let '(s1, l1) := pass startBlock r s in
      let '(b, s2, l2) := fetchLiveBlocks rounds' (latest r) s1 in
      (b, s2, l1 ++ l2)
  end.

(** The start of the script: [fetchLiveBlocks(await getLastProcessedBlock())]. *)
Definition main (rounds : list Round) (s : Store) : Z * Store * list Action :=
  fetchLiveBlocks rounds (getLastProcessedBlock s) s.

Definition checkpoints_of (l : list Action) : list Z :=
  omap (λ a, if a is CheckpointSet b then Some b else None) l.

Definition scans_of (l : list Action) : list Z :=
  omap (λ a, if a is Scanned b _ then Some b else None) l.

End BatchScan.

(** ** pendingIngestion.js *)

Module PerEvent.

(** [processEvent(event)]. *)
Definition processEvent (ev : Event) (s : Store) : Store :=
  match EVENT_MAP (ev_key ev) with
  | None => s                                  (* if (!EVENT_MAP[key]) return *)
  | Some name =>
      let a := ev_data ev !! 0%nat in
      let l := ev_data ev !! 2%nat in
      let k := default ""%string (ev_key ev) in
      let '(bs, ms) :=
        if decide (k = TILE_MINED) then
          match findOne (mine_filter a l) (mines s) with
          | Some _ => (bots s, mines s)
          | None =>
              (updateOne (bot_filter a) (add_score 10) None (bots s),
               create (mkMine a l Empty (ev_timestamp ev)) (mines s))
          end
        else if decide (k = DIAMOND_FOUND) then
          (updateOne (bot_filter a) (add_score 5000) None (bots s),
           create (mkMine a l Diamond (ev_timestamp ev)) (mines s))
        else if decide (k = BOMB_FOUND) then
          (updateOne (bot_filter a) (set_status dead) None (bots s),
           create (mkMine a (ev_data ev !! 1%nat) Bomb (ev_timestamp ev))
                  (mines s))
        else if decide (k = SPAWNED_BOT) then
          (create (mkBot a (ev_data ev !! 1%nat) alive 0 (ev_data ev !! 2%nat))
                  (bots s),
           mines s)
        else (bots s, mines s) in
      mkStore (checkpoint s) bs ms
              (create (mkTransaction (ev_block ev) name (ev_key ev)
                                     (ev_data ev) (ev_timestamp ev))
                      (transactions s))
  end.

Definition processEvents (evs : list Event) (s : Store) : Store :=
  foldl (λ acc ev, processEvent ev acc) s evs.

(** [fetchAndStoreEvents(blockNumber)]: every page is applied as soon as
    it arrives; a later failure leaves the pages already applied. *)
Fixpoint scan (blockNumber : Z) (r : RpcScan) (s : Store)
  : Store * list Action * bool :=
  match r with
  | RpcError => (s, [], false)
  | RpcPage evs tok next =>
      let es := map (to_event blockNumber) evs in
      let s1 := processEvents es s in
      let l1 := map (λ e, Applied blockNumber (ev_key e)) es in
      if truthy tok then
        let '(s2, l2, ok) := scan blockNumber next s1 in (s2, l1 ++ l2, ok)
      else (s1, l1, true)
  end.

Definition fetchAndStoreEvents (blockNumber : Z) (r : RpcScan) (s : Store)
  : Store * list Action :=
  let '(s1, l, ok) := scan blockNumber r s in
  if ok then (Batch.updateCheckpoint blockNumber s1,
              l ++ [Scanned blockNumber true; CheckpointSet blockNumber])
  else (s1, l ++ [Scanned blockNumber false]).

Fixpoint for_blocks (n : nat) (block : Z) (rpc : Z → RpcScan) (s : Store)
  : Store * list Action :=
  match n with
  | O => (s, [])
  | S n' =>
      let '(s1, l1) := fetchAndStoreEvents block (rpc block) s in
      let '(s2, l2) := for_blocks n' (block + 1) rpc s1 in
      (s2, l1 ++ l2)
  end.

(** The loop of [ingestHistoricData()], from the checkpoint to the head
    read once before it.  (After the loop the function assigns to its
    constant [lastProcessedBlock], which throws: [startProcessing] lands in
    its [catch], waits, and starts over from the checkpoint.) *)
Definition ingestHistoricData (r : Round) (s : Store) : Store * list Action :=
  let lastProcessedBlock := Batch.getLastProcessedBlock s in
  for_blocks (Z.to_nat (latest r - lastProcessedBlock))
             (lastProcessedBlock + 1) (getEvents r) s.

End PerEvent.

(** ** The live servers *)

(** An element of [result.result.events]. *)
Record PendingEvent := mkPendingEvent {
  pe_keys : list string;
  pe_data : list string }.

(** An element of [transactionQueue]: [{event_name, data, timestamp}]. *)
Record BroadcastItem := mkItem {
  item_event_name : string;
  item_data : list string;
  item_timestamp : Z }.

(** The body of the POST for [starknet_getEvents] on the pending window. *)
Record Request := mkRequest {
  chunk_size : Z;
  req_continuation_token : option string }.   (* [None]: the field is not set *)

(** How an awaited fetch ends: [fetch] or [response.json()] throws, the
    body has no [result.events], or it has. *)
Inductive Response :=
| Throws
| InvalidFormat
| Events (evs : list PendingEvent) (continuation_token : option string).

(** [arr.slice(0, e)]: a negative end counts from the end of the array. *)
Definition slice0 {A : Type} (e : Z) (l : list A) : list A :=
  if decide (e < 0) then take (Z.to_nat (Z.of_nat (length l) + e)) l
  else take (Z.to_nat e) l.

(** [arr.slice(-n)] for a positive [n]: the last [n] elements. *)
Definition slice_last {A : Type} (n : nat) (l : list A) : list A :=
  drop (length l - n) l.

Definition format (name_of : option string → string) (now : Z)
    (tx : PendingEvent) : BroadcastItem :=
  mkItem (name_of (pe_keys tx !! 0%nat)) (pe_data tx) now.

(** The request built from the current token:
    [if (this.continuationToken) payload.params[0].continuation_token = ...]. *)
Definition payload (chunk : Z) (tok : option string) : Request :=
  mkRequest chunk (if truthy tok then tok else None).

(** *** The server with the capped queue and the client backlogs *)

Module Manager.

(** The value stored for a socket in [connectedClients]. *)
Record ClientInfo := mkClient {
  id : nat;
  batchSize : nat;
  nextBatchTime : Z;
  batchInterval : Z;
  queueBacklog : list BroadcastItem }.

(** [TransactionManager]; sockets are named by numbers, [pollInterval]
    tells whether the interval timer is set. *)
Record TransactionManager := mkManager {
  transactionQueue : list BroadcastItem;
  continuationToken : option string;
  isFetching : bool;
  connectedClients : gmap nat ClientInfo;
  pollInterval : bool;
  maxQueueSize : Z }.

(** [constructor()]. *)
Definition constructor : TransactionManager :=
  mkManager [] None false ∅ false 5000.

Definition set_queue (q : list BroadcastItem) (m : TransactionManager) :=
  mkManager q (continuationToken m) (isFetching m) (connectedClients m)
            (pollInterval m) (maxQueueSize m).
Definition set_token (t : option string) (m : TransactionManager) :=
  mkManager (transactionQueue m) t (isFetching m) (connectedClients m)
            (pollInterval m) (maxQueueSize m).
Definition set_fetching (b : bool) (m : TransactionManager) :=
  mkManager (transactionQueue m) (continuationToken m) b (connectedClients m)
            (pollInterval m) (maxQueueSize m).
Definition set_clients (c : gmap nat ClientInfo) (m : TransactionManager) :=
  mkManager (transactionQueue m) (continuationToken m) (isFetching m) c
            (pollInterval m) (maxQueueSize m).
Definition set_timer (b : bool) (m : TransactionManager) :=
  mkManager (transactionQueue m) (continuationToken m) (isFetching m)
            (connectedClients m) b (maxQueueSize m).

(** [fetchTransactions(limit = 200)] up to its [await]: the two early
    returns, then the request that is sent. *)
Definition fetch_begin (m : TransactionManager)
  : TransactionManager * option Request :=
  if isFetching m then (m, None)
  else if decide (maxQueueSize m ≤ Z.of_nat (length (transactionQueue m)))
  then (m, None)
  else (set_fetching true m, Some (payload 200 (continuationToken m))).

(** [fetchTransactions] from the answer on, with [finally]. *)
Definition fetch_end (resp : Response) (now : Z) (m : TransactionManager)
  : TransactionManager :=
  set_fetching false
    match resp with
    | Throws => m                       (* catch: console.error *)
    | InvalidFormat => m                (* console.error; return *)
    | Events [] _ => m                  (* "No new transactions found" *)
    | Events transactions tok =>
        let room := maxQueueSize m - Z.of_nat (length (transactionQueue m)) in
        let formattedTransactions :=
          map (format eventName now)
              (slice0 (Z.min (Z.of_nat (length transactions)) room)
                      transactions) in
        set_queue (transactionQueue m ++ formattedTransactions)
                  (set_token tok m)
    end.

(** [startPolling()]: the first fetch and the interval timer. *)
Definition startPolling (m : TransactionManager)
  : TransactionManager * option Request :=
  let '(m1, req) := fetch_begin m in (set_timer true m1, req).

(** The update of another client's backlog after a batch left the queue:
    push, then keep the last 1000. *)
Definition mirror (batch : list BroadcastItem) (c : ClientInfo) : ClientInfo :=
  let b := queueBacklog c ++ batch in
  mkClient (id c) (batchSize c) (nextBatchTime c) (batchInterval c)
           (if decide (1000 < length b)%nat then slice_last 1000 b else b).

Definition set_backlog (b : list BroadcastItem) (c : ClientInfo) : ClientInfo :=
  mkClient (id c) (batchSize c) (nextBatchTime c) (batchInterval c) b.

Definition set_next (t : Z) (c : ClientInfo) : ClientInfo :=
  mkClient (id c) (batchSize c) t (batchInterval c) (queueBacklog c).

(** [now + clientInfo.batchInterval * queueFactor], the factor 0.5, 0.7
    or 1 written in tenths. *)
Definition next_time (now : Z) (c : ClientInfo) (queue_len : nat) : Z :=
  let tenths := if decide (1000 < queue_len)%nat then 5
                else if decide (500 < queue_len)%nat then 7 else 10 in
  now + batchInterval c * tenths / 10.

(** The result of one [sendBatchToClient]: the batch handed to
    [ws.send], if any. *)
Definition Sent := option (list BroadcastItem).

(** [sendBatchToClient(ws)] at clock [now]; [open] tells whether
    [ws.readyState === 1], [send_ok] whether [ws.send] returns rather
    than throws. *)
Definition sendBatchToClient (ws : nat) (now : Z) (open send_ok : bool)
    (m : TransactionManager) : TransactionManager * Sent :=
  match connectedClients m !! ws with
  | None => (m, None)
  | Some clientInfo =>
      if negb open then (set_clients (delete ws (connectedClients m)) m, None)
      else if decide (now < nextBatchTime clientInfo) then (m, None)
      else
        match queueBacklog clientInfo, transactionQueue m with
        | _ :: _, _ =>
            let n := Nat.min (length (queueBacklog clientInfo))
                             (batchSize clientInfo) in
            let batch := take n (queueBacklog clientInfo) in
            let c1 := set_backlog (drop n (queueBacklog clientInfo))
                                  clientInfo in
            if send_ok then
              let c2 := set_next (next_time now c1 (length (transactionQueue m)))
                                 c1 in
              (set_clients (<[ws := c2]> (connectedClients m)) m, Some batch)
            else (set_clients (delete ws (connectedClients m)) m, Some batch)
        | [], _ :: _ =>
            let n := Nat.min (length (transactionQueue m))
                             (batchSize clientInfo) in
            let batch := take n (transactionQueue m) in
            let q := drop n (transactionQueue m) in
            if send_ok then
              let others :=
                map_imap (λ otherWs otherClientInfo,
                            Some (if decide (otherWs = ws) then otherClientInfo
                                  else mirror batch otherClientInfo))
                         (connectedClients m) in
              let c2 := set_next (next_time now clientInfo (length q))
                                 clientInfo in
              (set_queue q (set_clients (<[ws := c2]> others) m), Some batch)
            else
              (set_queue q (set_clients (delete ws (connectedClients m)) m),
               Some batch)
        | [], [] =>
            let c2 := set_next (next_time now clientInfo 0) clientInfo in
            (set_clients (<[ws := c2]> (connectedClients m)) m, None)
        end
  end.

(** [startStreaming(ws, clientId)]; the clock is read once for the entry of
    the client and for its first turn. *)
Definition startStreaming (ws clientId : nat) (now : Z) (open send_ok : bool)
    (m : TransactionManager) : TransactionManager * option Request * Sent :=
  let m1 := set_clients
              (<[ws := mkClient clientId 10 now 100 []]> (connectedClients m))
              m in
  let '(m2, req) := if decide (size (connectedClients m1) = 1%nat)
                    then startPolling m1 else (m1, None) in
  let '(m3, sent) := sendBatchToClient ws now open send_ok m2 in
  (m3, req, sent).

(** [removeClient(ws)]. *)
Definition removeClient (ws : nat) (m : TransactionManager)
  : TransactionManager :=
  let m1 := set_clients (delete ws (connectedClients m)) m in
  if decide (size (connectedClients m1) = 0%nat)
  then set_token None (set_queue [] (set_timer false m1))
  else m1.

(** The steps of the server: connections, timer ticks, answers of the
    RPC, turns of the client loops, disconnections. *)
Inductive step : TransactionManager → TransactionManager → Prop :=
| step_connect m ws clientId now open send_ok :
    step m (startStreaming ws clientId now open send_ok m).1.1
| step_poll m :
    pollInterval m = true → step m (fetch_begin m).1
| step_answer m resp now :
    isFetching m = true → step m (fetch_end resp now m)
| step_send m ws now open send_ok :
    step m (sendBatchToClient ws now open send_ok m).1
| step_close m ws :
    step m (removeClient ws m).

Inductive reachable : TransactionManager → Prop :=
| reach_init : reachable constructor
| reach_step m m' : reachable m → step m m' → reachable m'.

End Manager.

(** *** The first server: no capacity, token reset in the [catch] *)

Module FirstServer.

Record TransactionManager := mkManager {
  transactionQueue : list BroadcastItem;
  continuationToken : option string;
  isFetching : bool }.

Definition unknownName (key : option string) : string :=
  default "UnknownEvent"%string (EVENT_MAP key).

Definition fetch_begin (m : TransactionManager)
  : TransactionManager * option Request :=
  if isFetching m then (m, None)
  else (mkManager (transactionQueue m) (continuationToken m) true,
        Some (payload 1000 (continuationToken m))).

Definition fetch_end (resp : Response) (now : Z) (m : TransactionManager)
  : TransactionManager :=
  match resp with
  | Throws =>
      (* Reset continuation token on error to start fresh *)
      mkManager (transactionQueue m) None false
  | InvalidFormat =>
      mkManager (transactionQueue m) (continuationToken m) false
  | Events transactions tok =>
      mkManager (transactionQueue m ++ map (format unknownName now) transactions)
                tok false
  end.

End FirstServer.

(** *** The second server: no capacity, no reset *)

Module SecondServer.

Record TransactionManager := mkManager {
  transactionQueue : list BroadcastItem;
  continuationToken : option string;
  isFetching : bool }.

Definition fetch_begin (m : TransactionManager)
  : TransactionManager * option Request :=
  if isFetching m then (m, None)
  else (mkManager (transactionQueue m) (continuationToken m) true,
        Some (payload 1000 (continuationToken m))).

Definition fetch_end (resp : Response) (now : Z) (m : TransactionManager)
  : TransactionManager :=
  match resp with
  | Throws | InvalidFormat | Events [] _ =>
      mkManager (transactionQueue m) (continuationToken m) false
  | Events transactions tok =>
      mkManager (transactionQueue m ++ map (format eventName now) transactions)
                tok false
  end.

End SecondServer.

(** ** Keyed view of [updateOne], for the replay proofs *)

Section Keyed.
Context {D K : Type} `{EqDecision K} (key : D → K).

Definition by_key (k : K) (d : D) : bool := bool_decide (key d = k).

(** An [updateOne] whose filter selects a key. *)
Record KOp := mkKOp { okey : K; oupd : D → D; oins : option D }.

Definition kexec (o : KOp) (c : list D) : list D :=
  updateOne (by_key (okey o)) (oupd o) (oins o) c.

Definition kbulk (ops : list KOp) (c : list D) : list D :=
  foldl (λ acc o, kexec o acc) c ops.

(** Overwrite the first document of key [k]. *)
Definition kput (k : K) (r : D) (c : list D) : list D :=
  updateOne (by_key k) (λ _, r) None c.

(** What a list of operations does to a document of key [k] that is
    already there. *)
Definition kalong (k : K) (ops : list KOp) (r : D) : D :=
  foldl (λ r o, if decide (okey o = k) then oupd o r else r) r ops.

Definition wf_op (o : KOp) : Prop :=
  (∀ d, key d = okey o → key (oupd o d) = okey o) ∧
  (∀ v, oins o = Some v → key v = okey o ∧ oupd o v = v).

(** The conditions on the updates under which a replay changes nothing. *)
Fixpoint replayable (ops : list KOp) : Prop :=
  match ops with
  | [] => True
  | o :: post =>
      let k := okey o in
      (∀ x, kalong k post (oupd o (kalong k post (oupd o x)))
            = kalong k post (oupd o x)) ∧
      (oins o = None → ∀ c y, findOne (by_key k) c = None →
         findOne (by_key k) (kbulk post c) = Some y →
         kalong k post (oupd o y) = y) ∧
      replayable post
  end.
End Keyed.

Definition mine_key (m : Mine) : option string * option string :=
  (mine_bot_address m, location m).

Definition mine_kop (op : Batch.MineOp)
  : KOp (D:=Mine) (K:=option string * option string) :=
  match op with
  | Batch.SetOnInsert a l ty ts => mkKOp (a, l) (λ m, m) (Some (mkMine a l ty ts))
  | Batch.ForceSet a l ty ts =>
      mkKOp (a, l) (λ _, mkMine a l ty ts) (Some (mkMine a l ty ts))
  end.

(** A bot without its score. *)
Definition no_score (b : Bot) : Bot :=
  mkBot (bot_address b) (player b) (status b) 0 (starting_tile b).

Definition bot_kop (op : Batch.BotOp) : KOp (D:=Bot) (K:=option string) :=
  match op with
  | Batch.IncScore a _ => mkKOp a (λ b, b) None
  | Batch.SetDead a => mkKOp a (set_status dead) None
  | Batch.SetSpawned a pl tile =>
      mkKOp a (Batch.set_spawned a pl tile) (Some (mkBot a pl alive 0 tile))
  end.

(** What a list of bot operations does to a document, field by field:
    [None] keeps the field, [Some v] sets it. *)
Record BotPatch := mkPatch {
  p_address : option string;
  p_player : option string;
  p_status : option BotStatus;
  p_score : option Z;
  p_tile : option string }.

Definition patch (p : BotPatch) (b : Bot) : Bot :=
  mkBot (Batch.set_defined (p_address p) (bot_address b))
        (Batch.set_defined (p_player p) (player b))
        (default (status b) (p_status p))
        (default (score b) (p_score p))
        (Batch.set_defined (p_tile p) (starting_tile b)).

(** The patch of [q] after [p]. *)
Definition patch_after (q p : BotPatch) : BotPatch :=
  mkPatch (Batch.set_defined (p_address q) (p_address p))
          (Batch.set_defined (p_player q) (p_player p))
          (if p_status q is Some _ then p_status q else p_status p)
          (if p_score q is Some _ then p_score q else p_score p)
          (Batch.set_defined (p_tile q) (p_tile p)).

Definition bot_patch (op : Batch.BotOp) : BotPatch :=
  match op with
  | Batch.IncScore _ _ => mkPatch None None None None None
  | Batch.SetDead _ => mkPatch None None (Some dead) None None
  | Batch.SetSpawned a pl tile => mkPatch a pl (Some alive) (Some 0) tile
  end.

(** ** Vocabulary of the statements *)

(** The events a completed scan of a block hands to the mutator; none when
    a call of the scan throws. *)
Definition scanned (blockNumber : Z) (r : RpcScan) : list Event :=
  default [] (BatchScan.collect blockNumber r []).

(** The events handed to the mutator by [n] turns of the block loop. *)
Fixpoint scanned_in (n : nat) (block : Z) (rpc : Z → RpcScan) : list Event :=
  match n with
  | O => []
  | S n' => scanned block (rpc block) ++ scanned_in n' (block + 1) rpc
  end.

(** What the scanner logs for a block whose scan completed with [events]:
    the scan, the bulk writes of the block, the checkpoint. *)
Definition block_trace (blockNumber : Z) (events : list Event) : list Action :=
  Scanned blockNumber true ::
  (if events is [] then [] else BatchScan.writes events blockNumber) ++
  [CheckpointSet blockNumber].

(** [l] is strictly increasing and lies in the interval (lo, hi]. *)
Fixpoint increasing_in (lo hi : Z) (l : list Z) : Prop :=
  match l with
  | [] => True
  | x :: l' => lo < x ≤ hi ∧ increasing_in x hi l'
  end.

(** [l] never decreases and starts at or above [lo]. *)
Fixpoint nondecreasing_from (lo : Z) (l : list Z) : Prop :=
  match l with
  | [] => True
  | x :: l' => lo ≤ x ∧ nondecreasing_from x l'
  end.

(** A log made of the traces of blocks, one after the other: a failed scan,
    or the trace of a block scanned with events that satisfy [P]. *)
Inductive block_segments (P : Z → list Event → Prop) : list Action → Prop :=
| segments_nil : block_segments P []
| segments_failed b l :
    block_segments P l → block_segments P (Scanned b false :: l)
| segments_block b events l :
    P b events → block_segments P l →
    block_segments P (block_trace b events ++ l).

(** What holds of the capped server in every state it reaches: the
    capacity is the one of the constructor, the queue is within it, and
    every client has a backlog within 1000 and the batch size 10. *)
Definition invariant (m : Manager.TransactionManager) : Prop :=
  Manager.maxQueueSize m = 5000 ∧
  Z.of_nat (length (Manager.transactionQueue m)) ≤ Manager.maxQueueSize m ∧
  ∀ ws c, Manager.connectedClients m !! ws = Some c →
          (length (Manager.queueBacklog c) ≤ 1000)%nat ∧
          Manager.batchSize c = 10%nat.

(** ** Vocabulary of the further statements *)

(** The keys that have a [case] in the [switch] of the two mutators. *)
Definition handled (key : option string) : bool :=
  bool_decide (key = Some TILE_MINED ∨ key = Some DIAMOND_FOUND ∨
               key = Some BOMB_FOUND ∨ key = Some SPAWNED_BOT).

Definition is_spawn (ev : Event) : bool :=
  bool_decide (ev_key ev = Some SPAWNED_BOT).

(** No two bots with one address, no two mines with one pair. *)
Definition unique_keys (s : Store) : Prop :=
  NoDup (map bot_address (bots s)) ∧ NoDup (map mine_key (mines s)).

(** [s'] has the documents of [s], in place and under their keys, and
    possibly more after them. *)
Definition extends (s s' : Store) : Prop :=
  map bot_address (bots s) `prefix_of` map bot_address (bots s') ∧
  map mine_key (mines s) `prefix_of` map mine_key (mines s') ∧
  transactions s `prefix_of` transactions s'.

(** [b'] is the bot [b] later on: same address, player and tile, a score
    that did not go down, and still dead if it was. *)
Definition same_agent_grown (b b' : Bot) : Prop :=
  bot_address b = bot_address b' ∧ player b = player b' ∧
  starting_tile b = starting_tile b' ∧ score b ≤ score b' ∧
  (status b = dead → status b' = dead).

(** ** The outer loops of pendingIngestion.js *)

Module PerEventLoop.

(** One turn of the [while (true)] of [fetchLiveBlocks]: [head] is the
    block number of [provider.getBlock("latest")], [None] when the call
    throws. *)
Record Turn := mkTurn {
  head : option Z;
  answers : Z → RpcScan }.

(** The [try] of one turn: nothing in the [catch], nothing unless the head
    is above [lastProcessed]; otherwise the blocks from [lastProcessed + 1]
    to [latestBlockNumber + 1] included, and [lastProcessed] becomes the
    head. *)
Definition turn (lastProcessed : Z) (t : Turn) (s : Store)
  : Z * Store * list Action :=
  match head t with
  | None => (lastProcessed, s, [])
  | Some latestBlockNumber =>
      if decide (lastProcessed < latestBlockNumber) then
        let '(s', l) :=
          PerEvent.for_blocks (Z.to_nat (latestBlockNumber + 1 - lastProcessed))
                              (lastProcessed + 1) (answers t) s in
        (latestBlockNumber, s', l)
      else (lastProcessed, s, [])
  end.

(** [fetchLiveBlocks(startBlock)] over the turns [turns]. *)
Fixpoint fetchLiveBlocks (turns : list Turn) (lastProcessed : Z) (s : Store)
  : Z * Store * list Action :=
  match turns with
  | [] => (lastProcessed, s, [])
  | t :: turns' =>
      let '(lp, s1, l1) := turn lastProcessed t s in
      let '(b, s2, l2) := fetchLiveBlocks turns' lp s1 in
      (b, s2, l1 ++ l2)
  end.




End PerEventLoop.

(** The events of the pages a scan reads, up to its end or to the call that
    throws, and whether it ends well. *)
Fixpoint consumed (blockNumber : Z) (r : RpcScan) : list Event * bool :=
  match r with
  | RpcError => ([], false)
  | RpcPage evs tok next =>
      let es := map (to_event blockNumber) evs in
      if truthy tok then
        let '(rest, ok) := consumed blockNumber next in (es ++ rest, ok)
      else (es, true)
  end.

(** The events whose key is in [EVENT_MAP]. *)
Definition mapped (ev : Event) : bool :=
  bool_decide (is_Some (EVENT_MAP (ev_key ev))).

(** Every client has the pacing of [startStreaming]: batches of 10, every
    100 ms at the slowest. *)
Definition client_settings (m : Manager.TransactionManager) : Prop :=
  ∀ ws c, Manager.connectedClients m !! ws = Some c →
          Manager.batchSize c = 10%nat ∧ Manager.batchInterval c = 100.

(** The poll timer is set whenever a client is connected. *)
Definition polling_while_connected (m : Manager.TransactionManager) : Prop :=
  Manager.connectedClients m ≠ ∅ → Manager.pollInterval m = true.

(** ** The second server: every client loop takes from the one queue *)

Module SecondStream.
Import SecondServer.

(** The manager of the second server with its set of sockets and its
    interval timer. *)
Record Server := mkServer {
  manager : TransactionManager;
  connectedClients : gset nat;
  pollInterval : bool }.

Definition constructor : Server := mkServer (mkManager [] None false) ∅ false.

Definition batchSize : nat := 15.
Definition batchInterval : Z := 50.

Definition set_manager (m : TransactionManager) (s : Server) : Server :=
  mkServer m (connectedClients s) (pollInterval s).

Definition set_queue (q : list BroadcastItem) (s : Server) : Server :=
  set_manager (mkManager q (continuationToken (manager s))
                         (isFetching (manager s))) s.

(** The size of the batch cut off a queue of the given length. *)
Definition currentBatchSize (queue_length : nat) : nat :=
  if decide (10000 < Z.of_nat queue_length) then 100%nat
  else if decide (1000 < Z.of_nat queue_length) then 50%nat
  else if decide (500 < Z.of_nat queue_length) then 25%nat
  else batchSize.

(** The delay of the [setTimeout] that runs [streamBatch] again. *)
Definition interval (queue_length : nat) : Z :=
  if decide (1000 < Z.of_nat queue_length) then 25
  else if decide (500 < Z.of_nat queue_length) then 40
  else batchInterval.

(** One run of the closure [streamBatch] of socket [ws]: the server after
    it, the batch handed to [ws.send] if any, and the delay after which the
    closure runs again ([None]: the loop of this socket has ended).
    [send_ok] tells whether [ws.send] returns rather than throws. *)
Definition streamBatch (ws : nat) (send_ok : bool) (s : Server)
  : Server * option (list BroadcastItem) * option Z :=
  if decide (ws ∈ connectedClients s) then
    match transactionQueue (manager s) with
    | [] => (s, None, Some (interval 0))
    | _ :: _ =>
        let n := currentBatchSize (length (transactionQueue (manager s))) in
        let batch := take n (transactionQueue (manager s)) in
        let s1 := set_queue (drop n (transactionQueue (manager s))) s in
        if send_ok
        then (s1, Some batch,
              Some (interval (length (transactionQueue (manager s1)))))
        else (mkServer (manager s1) (connectedClients s1 ∖ {[ws]})
                       (pollInterval s1),
              Some batch, None)
    end
  else (s, None, None).

(** [startPolling()] up to the [await] of its first fetch. *)
Definition startPolling (s : Server) : Server * option Request :=
  let '(m1, req) := fetch_begin (manager s) in
  (mkServer m1 (connectedClients s) true, req).

(** [startStreaming(ws)]. *)
Definition startStreaming (ws : nat) (send_ok : bool) (s : Server)
  : Server * option Request * option (list BroadcastItem) :=
  let s1 := mkServer (manager s) ({[ws]} ∪ connectedClients s)
                     (pollInterval s) in
  let '(s2, req) := if decide (size (connectedClients s1) = 1%nat)
                    then startPolling s1 else (s1, None) in
  let '(s3, sent, _) := streamBatch ws send_ok s2 in
  (s3, req, sent).

(** [removeClient(ws)]. *)
Definition removeClient (ws : nat) (s : Server) : Server :=
  let clients := connectedClients s ∖ {[ws]} in
  if decide (size clients = 0%nat)
  then mkServer (mkManager [] None (isFetching (manager s))) clients false
  else mkServer (manager s) clients (pollInterval s).

(** The callbacks the event loop runs: a connection, a timeout of a
    client loop, a fetch started by the timer or by its follow-up timeout, the
    answer to a fetch, a socket closing. *)
Inductive Callback :=
| Connection (ws : nat) (send_ok : bool)
| Timeout (ws : nat) (send_ok : bool)
| Poll
| Answer (resp : Response) (now : Z)
| Close (ws : nat).

(** One callback: the server after it and what was handed to which
    socket. *)
Definition callback (cb : Callback) (s : Server)
  : Server * list (nat * list BroadcastItem) :=
  let handed (ws : nat) (sent : option (list BroadcastItem)) :=
    match sent with Some batch => [(ws, batch)] | None => [] end in
  match cb with
  | Connection ws send_ok =>
      let '(s1, _, sent) := startStreaming ws send_ok s in (s1, handed ws sent)
  | Timeout ws send_ok =>
      let '(s1, sent, _) := streamBatch ws send_ok s in (s1, handed ws sent)
  | Poll => (set_manager (fetch_begin (manager s)).1 s, [])
  | Answer resp now => (set_manager (fetch_end resp now (manager s)) s, [])
  | Close ws => (removeClient ws s, [])
  end.

Fixpoint run (cbs : list Callback) (s : Server)
  : Server * list (nat * list BroadcastItem) :=
  match cbs with
  | [] => (s, [])
  | cb :: cbs' =>
      let '(s1, l1) := callback cb s in
      let '(s2, l2) := run cbs' s1 in
      (s2, l1 ++ l2)
  end.

(** The items a callback brings in: the formatted page of an answer. *)
Definition arrived (cb : Callback) : list BroadcastItem :=
  match cb with
  | Answer (Events transactions _) now => map (format eventName now) transactions
  | _ => []
  end.

Definition is_close (cb : Callback) : bool :=
  match cb with Close _ => true | _ => false end.

End SecondStream.

(** ** The statistics socket *)

Module Stats.

(** A row of the aggregation: [{ _id, total_score }]. *)
Record Row := mkRow { _id : option string; total_score : Z }.

Definition sum_scores (bs : list Bot) : Z :=
  foldr (λ b acc, score b + acc) 0 bs.

Definition of_player (p : option string) (b : Bot) : bool :=
  bool_decide (player b = p).

(** [{ $group: { _id: "$player", total_score: { $sum: "$score" } } }]: one
    row for each value of [player]. *)
Definition group (bots : list Bot) : list Row :=
  map (λ p, mkRow p (sum_scores (List.filter (of_player p) bots)))
      (remove_dups (map player bots)).

(** The order of [{ $sort: { total_score: -1 } }]. *)
Definition higher (a b : Row) : Prop := total_score b ≤ total_score a.

#[global] Instance higher_dec : RelDecision higher :=
  λ a b, decide (total_score b ≤ total_score a).

(** The pipeline of [Bot.aggregate]: group, sort, limit.  The store fixes
    no order among rows of equal total; here it is that of the merge. *)
Definition aggregate (bots : list Bot) : list Row :=
  take 10 (merge_sort higher (group bots)).

(** The [data] of the message of type ["stats"]. *)
Record Message := mkMessage {
  totalPlayers : nat;
  totalBots : nat;
  botsAlive : nat;
  botsDead : Z;
  diamondsMined : nat;
  totalTilesMined : nat;
  leaderboard : list Row }.

(** The body of [sendStatsAndLeaderboard()] on the store it reads;
    [Bot.distinct("player")] lists the values of the documents that have
    the field. *)
Definition sendStatsAndLeaderboard (s : Store) : Message :=
  let totalPlayers := length (remove_dups (omap player (bots s))) in
  let totalBots := countDocuments (λ _, true) (bots s) in
  let botsAlive :=
    countDocuments (λ b, bool_decide (status b = alive)) (bots s) in
  let botsDead := Z.of_nat totalBots - Z.of_nat botsAlive in
  let diamondsMined :=
    countDocuments (λ m, bool_decide (mine_type m = Diamond)) (mines s) in
  let totalTilesMined := countDocuments (λ _, true) (mines s) in
  mkMessage totalPlayers totalBots botsAlive botsDead diamondsMined
            totalTilesMined (aggregate (bots s)).

End Stats.

(** ** The tile socket *)

Module TileManager.

(** [str.split(sep)] for a separator of one character. *)
Fixpoint split (sep : ascii) (s : string) : list string :=
  match s with
  | EmptyString => [EmptyString]
  | String c s' =>
      if decide (c = sep) then EmptyString :: split sep s'
      else match split sep s' with
           | piece :: pieces => String c piece :: pieces
           | [] => [String c EmptyString]
           end
  end.

(** [id.replace(/[()]/g, '')]. *)
Fixpoint strip_parens (s : string) : string :=
  match s with
  | EmptyString => EmptyString
  | String c s' =>
      if decide (c = "("%char ∨ c = ")"%char) then strip_parens s'
      else String c (strip_parens s')
  end.

(** [const [rangeStart, rangeEnd] = tileRange.split('-').map(...)]: a
    piece that is not there reads [undefined]. *)
Definition range_of (tileRange : string) : option string * option string :=
  let ids := map strip_parens (split "-"%char tileRange) in
  (ids !! 0%nat, ids !! 1%nat).

(** The white space [parseInt] skips at the start of its argument, in the
    UTF-8 bytes of the string: tab, line feed, vertical tab, form feed,
    carriage return, space, U+00A0, U+1680, U+2000 to U+200A, U+2028,
    U+2029, U+202F, U+205F, U+3000 and U+FEFF. *)
Fixpoint skip_white_space (s : string) : string :=
  match s with
  | String c1 s1 =>
      let b1 := N_of_ascii c1 in
      if ((9 <=? b1) && (b1 <=? 13) || (b1 =? 32))%N then skip_white_space s1
      else
        match s1 with
        | String c2 s2 =>
            let b2 := N_of_ascii c2 in
            if ((b1 =? 194) && (b2 =? 160))%N then skip_white_space s2
            else
              match s2 with
              | String c3 s3 =>
                  let b3 := N_of_ascii c3 in
                  if ((b1 =? 225) && (b2 =? 154) && (b3 =? 128)
                      || (b1 =? 226) && (b2 =? 128)
                         && ((128 <=? b3) && (b3 <=? 138)
                             || (b3 =? 168) || (b3 =? 169) || (b3 =? 175))
                      || (b1 =? 226) && (b2 =? 129) && (b3 =? 159)
                      || (b1 =? 227) && (b2 =? 128) && (b3 =? 128)
                      || (b1 =? 239) && (b2 =? 187) && (b3 =? 191))%N
                  then skip_white_space s3 else s
              | EmptyString => s
              end
        | EmptyString => s
        end
  | EmptyString => s
  end.

(** The value of a character as a digit of the radix, 10 or 16. *)
Definition digit (radix : Z) (c : ascii) : option Z :=
  let b := Z.of_N (N_of_ascii c) in
  if decide (48 ≤ b ≤ 57) then Some (b - 48)
  else if decide (radix = 16 ∧ 97 ≤ b ≤ 102) then Some (b - 87)
  else if decide (radix = 16 ∧ 65 ≤ b ≤ 70) then Some (b - 55)
  else None.

(** The longest prefix of digits read as a number; [None] when it is
    empty. *)
Fixpoint digits (radix : Z) (s : string) (acc : option Z) : option Z :=
  match s with
  | String c s' =>
      match digit radix c with
      | Some d => digits radix s' (Some (default 0 acc * radix + d))
      | None => acc
      end
  | EmptyString => acc
  end.

(** A number as the loop of [getTileData] holds it, a double.  [Int z] is
    the integer [z], below 2^53 in magnitude: there the doubles are the
    integers and [i++] is the successor.  [Large] is a double of magnitude
    2^53 or more: from there on the doubles skip integers, [i++] need not
    advance, and this model does not follow the source. *)
Inductive Number := NaN | Int (z : Z) | Large.

(** [parseInt(x)] without a radix; the argument [undefined] is read as
    the string "undefined". *)
Definition parseInt (x : option string) : Number :=
  let s := skip_white_space (default "undefined"%string x) in
  let '(sign, s1) :=
    match s with
    | String c r => if decide (c = "-"%char) then (-1, r)
                    else if decide (c = "+"%char) then (1, r) else (1, s)
    | EmptyString => (1, s)
    end in
  let '(radix, s2) :=
    match s1 with
    | String c (String x r) =>
        if decide (c = "0"%char ∧ (x = "x"%char ∨ x = "X"%char)) then (16, r)
        else (10, s1)
    | _ => (10, s1)
    end in
  match digits radix s2 None with
  | None => NaN
  | Some n => if decide (n < 2 ^ 53) then Int (sign * n) else Large
  end.

(** [i.toString(16)]. *)
Definition toString16 (i : Z) : string :=
  match i with
  | Z0 => "0"
  | Zpos p => HexString.Raw.of_pos p ""
  | Zneg p => String "-" (HexString.Raw.of_pos p "")
  end%string.

Definition hexTileId (i : Z) : string := ("0x" ++ toString16 i)%string.

(** The loop that fills [tileIds].  It does not run when a bound is
    [NaN], every comparison with [NaN] being false; between two bounds below
    2^53 it runs through the integers from the one to the other.  [None]:
    a bound is [Large], where the loop of the source counts in doubles and
    may not end. *)
Definition tileIds (tileRange : string) : option (list string) :=
  let '(rangeStart, rangeEnd) := range_of tileRange in
  match parseInt rangeStart, parseInt rangeEnd with
  | NaN, _ | _, NaN => Some []
  | Int a, Int b => Some (map hexTileId (seqZ a (b - a + 1)))
  | _, _ => None
  end.

(** [Mine.find({ location: { $in: tileIds } })]. *)
Definition find_in (tileIds : list string) (mines : list Mine) : list Mine :=
  List.filter (λ m, match location m with
                    | Some l => bool_decide (l ∈ tileIds)
                    | None => false
                    end) mines.

(** [getTileData(layer, tileRange)]; the function does not read [layer].
    [None] where [tileIds] has no list. *)
Definition getTileData (tileRange : string) (mines : list Mine)
  : option (list Mine) :=
  (λ ids, find_in ids mines) <$> tileIds tileRange.

(** The query of the interval of [startUpdates()] for a viewer whose
    range has both bounds: [Mine.find({ location: { $gte: rangeStart, $lte:
    rangeEnd }, timestamp: { $gt: new Date(lastUpdate) } })].  The store
    compares strings byte by byte; [recent] is the test of the timestamp. *)
Definition updates (rangeStart rangeEnd : string) (recent : string → bool)
    (mines : list Mine) : list Mine :=
  List.filter (λ m, match location m with
                    | Some l => String.leb rangeStart l && String.leb l rangeEnd
                    | None => false
                    end && recent (mine_timestamp m)) mines.

(** The string starts with one of the digits 1 to 9. *)
Definition starts_with_nonzero_digit (s : string) : bool :=
  match s with
  | String c _ => ((49 <=? N_of_ascii c) && (N_of_ascii c <=? 57))%N
  | EmptyString => false
  end.

End TileManager.

(** * Facts about collections *)

Section CollectionFacts.
Context {D : Type}.
Implicit Types (p : D → bool) (f : D → D) (c : list D).

Lemma update_first_find p f (c : list D) :
  update_first p f c = None ↔ findOne p c = None.
Proof.
  induction c as [|d c IH]; simpl; [done|].
  destruct (p d); [done|]. destruct (update_first p f c); [|tauto].
  split; [done|]. intros Hn. apply IH in Hn. done.
Qed.

Lemma update_first_const p f (c : list D) x :
  findOne p c = Some x → update_first p f c = update_first p (λ _, f x) c.
Proof.
  induction c as [|d c IH]; simpl; [done|].
  destruct (p d).
  - by intros [= ->].
  - intros Hx. by rewrite (IH Hx).
Qed.

Lemma updateOne_absent p f ups (c : list D) :
  findOne p c = None →
  updateOne p f ups c = match ups with Some d => c ++ [d] | None => c end.
Proof.
  intros Hn. unfold updateOne.
  by rewrite (proj2 (update_first_find p f c) Hn).
Qed.

Lemma updateOne_present p f ups (c : list D) x :
  findOne p c = Some x → updateOne p f ups c = updateOne p (λ _, f x) None c.
Proof.
  intros Hx. unfold updateOne. rewrite (update_first_const p f c x Hx).
  destruct (update_first p (λ _, f x) c) eqn:E; [done|].
  apply update_first_find in E. congruence.
Qed.

Lemma findOne_true p c x : findOne p c = Some x → p x = true.
Proof.
  induction c as [|d c IH]; simpl; [done|].
  destruct (p d) eqn:Hd; [by intros [= <-]|done].
Qed.

Lemma findOne_updateOne p f ups c x :
  findOne p c = Some x → p (f x) = true →
  findOne p (updateOne p f ups c) = Some (f x).
Proof.
  intros Hx Hfx. unfold updateOne.
  induction c as [|d c IH]; simpl in *; [done|].
  destruct (p d) eqn:Hd.
  - simplify_eq. simpl. by rewrite Hfx.
  - specialize (IH Hx). destruct (update_first p f c) eqn:E.
    + simpl. by rewrite Hd.
    + apply update_first_find in E. congruence.
Qed.

Lemma countDocuments_updateOne p f ups c x :
  findOne p c = Some x → p (f x) = true →
  countDocuments p (updateOne p f ups c) = countDocuments p c.
Proof.
  intros Hx Hfx. unfold updateOne, countDocuments.
  induction c as [|d c IH]; simpl in *; [done|].
  destruct (p d) eqn:Hd.
  - simplify_eq. simpl. by rewrite Hfx.
  - specialize (IH Hx). destruct (update_first p f c) eqn:E.
    + simpl. by rewrite Hd.
    + apply update_first_find in E. congruence.
Qed.

Lemma length_updateOne_present p f ups c x :
  findOne p c = Some x → length (updateOne p f ups c) = length c.
Proof.
  intros Hx. unfold updateOne.
  induction c as [|d c IH]; simpl in *; [done|].
  destruct (p d) eqn:Hd; [done|].
  specialize (IH Hx). destruct (update_first p f c) eqn:E.
  - simpl. by rewrite IH.
  - apply update_first_find in E. congruence.
Qed.

Lemma countDocuments_create p d c :
  countDocuments p (create d c)
  = (countDocuments p c + if p d then 1 else 0)%nat.
Proof.
  unfold countDocuments, create. rewrite List.filter_app, length_app. simpl.
  by destruct (p d).
Qed.

Lemma findOne_create p d c x :
  findOne p c = Some x → findOne p (create d c) = Some x.
Proof.
  unfold create. induction c as [|d' c IH]; simpl; [done|].
  by destruct (p d').
Qed.
End CollectionFacts.

Section KeyedFacts.
Context {D K : Type} `{EqDecision K} (key : D → K).
Local Abbreviation row k c := (findOne (by_key key k) c).
Local Abbreviation put := (kput key).
Local Abbreviation kexec := (kexec key).
Local Abbreviation kbulk := (kbulk key).
Local Abbreviation wf_op := (wf_op key).
Local Abbreviation along := (kalong (D:=D) (K:=K)).

Lemma kexec_present o c x :
  row (okey o) c = Some x → kexec o c = put (okey o) (oupd o x) c.
Proof. apply updateOne_present. Qed.

Lemma kexec_absent o c :
  row (okey o) c = None →
  kexec o c = match oins o with Some d => c ++ [d] | None => c end.
Proof. apply updateOne_absent. Qed.

Lemma put_absent k r c : row k c = None → put k r c = c.
Proof. intros Hn. unfold kput. by rewrite updateOne_absent. Qed.

Lemma put_cons k r d c :
  put k r (d :: c) = if by_key key k d then r :: c else d :: put k r c.
Proof.
  unfold kput, updateOne. simpl. destruct (by_key key k d); [done|].
  by destruct (update_first _ _ c).
Qed.

Lemma row_put k k' r c :
  key r = k →
  row k' (put k r c) =
    if decide (k' = k) then (λ _, r) <$> row k c else row k' c.
Proof.
  intros Hr. destruct (decide (k' = k)) as [->|Hk].
  - induction c as [|d c IH]; simpl; [done|].
    rewrite put_cons. destruct (by_key key k d) eqn:Hd; simpl.
    + unfold by_key. by rewrite bool_decide_eq_true_2.
    + by rewrite Hd.
  - induction c as [|d c IH]; simpl; [done|].
    rewrite put_cons. destruct (by_key key k d) eqn:Hd; simpl.
    + apply bool_decide_eq_true_1 in Hd. unfold by_key.
      by rewrite !bool_decide_eq_false_2 by congruence.
    + by rewrite IH.
Qed.

Lemma put_put k r r' c : key r' = k → put k r (put k r' c) = put k r c.
Proof.
  intros Hr'. induction c as [|d c IH]; [done|].
  rewrite !put_cons. destruct (by_key key k d) eqn:Hd.
  - rewrite put_cons. unfold by_key. by rewrite bool_decide_eq_true_2.
  - rewrite put_cons, Hd. by rewrite IH.
Qed.

Lemma put_comm k k' r r' c :
  k ≠ k' → key r = k → key r' = k' →
  put k r (put k' r' c) = put k' r' (put k r c).
Proof.
  intros Hne Hr Hr'. induction c as [|d c IH]; [done|].
  rewrite !put_cons.
  destruct (by_key key k' d) eqn:Hd', (by_key key k d) eqn:Hd;
    rewrite !put_cons.
  - apply bool_decide_eq_true_1 in Hd, Hd'. congruence.
  - rewrite Hd'. unfold by_key. by rewrite bool_decide_eq_false_2 by congruence.
  - rewrite Hd. unfold by_key. by rewrite bool_decide_eq_false_2 by congruence.
  - by rewrite Hd, Hd', IH.
Qed.

Lemma put_same k c x : row k c = Some x → put k x c = c.
Proof.
  induction c as [|d c IH]; simpl; [done|].
  rewrite put_cons. destruct (by_key key k d).
  - by intros [= ->].
  - intros Hx. by rewrite IH.
Qed.

Lemma row_app k c c' :
  row k (c ++ c') = match row k c with Some x => Some x | None => row k c' end.
Proof.
  induction c as [|d c IH]; simpl; [by destruct (row k c')|].
  by destruct (by_key key k d).
Qed.

Lemma put_app k r c c' :
  is_Some (row k c) → put k r (c ++ c') = put k r c ++ c'.
Proof.
  induction c as [|d c IH]; simpl.
  - by intros [? ?].
  - rewrite !put_cons. destruct (by_key key k d); [done|].
    intros Hs. by rewrite IH.
Qed.

(** An operation on another key leaves the first document of [k]. *)
Lemma row_kexec_ne o k c :
  wf_op o → okey o ≠ k → row k (kexec o c) = row k c.
Proof.
  intros [Hk Hins] Hne. destruct (row (okey o) c) as [x|] eqn:Hx.
  - rewrite (kexec_present _ _ _ Hx).
    assert (key x = okey o) as Hkx.
    { clear -Hx. induction c as [|d c IH]; simpl in *; [done|].
      unfold by_key in Hx at 1. case_bool_decide; [by simplify_eq|by apply IH]. }
    rewrite row_put by auto. by rewrite decide_False by congruence.
  - rewrite (kexec_absent _ _ Hx). destruct (oins o) as [v|] eqn:Hv; [|done].
    rewrite row_app. destruct (row k c); [done|]. simpl.
    destruct (Hins v eq_refl) as [Hkv _]. unfold by_key.
    by rewrite bool_decide_eq_false_2 by congruence.
Qed.

Lemma row_key k c x : row k c = Some x → key x = k.
Proof.
  induction c as [|d c IH]; simpl; [done|].
  unfold by_key at 1. case_bool_decide; [by intros [= <-]|done].
Qed.

Lemma row_kexec_eq o c x :
  wf_op o → row (okey o) c = Some x →
  row (okey o) (kexec o c) = Some (oupd o x).
Proof.
  intros [Hk _] Hx. rewrite (kexec_present _ _ _ Hx).
  rewrite row_put by eauto using row_key. rewrite decide_True by done.
  by rewrite Hx.
Qed.

(** Overwriting a document first, then running the operations, is
    running them and overwriting with what they make of it. *)
Lemma kbulk_put ops k r c :
  Forall wf_op ops → key r = k → is_Some (row k c) →
  kbulk ops (put k r c) = put k (along k ops r) (kbulk ops c).
Proof.
  intros Hwf. revert r c. induction Hwf as [|o ops Ho Hwf IH];
    intros r c Hr [x Hx]; simpl.
  - done.
  - destruct (decide (k = okey o)) as [->|Hne'].
    + destruct Ho as [Hk Hins].
      assert (row (okey o) (put (okey o) r c) = Some r) as Hr'.
      { rewrite row_put by done. rewrite decide_True by done. by rewrite Hx. }
      rewrite (kexec_present _ _ _ Hr'). rewrite put_put by exact Hr.
      rewrite (kexec_present _ _ _ Hx).
      rewrite IH by eauto. rewrite (IH (oupd o x)) by eauto using row_key.
      rewrite decide_True by done. rewrite put_put; [done|].
      clear -Hwf Hk Hx.
      assert (key (oupd o x) = okey o) as Hy by eauto using row_key.
      revert Hy. generalize (oupd o x). clear Hx.
      induction Hwf as [|o' ops Ho' Hwf IH]; intros y Hy; simpl; [done|].
      apply IH. case_decide as Hd; [|done]. destruct Ho' as [Hk' _].
      rewrite <- Hd. apply Hk'. congruence.
    + assert (okey o ≠ k) as Hne by congruence.
      destruct (row (okey o) c) as [y|] eqn:Hy.
      all: rewrite decide_False by done.
      * assert (row (okey o) (put k r c) = Some y) as Hy'.
        { rewrite row_put by done. by rewrite decide_False. }
        rewrite (kexec_present _ _ _ Hy'), (kexec_present _ _ _ Hy).
        destruct Ho as [Hk Hins].
        rewrite put_comm by eauto using row_key.
        apply IH; [done|]. rewrite row_put by eauto using row_key.
        rewrite decide_False by congruence. eauto.
      * assert (row (okey o) (put k r c) = None) as Hy'.
        { rewrite row_put by done. by rewrite decide_False. }
        rewrite (kexec_absent _ _ Hy'), (kexec_absent _ _ Hy).
        destruct (oins o) as [v|] eqn:Hv.
        -- rewrite <- put_app by eauto. apply IH; [done|].
           rewrite row_app, Hx. eauto.
        -- apply IH; eauto.
Qed.

Lemma row_kbulk ops k c x :
  Forall wf_op ops → row k c = Some x →
  row k (kbulk ops c) = Some (along k ops x).
Proof.
  intros Hwf. revert c x. induction Hwf as [|o ops Ho Hwf IH];
    intros c x Hx; simpl; [done|].
  destruct (decide (okey o = k)) as [<-|Hne].
  - apply IH. by apply row_kexec_eq.
  - apply IH. by rewrite row_kexec_ne.
Qed.

(** Replaying a list of operations on its own result changes nothing. *)
Lemma kbulk_replay ops c :
  Forall wf_op ops → replayable key ops →
  kbulk ops (kbulk ops c) = kbulk ops c.
Proof.
  intros Hwf. revert c. induction Hwf as [|o ops Ho Hwf IH];
    intros c Hre; simpl; [done|].
  destruct Hre as (Ha & Hb & Hre). specialize (λ c', IH c' Hre).
  set (s1 := kexec o c). set (t := kbulk ops s1).
  destruct (row (okey o) s1) as [x1|] eqn:Hx1.
  - assert (along (okey o) ops (oupd o (along (okey o) ops x1))
            = along (okey o) ops x1) as Hfix.
    { subst s1. destruct (row (okey o) c) as [x|] eqn:Hx.
      - rewrite (row_kexec_eq _ _ _ Ho Hx) in Hx1. simplify_eq. apply Ha.
      - rewrite (kexec_absent _ _ Hx) in Hx1. destruct Ho as [_ Hins].
        destruct (oins o) as [v|] eqn:Hv; [|congruence].
        rewrite row_app, Hx in Hx1. simpl in Hx1.
        destruct (by_key key (okey o) v); [|done]. simplify_eq.
        destruct (Hins x1 eq_refl) as [_ Hfx]. specialize (Ha x1).
        by rewrite Hfx in Ha. }
    assert (row (okey o) t = Some (along (okey o) ops x1)) as Ht
      by by apply row_kbulk.
    rewrite (kexec_present _ _ _ Ht).
    rewrite kbulk_put; eauto.
    + replace (kbulk ops t) with t by (symmetry; apply IH).
      rewrite Hfix. by apply put_same.
    + destruct Ho as [Hk _]. apply Hk. eauto using row_key.
  - assert (row (okey o) c = None ∧ oins o = None) as [Hc Hins].
    { subst s1. destruct (row (okey o) c) as [x|] eqn:Hx.
      - by rewrite (row_kexec_eq _ _ _ Ho Hx) in Hx1.
      - split; [done|]. rewrite (kexec_absent _ _ Hx) in Hx1.
        destruct (oins o) as [v|] eqn:Hv; [|done].
        rewrite row_app, Hx in Hx1. simpl in Hx1. destruct Ho as [_ Ho].
        destruct (Ho v Hv) as [Hkv _]. unfold by_key in Hx1.
        by rewrite bool_decide_eq_true_2 in Hx1. }
    destruct (row (okey o) t) as [y|] eqn:Hy.
    + rewrite (kexec_present _ _ _ Hy).
      rewrite kbulk_put; eauto.
      * replace (kbulk ops t) with t by (symmetry; apply IH).
        rewrite (Hb Hins s1 y Hx1 Hy). by apply put_same.
      * destruct Ho as [Hk _]. apply Hk. eauto using row_key.
    + rewrite (kexec_absent _ _ Hy), Hins. apply IH.
Qed.
End KeyedFacts.


(** * Replaying a batch *)

Section Replay.
Import Batch.

Lemma updateOne_ext {D} (p q : D → bool) f ups c :
  (∀ d, p d = q d) → updateOne p f ups c = updateOne q f ups c.
Proof.
  intros Hpq. unfold updateOne.
  assert (update_first p f c = update_first q f c) as ->; [|done].
  induction c as [|d c IH]; simpl; [done|]. by rewrite Hpq, IH.
Qed.

Lemma mine_filter_key a l m : mine_filter a l m = by_key mine_key (a, l) m.
Proof.
  unfold mine_filter, by_key, mine_key.
  repeat case_bool_decide; simplify_eq; try done; simpl in *; congruence.
Qed.

Lemma exec_mine_kexec op c : exec_mine op c = kexec mine_key (mine_kop op) c.
Proof.
  destruct op; simpl; unfold kexec; simpl;
    apply updateOne_ext; intros; apply mine_filter_key.
Qed.

Lemma bulkWrite_mines ops c :
  bulkWrite exec_mine ops c = kbulk mine_key (map mine_kop ops) c.
Proof.
  revert c. induction ops as [|op ops IH]; intros c; simpl; [done|].
  unfold bulkWrite in *. simpl. by rewrite IH, exec_mine_kexec.
Qed.

Lemma mine_kop_wf ops : Forall (wf_op mine_key) (map mine_kop ops).
Proof.
  apply Forall_forall. intros o [op [-> _]]%list_elem_of_fmap.
  destruct op; split; simpl; intros; simplify_eq; done.
Qed.

(** Along a list of mine operations a document is kept or replaced by a
    fixed one. *)
Lemma mine_along_cases ops k :
  (∀ x, kalong k (map mine_kop ops) x = x) ∨
  (∃ d, ∀ x, kalong k (map mine_kop ops) x = d).
Proof.
  induction ops as [|op ops IH] using rev_ind; [by left|].
  unfold kalong in *. rewrite map_app. simpl.
  setoid_rewrite foldl_app. simpl.
  destruct op as [a l ty ts|a l ty ts]; simpl; case_decide; eauto.
Qed.

Lemma mine_replayable ops : replayable mine_key (map mine_kop ops).
Proof.
  induction ops as [|op ops IH]; simpl; [done|]. split_and!; [| |done].
  - destruct op as [a l ty ts|a l ty ts]; simpl; [|done]. intros x.
    destruct (mine_along_cases ops (a, l)) as [Hid|[d Hd]].
    + by rewrite !Hid.
    + by rewrite !Hd.
  - destruct op; simpl; done.
Qed.

Lemma bulkMines_replay ops c :
  bulkWrite exec_mine ops (bulkWrite exec_mine ops c) = bulkWrite exec_mine ops c.
Proof.
  rewrite !bulkWrite_mines.
  apply kbulk_replay; [apply mine_kop_wf|apply mine_replayable].
Qed.
End Replay.

Section ReplayBots.
Import Batch.

Lemma update_first_map {D} (e : D → D) p f f' (c : list D) :
  (∀ d, p (e d) = p d) → (∀ d, e (f d) = f' (e d)) →
  update_first p f' (map e c) = map e <$> update_first p f c.
Proof.
  intros Hp Hf. induction c as [|d c IH]; simpl; [done|].
  rewrite Hp. destruct (p d); simpl; [by rewrite Hf|].
  rewrite IH. by destruct (update_first p f c).
Qed.

Lemma updateOne_map {D} (e : D → D) p f f' ups (c : list D) :
  (∀ d, p (e d) = p d) → (∀ d, e (f d) = f' (e d)) →
  updateOne p f' (e <$> ups) (map e c) = map e (updateOne p f ups c).
Proof.
  intros Hp Hf. unfold updateOne. rewrite (update_first_map e p f f') by done.
  destruct (update_first p f c); simpl; [done|].
  destruct ups; simpl; [|done]. by rewrite map_app.
Qed.

Lemma exec_bot_kexec op c :
  map no_score (exec_bot op c) = kexec bot_address (bot_kop op) (map no_score c).
Proof.
  destruct op as [a n|a|a pl tile]; simpl; unfold kexec; simpl.
  - by rewrite <- (updateOne_map no_score (bot_filter a) (add_score n) (λ b, b) None).
  - by rewrite <- (updateOne_map no_score (bot_filter a) (set_status dead)
                                (set_status dead) None).
  - by rewrite <- (updateOne_map no_score (bot_filter a)
                     (set_spawned a pl tile) (set_spawned a pl tile)
                     (Some (mkBot a pl alive 0 tile))).
Qed.

Lemma bulkWrite_bots ops c :
  map no_score (bulkWrite exec_bot ops c)
  = kbulk bot_address (map bot_kop ops) (map no_score c).
Proof.
  revert c. induction ops as [|op ops IH]; intros c; simpl; [done|].
  unfold bulkWrite in *. simpl. by rewrite IH, exec_bot_kexec.
Qed.

Lemma bot_kop_wf ops : Forall (wf_op bot_address) (map bot_kop ops).
Proof.
  apply Forall_forall. intros o [op [-> _]]%list_elem_of_fmap.
  destruct op as [a n|a|a pl tile]; split; simpl; intros; simplify_eq;
    try done.
  - by destruct (bot_address d).
  - split; [done|]. by destruct a, pl, tile.
Qed.

Lemma bot_kop_patch op x : oupd (bot_kop op) x = patch (bot_patch op) x.
Proof. by destruct op, x. Qed.

Lemma patch_patch q p x : patch q (patch p x) = patch (patch_after q p) x.
Proof.
  destruct q as [[qa|] [qp|] [qs|] [qn|] [qt|]], p as [pa pp ps pn pt], x;
    reflexivity.
Qed.

Lemma patch_idemp p x : patch p (patch p x) = patch p x.
Proof.
  destruct p as [[a|] [pl|] [st|] [n|] [t|]], x; reflexivity.
Qed.

(** Along a list of bot operations a document is patched: each field is
    kept or set to a value that does not depend on the document. *)
Lemma bot_along_patch ops k :
  ∃ p, ∀ x, kalong k (map bot_kop ops) x = patch p x.
Proof.
  induction ops as [|op ops IH] using rev_ind.
  - exists (mkPatch None None None None None). by intros [].
  - destruct IH as [p Hp]. unfold kalong in *. rewrite map_app. simpl.
    setoid_rewrite foldl_app. simpl. case_decide.
    + exists (patch_after (bot_patch op) p). intros x.
      by rewrite Hp, bot_kop_patch, patch_patch.
    + by exists p.
Qed.

(** A document that the operations themselves insert: the patch of the
    operations sets its status and its score and leaves it as it is. *)
Lemma bot_along_inserted ops k c y :
  findOne (by_key bot_address k) c = None →
  findOne (by_key bot_address k) (kbulk bot_address (map bot_kop ops) c) = Some y →
  ∃ p, (∀ r, kalong k (map bot_kop ops) r = patch p r) ∧
       patch p y = y ∧ is_Some (p_status p) ∧ is_Some (p_score p).
Proof.
  revert c. induction ops as [|op ops IH]; intros c Hc Hy; simpl in *.
  - congruence.
  - pose proof (bot_kop_wf (op :: ops)) as Hwf. simpl in Hwf.
    apply Forall_cons in Hwf as [Ho Hwf].
    destruct (decide (okey (bot_kop op) = k)) as [<-|Hne].
    + rewrite (kexec_absent _ _ _ Hc) in Hy.
      destruct op as [a n|a|a pl tile]; simpl in *.
      * destruct (IH c Hc Hy) as (p & Hp & Hpy & Hs & Hn).
        exists p. split_and!; done.
      * destruct (IH c Hc Hy) as (p & Hp & Hpy & Hs & Hn).
        exists p. split_and!; [|done|done|done].
        intros r. rewrite !Hp. destruct Hs as [st Hst].
        destruct p, r. simpl in *. by rewrite Hst.
      * erewrite row_kbulk in Hy; [| done |].
        2:{ rewrite row_app, Hc. simpl. unfold by_key. simpl.
            by rewrite bool_decide_eq_true_2. }
        destruct (bot_along_patch ops a) as [p Hp].
        exists (patch_after p (mkPatch a pl (Some alive) (Some 0) tile)).
        split_and!.
        -- intros r. rewrite Hp.
           change (set_spawned a pl tile r)
             with (oupd (bot_kop (SetSpawned a pl tile)) r).
           by rewrite bot_kop_patch, patch_patch.
        -- simplify_eq. rewrite Hp.
           destruct p as [[pa|] [pp|] [ps|] [pn|] [pt|]], a, pl, tile;
             reflexivity.
        -- by destruct p as [? ? [?|] ? ?]; simpl; eexists.
        -- by destruct p as [? ? ? [?|] ?]; simpl; eexists.
    + destruct (IH (kexec bot_address (bot_kop op) c)) as (p & Hp & Hrest);
        [by rewrite row_kexec_ne|done|].
      by exists p.
Qed.

Lemma bot_replayable ops : replayable bot_address (map bot_kop ops).
Proof.
  induction ops as [|op ops IH]; simpl; [done|]. split_and!; [| |done].
  - intros x. destruct (bot_along_patch ops (okey (bot_kop op))) as [p Hp].
    rewrite !Hp, !bot_kop_patch, !(patch_patch p (bot_patch op)).
    apply patch_idemp.
  - intros Hins c y Hc Hy.
    destruct (bot_along_inserted ops _ c y Hc Hy)
      as (p & Hp & Hpy & [st Hst] & _).
    rewrite Hp. rewrite <- Hpy at 2.
    destruct op as [a n|a|a pl tile]; simpl in *; [done| |done].
    destruct p, y. simpl in *. by rewrite Hst.
Qed.

Lemma bulkBots_replay ops c :
  map no_score (bulkWrite exec_bot ops (bulkWrite exec_bot ops c))
  = map no_score (bulkWrite exec_bot ops c).
Proof.
  rewrite bulkWrite_bots, bulkWrite_bots.
  apply kbulk_replay; [apply bot_kop_wf|apply bot_replayable].
Qed.
End ReplayBots.

(** * The batch mutator *)

Section BatchMutator.
Import Batch BatchScan.

Lemma transactions_fetchAndStoreEvents blockNumber r s :
  transactions (fetchAndStoreEvents blockNumber r s).1
  = transactions s ++ bulkTransactions (scanned blockNumber r) blockNumber.
Proof.
  unfold fetchAndStoreEvents, scanned.
  destruct (collect blockNumber r []) as [[|e events]|]; simpl;
    by rewrite ?app_nil_r.
Qed.

Lemma transactions_for_blocks n block rpc s :
  length (transactions (for_blocks n block rpc s).1)
  = (length (transactions s) + length (scanned_in n block rpc))%nat.
Proof.
  revert block s. induction n as [|n IH]; intros block s; simpl; [lia|].
  pose proof (transactions_fetchAndStoreEvents block (rpc block) s) as H1.
  destruct (fetchAndStoreEvents block (rpc block) s) as [s1 l1]; simpl in H1.
  specialize (IH (block + 1) s1).
  destruct (for_blocks n (block + 1) rpc s1) as [s2 l2]; simpl in *.
  rewrite IH, H1, !length_app. unfold bulkTransactions.
  rewrite length_map. lia.
Qed.

(** C2.  The batch mutator appends one Transaction document for every
    event it is given, in order, whether the key of the event is in
    [EVENT_MAP] or not (the name of an unmapped one is "TransferEvent");
    so over any number of turns of the block loop the number of
    Transaction documents grows by the number of events scanned. *)
Theorem audit_record_per_event :
  (∀ events blockNumber s,
     transactions (processEventsBatch events blockNumber s)
     = transactions s ++ map (transaction_of blockNumber) events
     ∧ length (transactions (processEventsBatch events blockNumber s))
       = (length (transactions s) + length events)%nat) ∧
  (∀ blockNumber ev, EVENT_MAP (ev_key ev) = None →
     transaction_of blockNumber ev
     = mkTransaction blockNumber "TransferEvent" (ev_key ev) (ev_data ev)
                     (ev_timestamp ev)) ∧
  (∀ n block rpc s,
     length (transactions (for_blocks n block rpc s).1)
     = (length (transactions s) + length (scanned_in n block rpc))%nat).
Proof.
  split_and!.
  - intros events blockNumber s. simpl. split; [done|].
    unfold bulkTransactions. by rewrite length_app, length_map.
  - intros blockNumber ev Hnone. unfold transaction_of, eventName.
    by rewrite Hnone.
  - apply transactions_for_blocks.
Qed.

(** An event whose key is in no table, and its Transaction document. *)
Lemma audit_record_per_event_witness :
  let ev := mkEvent 431 (Some "0x99"%string) ["0x1"]%string "t1" in
  transaction_of 431 ev
  = mkTransaction 431 "TransferEvent" (Some "0x99"%string) ["0x1"]%string "t1".
Proof.
  intros ev.
  apply (proj1 (proj2 audit_record_per_event) 431 ev). reflexivity.
Defined.

End BatchMutator.

(** * A diamond found on a mined tile *)


Section DiamondFound.
Import Batch.

Lemma keys_distinct :
  TILE_MINED ≠ DIAMOND_FOUND ∧ TILE_MINED ≠ BOMB_FOUND ∧
  TILE_MINED ≠ SPAWNED_BOT ∧ DIAMOND_FOUND ≠ BOMB_FOUND ∧
  DIAMOND_FOUND ≠ SPAWNED_BOT ∧ BOMB_FOUND ≠ SPAWNED_BOT.
Proof. split_and!; by vm_compute. Qed.

Lemma ops_of_diamond ev :
  ev_key ev = Some DIAMOND_FOUND →
  bot_ops_of ev = [IncScore (ev_data ev !! 0%nat) 5000] ∧
  mine_ops_of ev = [ForceSet (ev_data ev !! 0%nat) (ev_data ev !! 2%nat)
                             Diamond (ev_timestamp ev)].
Proof.
  intros Hk. unfold bot_ops_of, mine_ops_of. rewrite Hk.
  destruct keys_distinct as (H1 & _).
  rewrite (decide_False (P := DIAMOND_FOUND = TILE_MINED)) by congruence.
  by rewrite (decide_True (P := DIAMOND_FOUND = DIAMOND_FOUND)).
Qed.

Lemma ops_of_tile ev :
  ev_key ev = Some TILE_MINED →
  bot_ops_of ev = [IncScore (ev_data ev !! 0%nat) 10] ∧
  mine_ops_of ev = [SetOnInsert (ev_data ev !! 0%nat) (ev_data ev !! 2%nat)
                                Empty (ev_timestamp ev)].
Proof.
  intros Hk. unfold bot_ops_of, mine_ops_of. rewrite Hk.
  by rewrite (decide_True (P := TILE_MINED = TILE_MINED)).
Qed.

Lemma mine_filter_own a l ty ts : mine_filter a l (mkMine a l ty ts) = true.
Proof. unfold mine_filter. simpl. by rewrite !bool_decide_eq_true_2. Qed.

Lemma bot_filter_add_score a n b :
  bot_filter a (add_score n b) = bot_filter a b.
Proof. done. Qed.

(** The batch mutator overwrites.  In a store where the pair (a, l) has one
    LocationClaim, of kind [Empty], and the agent [a] exists, it leaves the
    pair, after a DiamondFound event with [data[0] = a] and [data[2] = l],
    with a single LocationClaim, of kind [Diamond], adds no document to
    the collection, and adds exactly 5000 to the score of the agent. *)
Lemma diamond_overwrites_empty (s : Store) (ev : Event) (blockNumber : Z)
    (a l : option string) (m : Mine) (b : Bot) :
  ev_key ev = Some DIAMOND_FOUND →
  ev_data ev !! 0%nat = a → ev_data ev !! 2%nat = l →
  findOne (mine_filter a l) (mines s) = Some m → mine_type m = Empty →
  countDocuments (mine_filter a l) (mines s) = 1%nat →
  findOne (bot_filter a) (bots s) = Some b →
  let s' := processEventsBatch [ev] blockNumber s in
  countDocuments (mine_filter a l) (mines s') = 1%nat ∧
  findOne (mine_filter a l) (mines s')
    = Some (mkMine a l Diamond (ev_timestamp ev)) ∧
  length (mines s') = length (mines s) ∧
  (score <$> findOne (bot_filter a) (bots s')) = Some (score b + 5000).
Proof.
  intros Hk Ha Hl Hm Hty Hcount Hb s'. subst s'.
  destruct (ops_of_diamond ev Hk) as [Hbo Hmo].
  unfold processEventsBatch, bulkBots, bulkMines. simpl.
  rewrite Hbo, Hmo, Ha, Hl. simpl. unfold bulkWrite. simpl. split_and!.
  - rewrite (countDocuments_updateOne _ _ _ _ m); auto using mine_filter_own.
  - rewrite (findOne_updateOne _ _ _ _ m); auto using mine_filter_own.
  - by rewrite (length_updateOne_present _ _ _ _ m).
  - rewrite (findOne_updateOne _ _ _ _ b); [done|done|].
    rewrite bot_filter_add_score. by eapply findOne_true.
Qed.

(** The scenario: one agent, one empty claim, and the event. *)
Lemma diamond_overwrites_empty_scenario :
  let s := mkStore None
             [mkBot (Some "0xa"%string) None alive 10 None]
             [mkMine (Some "0xa"%string) (Some "0x7"%string) Empty "t0"] [] in
  let ev := mkEvent 431 (Some DIAMOND_FOUND) ["0xa"; "0x0"; "0x7"]%string "t1" in
  let s' := processEventsBatch [ev] 431 s in
  countDocuments (mine_filter (Some "0xa"%string) (Some "0x7"%string)) (mines s')
    = 1%nat ∧
  findOne (mine_filter (Some "0xa"%string) (Some "0x7"%string)) (mines s')
    = Some (mkMine (Some "0xa"%string) (Some "0x7"%string) Diamond "t1") ∧
  length (mines s') = 1%nat ∧
  (score <$> findOne (bot_filter (Some "0xa"%string)) (bots s')) = Some 5010.
Proof.
  intros s ev.
  apply (diamond_overwrites_empty s ev 431 (Some "0xa"%string)
           (Some "0x7"%string)
           (mkMine (Some "0xa"%string) (Some "0x7"%string) Empty "t0")
           (mkBot (Some "0xa"%string) None alive 10 None));
    reflexivity.
Defined.

(** The older processor inserts instead of overwriting: after a
    DiamondFound the pair has one document more than before. *)
Lemma processEvent_diamond_adds_a_document ev s :
  ev_key ev = Some DIAMOND_FOUND →
  let a := ev_data ev !! 0%nat in
  let l := ev_data ev !! 2%nat in
  mines (PerEvent.processEvent ev s)
    = mines s ++ [mkMine a l Diamond (ev_timestamp ev)] ∧
  countDocuments (mine_filter a l) (mines (PerEvent.processEvent ev s))
    = S (countDocuments (mine_filter a l) (mines s)).
Proof.
  intros Hk a l. unfold PerEvent.processEvent. rewrite Hk.
  change (EVENT_MAP (Some DIAMOND_FOUND)) with (Some "DiamondFound"%string).
  cbn [default]. destruct keys_distinct as (H1 & _).
  rewrite (decide_False (P := DIAMOND_FOUND = TILE_MINED)) by congruence.
  rewrite (decide_True (P := DIAMOND_FOUND = DIAMOND_FOUND)) by done.
  cbn [mines]. split; [done|].
  rewrite countDocuments_create. subst a l.
  rewrite mine_filter_own. lia.
Qed.

(** C3 on the per-event processor.  In the store of the scenario, with one
    [Empty] LocationClaim for the pair, [processEvent] on the DiamondFound
    event leaves two LocationClaim documents for the pair, the [Empty] one
    first and unchanged; the score of the agent has its 5000. *)
Theorem processEvent_diamond_duplicates_claim :
  let a := Some "0xa"%string in
  let l := Some "0x7"%string in
  let s := mkStore None [mkBot a None alive 10 None] [mkMine a l Empty "t0"] [] in
  let ev := mkEvent 431 (Some DIAMOND_FOUND) ["0xa"; "0x0"; "0x7"]%string "t1" in
  let s' := PerEvent.processEvent ev s in
  mines s' = [mkMine a l Empty "t0"; mkMine a l Diamond "t1"] ∧
  countDocuments (mine_filter a l) (mines s') = 2%nat ∧
  (mine_type <$> findOne (mine_filter a l) (mines s')) = Some Empty ∧
  (score <$> findOne (bot_filter a) (bots s')) = Some 5010.
Proof. split_and!; reflexivity. Qed.

End DiamondFound.

(** * Replaying the events of a block *)

Section ReplayBlock.
Import Batch.

Lemma countDocuments_none {D} (p : D → bool) c :
  findOne p c = None → countDocuments p c = 0%nat.
Proof.
  unfold countDocuments. induction c as [|d c IH]; simpl; [done|].
  by destruct (p d).
Qed.

Lemma updateOne_keep {D} (p : D → bool) ups c x :
  findOne p c = Some x → updateOne p (λ d, d) ups c = c.
Proof.
  intros Hx. unfold updateOne. induction c as [|d c IH]; simpl in *; [done|].
  destruct (p d); [done|]. specialize (IH Hx).
  destruct (update_first p (λ d, d) c) eqn:E; [by rewrite IH|].
  apply update_first_find in E. congruence.
Qed.

Lemma findOne_app_r {D} (p : D → bool) c d :
  findOne p c = None → p d = true → findOne p (c ++ [d]) = Some d.
Proof.
  intros Hn Hd. induction c as [|d' c IH]; simpl in *; [by rewrite Hd|].
  destruct (p d'); [done|]. by apply IH.
Qed.

(** The scenario of the replay on the older processor: the second TileMined
    finds the document of the first and does nothing. *)
Lemma processEvent_tile_twice ev s a l b :
  ev_key ev = Some TILE_MINED →
  ev_data ev !! 0%nat = a → ev_data ev !! 2%nat = l →
  findOne (mine_filter a l) (mines s) = None →
  findOne (bot_filter a) (bots s) = Some b →
  let s' := PerEvent.processEvents [ev; ev] s in
  mines s' = mines s ++ [mkMine a l Empty (ev_timestamp ev)] ∧
  countDocuments (mine_filter a l) (mines s') = 1%nat ∧
  (score <$> findOne (bot_filter a) (bots s')) = Some (score b + 10).
Proof.
  intros Hk Ha Hl Hm Hb. unfold PerEvent.processEvents. simpl.
  set (s1 := PerEvent.processEvent ev s).
  assert (mines s1 = mines s ++ [mkMine a l Empty (ev_timestamp ev)] ∧
          bots s1 = updateOne (bot_filter a) (add_score 10) None (bots s))
    as [Hm1 Hb1].
  { subst s1. unfold PerEvent.processEvent. rewrite Hk.
    change (EVENT_MAP (Some TILE_MINED)) with (Some "TileMined"%string).
    cbn [default].
    rewrite (decide_True (P := TILE_MINED = TILE_MINED)) by done.
    rewrite Ha, Hl, Hm. done. }
  assert (findOne (mine_filter a l) (mines s1)
          = Some (mkMine a l Empty (ev_timestamp ev))) as Hfound.
  { rewrite Hm1. apply findOne_app_r; [done|apply mine_filter_own]. }
  assert (mines (PerEvent.processEvent ev s1) = mines s1 ∧
          bots (PerEvent.processEvent ev s1) = bots s1) as [Hm2 Hb2].
  { unfold PerEvent.processEvent. rewrite Hk.
    change (EVENT_MAP (Some TILE_MINED)) with (Some "TileMined"%string).
    cbn [default].
    rewrite (decide_True (P := TILE_MINED = TILE_MINED)) by done.
    rewrite Ha, Hl, Hfound. done. }
  rewrite Hm2, Hb2, Hm1, Hb1. split_and!; [done| |].
  - change (mines s ++ [?d]) with (create d (mines s)).
    rewrite countDocuments_create, mine_filter_own.
    by rewrite countDocuments_none.
  - rewrite (findOne_updateOne _ _ _ _ b); [done|done|].
    rewrite bot_filter_add_score. by eapply findOne_true.
Qed.

Lemma processEventsBatch_tile_twice ev blockNumber s a l :
  ev_key ev = Some TILE_MINED →
  ev_data ev !! 0%nat = a → ev_data ev !! 2%nat = l →
  findOne (mine_filter a l) (mines s) = None →
  mines (processEventsBatch [ev; ev] blockNumber s)
  = mines s ++ [mkMine a l Empty (ev_timestamp ev)].
Proof.
  intros Hk Ha Hl Hm. destruct (ops_of_tile ev Hk) as [_ Hmo].
  unfold processEventsBatch, bulkMines. simpl. rewrite Hmo, Ha, Hl. simpl.
  unfold bulkWrite. simpl.
  rewrite (updateOne_absent (mine_filter a l) _ _ (mines s)) by done.
  eapply updateOne_keep. apply findOne_app_r; [done|apply mine_filter_own].
Qed.

(** C1, as the code has it.  Applying the batch mutator a second time to
    the same events leaves the LocationClaim collection as the first
    application made it, and the Agent collection too apart from the
    scores; two identical consecutive TileMined events for a pair without
    a claim leave exactly one LocationClaim for the pair, and on the
    per-event processor they add exactly 10 to the score of the agent. *)
Theorem replay_keeps_claims :
  (∀ events blockNumber s,
     let once := processEventsBatch events blockNumber s in
     let twice := processEventsBatch events blockNumber once in
     mines twice = mines once ∧
     map no_score (bots twice) = map no_score (bots once)) ∧
  (∀ ev blockNumber s a l,
     ev_key ev = Some TILE_MINED →
     ev_data ev !! 0%nat = a → ev_data ev !! 2%nat = l →
     findOne (mine_filter a l) (mines s) = None →
     countDocuments (mine_filter a l)
                    (mines (processEventsBatch [ev; ev] blockNumber s)) = 1%nat) ∧
  (∀ ev s a l b,
     ev_key ev = Some TILE_MINED →
     ev_data ev !! 0%nat = a → ev_data ev !! 2%nat = l →
     findOne (mine_filter a l) (mines s) = None →
     findOne (bot_filter a) (bots s) = Some b →
     let s' := PerEvent.processEvents [ev; ev] s in
     countDocuments (mine_filter a l) (mines s') = 1%nat ∧
     (score <$> findOne (bot_filter a) (bots s')) = Some (score b + 10)).
Proof.
  split_and!.
  - intros events blockNumber s. simpl. split.
    + apply bulkMines_replay.
    + apply bulkBots_replay.
  - intros ev blockNumber s a l Hk Ha Hl Hm.
    rewrite (processEventsBatch_tile_twice ev blockNumber s a l) by done.
    change (mines s ++ [?d]) with (create d (mines s)).
    rewrite countDocuments_create, mine_filter_own.
    by rewrite countDocuments_none.
  - intros ev s a l b Hk Ha Hl Hm Hb.
    destruct (processEvent_tile_twice ev s a l b) as (_ & ? & ?); done.
Qed.

Lemma replay_keeps_claims_witness :
  let s := mkStore None [mkBot (Some "0xb"%string) None alive 0 None] [] [] in
  let ev := mkEvent 431 (Some TILE_MINED) ["0xb"; "0x0"; "0x3"]%string "t1" in
  let s' := PerEvent.processEvents [ev; ev] s in
  countDocuments (mine_filter (Some "0xb"%string) (Some "0x3"%string))
                 (mines (processEventsBatch [ev; ev] 431 s)) = 1%nat ∧
  countDocuments (mine_filter (Some "0xb"%string) (Some "0x3"%string)) (mines s')
    = 1%nat ∧
  (score <$> findOne (bot_filter (Some "0xb"%string)) (bots s')) = Some 10.
Proof.
  intros s ev. split.
  - apply (proj1 (proj2 replay_keeps_claims) ev 431 s); reflexivity.
  - apply (proj2 (proj2 replay_keeps_claims) ev s (Some "0xb"%string)
             (Some "0x3"%string) (mkBot (Some "0xb"%string) None alive 0 None));
      reflexivity.
Defined.

(** C1 as stated fails on the batch mutator: a replayed DiamondFound adds
    its 5000 again, and two identical TileMined events add 20. *)
Lemma replay_changes_scores :
  let s := mkStore None [mkBot (Some "0xb"%string) None alive 0 None] [] [] in
  let diamond :=
    mkEvent 431 (Some DIAMOND_FOUND) ["0xb"; "0x0"; "0x3"]%string "t1" in
  let tile := mkEvent 431 (Some TILE_MINED) ["0xb"; "0x0"; "0x3"]%string "t1" in
  bots (processEventsBatch [diamond] 431 (processEventsBatch [diamond] 431 s))
    ≠ bots (processEventsBatch [diamond] 431 s) ∧
  (score <$> findOne (bot_filter (Some "0xb"%string))
                     (bots (processEventsBatch [tile; tile] 431 s)))
    = Some 20 ∧
  (score <$> findOne (bot_filter (Some "0xb"%string))
                     (bots (processEventsBatch [tile; tile] 431 s)))
    ≠ Some (0 + 10).
Proof. split_and!; by vm_compute. Qed.

End ReplayBlock.

(** * The checkpointed scanner *)

Section Scanner.
Import Batch BatchScan.

Lemma increasing_in_lower lo lo' hi l :
  lo' ≤ lo → increasing_in lo hi l → increasing_in lo' hi l.
Proof. destruct l; simpl; [done|]. intros ? [? ?]. split; [lia|done]. Qed.

Lemma increasing_in_app lo mid hi l1 l2 :
  lo ≤ mid ≤ hi → increasing_in lo mid l1 → increasing_in mid hi l2 →
  increasing_in lo hi (l1 ++ l2).
Proof.
  revert lo. induction l1 as [|x l1 IH]; intros lo Hb H1 H2; simpl in *.
  - apply (increasing_in_lower mid); [lia|done].
  - destruct H1 as [Hx H1]. split; [lia|]. apply IH; [lia|done|done].
Qed.

Lemma increasing_in_above lo hi l :
  increasing_in lo hi l → Forall (λ x, lo < x ≤ hi) l.
Proof.
  revert lo. induction l as [|x l IH]; intros lo; simpl; [constructor|].
  intros [Hx Hl]. constructor; [done|].
  eapply Forall_impl; [apply (IH x Hl)|]. simpl. lia.
Qed.

Lemma nondecreasing_last lo l :
  nondecreasing_from lo l → lo ≤ default lo (last l).
Proof.
  revert lo. induction l as [|x l IH]; intros lo; simpl; [lia|].
  intros [Hx Hl]. specialize (IH x Hl). rewrite last_cons.
  destruct (last l); simpl in *; lia.
Qed.

(** The two ways [fetchAndStoreEvents] ends. *)
Lemma fetchAndStoreEvents_cases blockNumber r s :
  (collect blockNumber r [] = None ∧
   fetchAndStoreEvents blockNumber r s = (s, [Scanned blockNumber false])) ∨
  (∃ events, collect blockNumber r [] = Some events ∧
     fetchAndStoreEvents blockNumber r s
     = (updateCheckpoint blockNumber
          (if events is [] then s
           else processEventsBatch events blockNumber s),
        block_trace blockNumber events)).
Proof.
  unfold fetchAndStoreEvents.
  destruct (collect blockNumber r []) as [events|]; [right|left; done].
  exists events. split; [done|]. by destruct events.
Qed.

Lemma checkpoints_of_writes events b : checkpoints_of (writes events b) = [].
Proof.
  unfold writes, checkpoints_of. rewrite !omap_app.
  by destruct (bulkBots events), (bulkMines events),
              (bulkTransactions events b).
Qed.

Lemma scans_of_writes events b : scans_of (writes events b) = [].
Proof.
  unfold writes, scans_of. rewrite !omap_app.
  by destruct (bulkBots events), (bulkMines events),
              (bulkTransactions events b).
Qed.

Lemma checkpoints_of_block_trace b events :
  checkpoints_of (block_trace b events) = [b].
Proof.
  unfold block_trace, checkpoints_of. simpl. rewrite omap_app.
  destruct events; simpl; [done|].
  by rewrite (checkpoints_of_writes (_ :: _) b).
Qed.

Lemma scans_of_block_trace b events : scans_of (block_trace b events) = [b].
Proof.
  unfold block_trace, scans_of. simpl. rewrite omap_app.
  destruct events; simpl; [done|].
  by rewrite (scans_of_writes (_ :: _) b).
Qed.

Lemma scans_of_fetchAndStoreEvents b r s :
  scans_of (fetchAndStoreEvents b r s).2 = [b].
Proof.
  destruct (fetchAndStoreEvents_cases b r s) as [[_ ->]|(evs & _ & ->)];
    simpl; [done|apply scans_of_block_trace].
Qed.

Lemma checkpoint_fetchAndStoreEvents b r s :
  let '(s', log) := fetchAndStoreEvents b r s in
  (checkpoints_of log = [] ∨ checkpoints_of log = [b]) ∧
  checkpoint s' = from_option Some (checkpoint s) (last (checkpoints_of log)).
Proof.
  destruct (fetchAndStoreEvents_cases b r s) as [[_ ->]|(evs & _ & ->)].
  - simpl. auto.
  - rewrite checkpoints_of_block_trace. simpl. auto.
Qed.

Lemma for_blocks_scans n b rpc s :
  scans_of (for_blocks n b rpc s).2 = seqZ b (Z.of_nat n).
Proof.
  revert b s. induction n as [|n IH]; intros b s; [done|]. simpl for_blocks.
  pose proof (scans_of_fetchAndStoreEvents b (rpc b) s) as H1.
  destruct (fetchAndStoreEvents b (rpc b) s) as [s1 l1].
  specialize (IH (b + 1) s1).
  destruct (for_blocks n (b + 1) rpc s1) as [s2 l2]. simpl in *.
  unfold scans_of in *. rewrite omap_app, H1, IH.
  rewrite (seqZ_cons b) by lia. simpl. f_equal. f_equal; lia.
Qed.

Lemma for_blocks_checkpoints n b rpc s :
  let '(s', log) := for_blocks n b rpc s in
  increasing_in (b - 1) (b - 1 + Z.of_nat n) (checkpoints_of log) ∧
  checkpoint s' = from_option Some (checkpoint s) (last (checkpoints_of log)).
Proof.
  revert b s. induction n as [|n IH]; intros b s; [done|]. simpl for_blocks.
  pose proof (checkpoint_fetchAndStoreEvents b (rpc b) s) as H1.
  destruct (fetchAndStoreEvents b (rpc b) s) as [s1 l1].
  specialize (IH (b + 1) s1).
  destruct (for_blocks n (b + 1) rpc s1) as [s2 l2].
  destruct H1 as [Hc1 Hs1], IH as [Hinc Hs2].
  unfold checkpoints_of in *. rewrite omap_app, last_app.
  replace (b + 1 - 1) with b in Hinc by lia.
  replace (b + Z.of_nat n) with (b - 1 + Z.of_nat (S n)) in Hinc by lia.
  split.
  - destruct Hc1 as [->| ->]; simpl.
    + apply (increasing_in_lower b); [lia|done].
    + split; [lia|done].
  - rewrite Hs2, Hs1. by destruct (last (omap _ l2)).
Qed.

Lemma pass_checkpoints startBlock r s :
  startBlock ≤ latest r →
  let '(s', log) := pass startBlock r s in
  increasing_in startBlock (latest r) (checkpoints_of log) ∧
  checkpoint s' = from_option Some (checkpoint s) (last (checkpoints_of log)).
Proof.
  intros Hle. unfold pass.
  pose proof (for_blocks_checkpoints (Z.to_nat (latest r - startBlock))
                (startBlock + 1) (getEvents r) s) as H.
  destruct (for_blocks _ _ _ s) as [s' log].
  replace (startBlock + 1 - 1) with startBlock in H by lia.
  replace (startBlock + Z.of_nat (Z.to_nat (latest r - startBlock)))
    with (latest r) in H by lia.
  done.
Qed.

Lemma pass_scans startBlock r s :
  scans_of (pass startBlock r s).2
  = seqZ (startBlock + 1) (latest r - startBlock).
Proof.
  unfold pass. rewrite for_blocks_scans.
  unfold seqZ. by rewrite Nat2Z.id.
Qed.

Lemma pass_scans_increasing startBlock r s :
  startBlock ≤ latest r →
  increasing_in startBlock (latest r) (scans_of (pass startBlock r s).2).
Proof.
  intros Hle. rewrite pass_scans.
  remember (Z.to_nat (latest r - startBlock)) as n eqn:Hn.
  replace (latest r - startBlock) with (Z.of_nat n) by lia.
  replace (latest r) with (startBlock + Z.of_nat n) by lia.
  clear Hn Hle. revert startBlock.
  induction n as [|n IH]; intros startBlock; [done|].
  rewrite seqZ_cons by lia. simpl. split; [lia|].
  replace (Z.pred (Z.of_nat (S n))) with (Z.of_nat n) by lia.
  replace (startBlock + Z.of_nat (S n)) with (startBlock + 1 + Z.of_nat n)
    by lia.
  replace (Z.succ (startBlock + 1)) with (startBlock + 1 + 1) by lia.
  apply IH.
Qed.

Lemma fetchLiveBlocks_checkpoints rounds startBlock s :
  nondecreasing_from startBlock (map latest rounds) →
  let '(_, s', log) := fetchLiveBlocks rounds startBlock s in
  increasing_in startBlock (default startBlock (last (map latest rounds)))
                (checkpoints_of log) ∧
  increasing_in startBlock (default startBlock (last (map latest rounds)))
                (scans_of log) ∧
  checkpoint s' = from_option Some (checkpoint s) (last (checkpoints_of log)).
Proof.
  revert startBlock s.
  induction rounds as [|r rounds IH]; intros startBlock s; [done|].
  simpl. intros [Hle Hnd].
  pose proof (pass_checkpoints startBlock r s Hle) as H1.
  pose proof (pass_scans_increasing startBlock r s Hle) as H1s.
  destruct (pass startBlock r s) as [s1 l1].
  specialize (IH (latest r) s1 Hnd).
  destruct (fetchLiveBlocks rounds (latest r) s1) as [[b s2] l2].
  destruct H1 as [Hinc1 Hs1], IH as (Hinc2 & Hscan2 & Hs2).
  simpl in H1s.
  pose proof (nondecreasing_last _ _ Hnd) as Hlast.
  rewrite last_cons.
  assert (default startBlock
            match last (map latest rounds) with
            | Some y => Some y
            | None => Some (latest r)
            end = default (latest r) (last (map latest rounds))) as ->
    by by destruct (last (map latest rounds)).
  unfold checkpoints_of, scans_of in *. rewrite !omap_app, last_app.
  split_and!.
  - eapply increasing_in_app; [|done|done]. lia.
  - eapply increasing_in_app; [|done|done]. lia.
  - rewrite Hs2, Hs1. by destruct (last (omap _ l2)).
Qed.


Lemma block_segments_app P l1 l2 :
  block_segments P l1 → block_segments P l2 → block_segments P (l1 ++ l2).
Proof.
  induction 1 as [|b l H IH|b events l HP H IH]; intros H2; simpl.
  - done.
  - constructor. by apply IH.
  - rewrite <- app_assoc. constructor; [done|]. by apply IH.
Qed.

Lemma block_segments_impl (P Q : Z → list Event → Prop) l :
  (∀ b events, P b events → Q b events) →
  block_segments P l → block_segments Q l.
Proof. intros HPQ. induction 1; constructor; auto. Qed.

Lemma fetchLiveBlocks_segments rounds startBlock s :
  block_segments
    (λ b events, ∃ r, r ∈ rounds ∧ collect b (getEvents r b) [] = Some events)
    (fetchLiveBlocks rounds startBlock s).2.
Proof.
  revert startBlock s.
  induction rounds as [|r rounds IH]; intros startBlock s; [constructor|].
  simpl.
  assert (∀ n b s0, block_segments
            (λ b events, collect b (getEvents r b) [] = Some events)
            (for_blocks n b (getEvents r) s0).2) as Hfor.
  { induction n as [|n IHn]; intros b s0; [constructor|]. simpl.
    specialize (IHn (b + 1)).
    destruct (fetchAndStoreEvents_cases b (getEvents r b) s0)
      as [[_ ->]|(evs & Hevs & ->)].
    - specialize (IHn s0). destruct (for_blocks n (b + 1) _ s0). simpl in *.
      by constructor.
    - match goal with |- context [for_blocks n (b + 1) ?f ?st] =>
        specialize (IHn st); destruct (for_blocks n (b + 1) f st) end.
      simpl in *. by constructor. }
  unfold pass.
  specialize (Hfor (Z.to_nat (latest r - startBlock)) (startBlock + 1) s).
  destruct (for_blocks _ _ _ s) as [s1 l1].
  specialize (IH (latest r) s1).
  destruct (fetchLiveBlocks rounds (latest r) s1) as [[b s2] l2]. simpl in *.
  apply block_segments_app.
  - eapply block_segments_impl; [|done]. simpl. intros b0 evs Hc.
    exists r. split; [by left|done].
  - eapply block_segments_impl; [|done]. simpl. intros b0 evs (r' & Hr' & Hc).
    exists r'. split; [by right|done].
Qed.

Lemma writes_no_checkpoint events b c : CheckpointSet c ∉ writes events b.
Proof.
  intros Hc. assert (c ∈ checkpoints_of (writes events b)) as Hin.
  { apply list_elem_of_omap. by exists (CheckpointSet c). }
  rewrite checkpoints_of_writes in Hin. by apply elem_of_nil in Hin.
Qed.

Lemma split_at_first_checkpoint (l1 l pre post : list Action) b0 b :
  (∀ c, CheckpointSet c ∉ l1) →
  l1 ++ CheckpointSet b0 :: l = pre ++ CheckpointSet b :: post →
  (pre = l1 ∧ b = b0 ∧ post = l) ∨
  (∃ pre1, pre = l1 ++ CheckpointSet b0 :: pre1 ∧
           l = pre1 ++ CheckpointSet b :: post).
Proof.
  revert pre. induction l1 as [|a l1 IH]; intros pre Hno Heq; simpl in *.
  - destruct pre as [|a' pre]; simpl in *; simplify_eq; eauto.
  - destruct pre as [|a' pre]; simpl in *; simplify_eq.
    + exfalso. apply (Hno b). by left.
    + destruct (IH pre) as [(-> & -> & ->)|(pre1 & -> & ->)]; eauto.
      intros c Hc. apply (Hno c). by right.
Qed.

Lemma checkpoint_after_writes P log pre b post :
  block_segments P log → log = pre ++ CheckpointSet b :: post →
  ∃ pre' events, P b events ∧
    pre = pre' ++ Scanned b true ::
            (if events is [] then [] else writes events b).
Proof.
  intros Hseg. revert pre.
  induction Hseg as [|b0 l H IH|b0 events l HP H IH]; intros pre Heq.
  - by destruct pre.
  - destruct pre as [|a pre]; simpl in *; simplify_eq.
    destruct (IH pre eq_refl) as (pre' & evs & HPe & ->).
    by exists (Scanned b0 false :: pre'), evs.
  - unfold block_trace in Heq. simpl in Heq.
    rewrite <- app_assoc in Heq. simpl in Heq.
    change (Scanned b0 true :: ?w ++ ?r) with ((Scanned b0 true :: w) ++ r)
      in Heq.
    apply split_at_first_checkpoint in Heq
      as [(-> & -> & ->)|(pre1 & -> & Hl)].
    + by exists [], events.
    + destruct (IH pre1 Hl) as (pre' & evs & HPe & ->).
      exists (block_trace b0 events ++ pre'), evs. split; [done|].
      unfold block_trace. simpl. by rewrite <- !app_assoc.
    + intros c [Hc|Hc]%elem_of_cons; [done|].
      destruct events; [by apply elem_of_nil in Hc|].
      by apply writes_no_checkpoint in Hc.
Qed.

(** C4, as the code has it.  Over a run of the scanner in which the head
    of the ledger does not regress and is not behind the starting
    checkpoint, the values written to the checkpoint are strictly
    increasing from the starting block, and the checkpoint of the store at
    the end is the last value written; and in every run each write of the
    checkpoint for a block comes right after the scan of that block and
    the bulk writes of its events. *)
Theorem checkpoint_monotone_after_apply :
  (∀ rounds s,
     nondecreasing_from (getLastProcessedBlock s) (map latest rounds) →
     let '(_, s', log) := main rounds s in
     increasing_in (getLastProcessedBlock s)
                   (default (getLastProcessedBlock s) (last (map latest rounds)))
                   (checkpoints_of log) ∧
     checkpoint s' = from_option Some (checkpoint s) (last (checkpoints_of log)) ∧
     getLastProcessedBlock s ≤ getLastProcessedBlock s') ∧
  (∀ rounds s pre b post,
     (main rounds s).2 = pre ++ CheckpointSet b :: post →
     ∃ pre' events r,
       r ∈ rounds ∧ collect b (getEvents r b) [] = Some events ∧
       pre = pre' ++ Scanned b true ::
               (if events is [] then [] else writes events b)).
Proof.
  split.
  - intros rounds s Hnd. unfold main.
    pose proof (fetchLiveBlocks_checkpoints rounds _ s Hnd) as H.
    destruct (fetchLiveBlocks rounds (getLastProcessedBlock s) s)
      as [[b s'] log].
    destruct H as (Hinc & _ & Hs'). split_and!; [done|done|].
    apply increasing_in_above in Hinc. unfold getLastProcessedBlock at 2.
    rewrite Hs'. destruct (last (checkpoints_of log)) as [c|] eqn:Hl; [|done].
    simpl. apply last_Some_elem_of in Hl.
    rewrite Forall_forall in Hinc. specialize (Hinc c Hl). simpl in Hinc. lia.
  - intros rounds s pre b post Heq.
    pose proof (fetchLiveBlocks_segments rounds (getLastProcessedBlock s) s)
      as Hseg.
    destruct (checkpoint_after_writes _ _ _ _ _ Hseg Heq)
      as (pre' & evs & (r & Hr & Hc) & ->).
    by exists pre', evs, r.
Qed.


(** A run on which the statement applies: two passes, the head going from
    431 to 432, one TileMined event in block 431. *)
Lemma checkpoint_monotone_after_apply_witness :
  let s := mkStore (Some 430) [] [] [] in
  let page := [mkRpcEvent [TILE_MINED] ["0xb"; "0x0"; "0x3"]%string "t1"] in
  let rounds := [mkRound 431 (λ _, RpcPage page None RpcError);
                 mkRound 432 (λ _, RpcPage [] None RpcError)] in
  nondecreasing_from (getLastProcessedBlock s) (map latest rounds) ∧
  let '(_, s', log) := main rounds s in
  increasing_in (getLastProcessedBlock s)
                (default (getLastProcessedBlock s) (last (map latest rounds)))
                (checkpoints_of log) ∧
  checkpoint s' = from_option Some (checkpoint s) (last (checkpoints_of log)) ∧
  getLastProcessedBlock s ≤ getLastProcessedBlock s'.
Proof.
  intros s page rounds. split.
  - subst s rounds. unfold getLastProcessedBlock. simpl. lia.
  - apply (proj1 checkpoint_monotone_after_apply rounds s).
    subst s rounds. unfold getLastProcessedBlock. simpl. lia.
Defined.

(** C4 as stated fails: without that assumption on the head the checkpoint
    goes back.  The store is checkpointed at 430 and the ledger answers with
    the heads 428 and then 429: the first pass scans nothing and moves
    [startBlock] to 428, the second scans block 429 and writes 429 over
    430. *)
Lemma checkpoint_goes_back :
  let s := mkStore (Some 430) [] [] [] in
  let rounds := [mkRound 428 (λ _, RpcPage [] None RpcError);
                 mkRound 429 (λ _, RpcPage [] None RpcError)] in
  main rounds s
  = (429, mkStore (Some 429) [] [] [], [Scanned 429 true; CheckpointSet 429]) ∧
  getLastProcessedBlock (main rounds s).1.2 < getLastProcessedBlock s.
Proof. split; [reflexivity|]. vm_compute. reflexivity. Qed.

Lemma scans_of_applied b (es : list Event) :
  scans_of (map (λ e, Applied b (ev_key e)) es) = [].
Proof. induction es as [|e es IH]; [done|]. simpl. apply IH. Qed.

Lemma scans_of_PerEvent_fetchAndStoreEvents b r s :
  scans_of (PerEvent.fetchAndStoreEvents b r s).2 = [b].
Proof.
  unfold PerEvent.fetchAndStoreEvents.
  assert (∀ s0, scans_of (PerEvent.scan b r s0).1.2 = []) as Hscan.
  { induction r as [|evs tok next IH]; intros s0; simpl; [done|].
    destruct (truthy tok); simpl.
    - specialize (IH (PerEvent.processEvents (map (to_event b) evs) s0)).
      destruct (PerEvent.scan b next _) as [[s2 l2] ok]. simpl in *.
      unfold scans_of in *. by rewrite omap_app, IH, scans_of_applied.
    - apply scans_of_applied. }
  specialize (Hscan s). destruct (PerEvent.scan b r s) as [[s1 l] ok].
  simpl in *. unfold scans_of in *.
  destruct ok; simpl; by rewrite omap_app, Hscan.
Qed.

Lemma PerEvent_for_blocks_scans n b rpc s :
  scans_of (PerEvent.for_blocks n b rpc s).2 = seqZ b (Z.of_nat n).
Proof.
  revert b s. induction n as [|n IH]; intros b s; [done|].
  simpl PerEvent.for_blocks.
  pose proof (scans_of_PerEvent_fetchAndStoreEvents b (rpc b) s) as H1.
  destruct (PerEvent.fetchAndStoreEvents b (rpc b) s) as [s1 l1].
  specialize (IH (b + 1) s1).
  destruct (PerEvent.for_blocks n (b + 1) rpc s1) as [s2 l2]. simpl in *.
  unfold scans_of in *. rewrite omap_app, H1, IH.
  rewrite (seqZ_cons b) by lia. simpl. f_equal. f_equal; lia.
Qed.

Lemma processEvents_app es1 es2 s :
  PerEvent.processEvents (es1 ++ es2) s
  = PerEvent.processEvents es2 (PerEvent.processEvents es1 s).
Proof. unfold PerEvent.processEvents. by rewrite foldl_app. Qed.

Lemma checkpoint_processEvents es s :
  checkpoint (PerEvent.processEvents es s) = checkpoint s.
Proof.
  revert s. unfold PerEvent.processEvents.
  induction es as [|ev es IH]; intros s; simpl; [done|].
  rewrite IH. unfold PerEvent.processEvent.
  destruct (EVENT_MAP (ev_key ev)); [|done].
  by repeat case_decide; try destruct (findOne _ (mines s)).
Qed.

Lemma collect_acc blockNumber r acc :
  collect blockNumber r acc
  = match collect blockNumber r [] with
    | Some events => Some (acc ++ events)
    | None => None
    end.
Proof.
  revert acc. induction r as [|evs tok next IH]; intros acc; simpl; [done|].
  destruct (truthy tok); [|done].
  rewrite (IH (acc ++ _)), (IH (map _ evs)).
  destruct (collect blockNumber next []); [|done]. by rewrite app_assoc.
Qed.

Lemma collect_consumed blockNumber r :
  collect blockNumber r []
  = if (consumed blockNumber r).2 then Some (consumed blockNumber r).1 else None.
Proof.
  induction r as [|evs tok next IH]; simpl; [done|].
  destruct (truthy tok); [|done]. rewrite collect_acc, IH.
  by destruct (consumed blockNumber next) as [rest []].
Qed.

Lemma scan_consumed blockNumber r s :
  PerEvent.scan blockNumber r s
  = (PerEvent.processEvents (consumed blockNumber r).1 s,
     map (λ e, Applied blockNumber (ev_key e)) (consumed blockNumber r).1,
     (consumed blockNumber r).2).
Proof.
  revert s. induction r as [|evs tok next IH]; intros s; simpl; [done|].
  destruct (truthy tok); [|done]. rewrite IH.
  destruct (consumed blockNumber next) as [rest ok]. simpl.
  by rewrite processEvents_app, map_app.
Qed.

(** C5, as the code has it.  A block whose scan fails is logged and left:
    the checkpoint stays as it was, no checkpoint is written, and the loop
    goes on with the next block.  On the batch scanner the store is as it
    was; on the per-event scanner the events of the pages read before the
    call that throws stay applied.  A pass scans the blocks after
    [startBlock] up to the head once each, in order, whatever the outcomes
    (in both scanners); and while the head does not regress no block is
    scanned a second time in a run. *)
Theorem failed_block_is_skipped :
  (∀ blockNumber r s,
     collect blockNumber r [] = None →
     fetchAndStoreEvents blockNumber r s = (s, [Scanned blockNumber false])) ∧
  (∀ blockNumber r s,
     collect blockNumber r [] = None →
     let '(s', log) := PerEvent.fetchAndStoreEvents blockNumber r s in
     s' = PerEvent.processEvents (consumed blockNumber r).1 s ∧
     checkpoint s' = checkpoint s ∧
     checkpoints_of log = [] ∧
     last log = Some (Scanned blockNumber false)) ∧
  (∀ startBlock r s,
     scans_of (pass startBlock r s).2
     = seqZ (startBlock + 1) (latest r - startBlock)) ∧
  (∀ r s,
     scans_of (PerEvent.ingestHistoricData r s).2
     = seqZ (getLastProcessedBlock s + 1) (latest r - getLastProcessedBlock s)) ∧
  (∀ rounds s,
     nondecreasing_from (getLastProcessedBlock s) (map latest rounds) →
     increasing_in (getLastProcessedBlock s)
                   (default (getLastProcessedBlock s) (last (map latest rounds)))
                   (scans_of (main rounds s).2)).
Proof.
  split_and!.
  - intros blockNumber r s Hnone. unfold fetchAndStoreEvents. by rewrite Hnone.
  - intros blockNumber r s Hnone. rewrite collect_consumed in Hnone.
    unfold PerEvent.fetchAndStoreEvents. rewrite scan_consumed.
    destruct (consumed blockNumber r) as [events [|]]; [done|]. simpl.
    split_and!; [done|apply checkpoint_processEvents| |by rewrite last_snoc].
    unfold checkpoints_of. rewrite omap_app. simpl. rewrite app_nil_r.
    clear. by induction events.
  - apply pass_scans.
  - intros r s. unfold PerEvent.ingestHistoricData.
    rewrite PerEvent_for_blocks_scans. unfold seqZ. by rewrite Nat2Z.id.
  - intros rounds s Hnd. unfold main.
    pose proof (fetchLiveBlocks_checkpoints rounds _ s Hnd) as H.
    destruct (fetchLiveBlocks rounds (getLastProcessedBlock s) s)
      as [[b s'] log].
    by destruct H as (_ & Hscans & _).
Qed.

(** A block whose second page fails: the batch scanner leaves the store,
    the per-event scanner keeps the mine of the first page, and the run of
    one pass goes on to block 432. *)
Lemma failed_block_is_skipped_witness :
  let s := mkStore (Some 430) [] [] [] in
  let page := [mkRpcEvent [TILE_MINED] ["0xb"; "0x0"; "0x3"]%string "t1"] in
  let failing := RpcPage page (Some "1-0"%string) RpcError in
  let rounds :=
    [mkRound 432 (λ b, if decide (b = 431) then failing
                       else RpcPage [] None RpcError)] in
  fetchAndStoreEvents 431 failing s = (s, [Scanned 431 false]) ∧
  (let '(s', log) := PerEvent.fetchAndStoreEvents 431 failing s in
   s' = PerEvent.processEvents (consumed 431 failing).1 s ∧
   checkpoint s' = checkpoint s ∧
   checkpoints_of log = [] ∧
   last log = Some (Scanned 431 false)) ∧
  length (mines (PerEvent.fetchAndStoreEvents 431 failing s).1) = 1%nat ∧
  increasing_in 430 432 (scans_of (main rounds s).2).
Proof.
  intros s page failing rounds. split_and!.
  - apply (proj1 failed_block_is_skipped 431 failing s). reflexivity.
  - apply (proj1 (proj2 failed_block_is_skipped) 431 failing s). reflexivity.
  - reflexivity.
  - apply (proj2 (proj2 (proj2 (proj2 failed_block_is_skipped))) rounds s).
    subst s rounds. unfold getLastProcessedBlock. simpl. lia.
Defined.

(** C5 as stated fails: the scan of block 431 throws, the loop goes on to
    block 432 without scanning 431 again, and the checkpoint passes it. *)
Lemma failed_block_not_retried :
  let s := mkStore (Some 430) [] [] [] in
  let rounds :=
    [mkRound 432 (λ b, if decide (b = 431) then RpcError
                       else RpcPage [] None RpcError);
     mkRound 432 (λ _, RpcPage [] None RpcError)] in
  main rounds s
  = (432, mkStore (Some 432) [] [] [],
     [Scanned 431 false; Scanned 432 true; CheckpointSet 432]).
Proof. reflexivity. Qed.

End Scanner.

(** * The live queue and the client backlogs *)

Section LiveQueue.
Import Manager.

Lemma length_slice0 {A} (e : Z) (l : list A) :
  0 ≤ e → Z.of_nat (length (slice0 e l)) ≤ e.
Proof.
  intros He. unfold slice0. rewrite decide_False by lia.
  rewrite length_take. lia.
Qed.

Lemma slice0_take {A} (e : Z) (l : list A) :
  0 ≤ e → slice0 e l = take (Z.to_nat e) l.
Proof. intros He. unfold slice0. by rewrite decide_False by lia. Qed.

Lemma length_slice_last {A} (n : nat) (l : list A) :
  length (slice_last n l) = Nat.min n (length l).
Proof. unfold slice_last. rewrite length_drop. lia. Qed.

Lemma slice_last_app {A} (n : nat) (l l' : list A) :
  slice_last n (slice_last n l ++ l') = slice_last n (l ++ l').
Proof.
  unfold slice_last. rewrite !length_app, length_drop.
  destruct (decide (length l ≤ n)%nat) as [Hle|Hgt].
  - replace (length l - n)%nat with 0%nat by lia. simpl.
    f_equal. lia.
  - rewrite <- (drop_app_le l l' (length l - n)) by lia.
    rewrite drop_drop. f_equal. lia.
Qed.

Lemma slice_last_all {A} (n : nat) (l : list A) :
  (length l ≤ n)%nat → slice_last n l = l.
Proof.
  intros Hle. unfold slice_last.
  by replace (length l - n)%nat with 0%nat by lia.
Qed.

Lemma slice_last_suffix {A} (n : nat) (l : list A) :
  ∃ evicted, l = evicted ++ slice_last n l ∧
             length evicted = (length l - n)%nat.
Proof.
  exists (take (length l - n) l). unfold slice_last.
  rewrite take_drop, length_take. split; [done|lia].
Qed.


Lemma mirror_backlog batch c :
  queueBacklog (mirror batch c) = slice_last 1000 (queueBacklog c ++ batch).
Proof.
  unfold mirror. simpl. case_decide; [done|].
  rewrite slice_last_all; [done|lia].
Qed.

Lemma mirrors_backlog batches c :
  (length (queueBacklog c) ≤ 1000)%nat →
  queueBacklog (foldl (λ c b, mirror b c) c batches)
  = slice_last 1000 (queueBacklog c ++ concat batches).
Proof.
  revert c. induction batches as [|b batches IH]; intros c Hc; simpl.
  - rewrite app_nil_r. by rewrite slice_last_all.
  - rewrite IH.
    + rewrite mirror_backlog, slice_last_app. by rewrite app_assoc.
    + rewrite mirror_backlog, length_slice_last. lia.
Qed.

Lemma invariant_fetch_begin m : invariant m → invariant (fetch_begin m).1.
Proof.
  unfold fetch_begin. destruct (isFetching m); [done|].
  by case_decide.
Qed.

Lemma invariant_fetch_end resp now m :
  invariant m → invariant (fetch_end resp now m).
Proof.
  intros (Hmax & Hq & Hc). unfold fetch_end.
  destruct resp as [| |[|tx evs] tok]; try done.
  remember (tx :: evs) as txs eqn:Htxs. clear Htxs.
  split_and!; [done| |done].
  cbn [transactionQueue maxQueueSize set_fetching set_queue set_token].
  rewrite length_app, length_map.
  pose proof (length_slice0
                (Z.min (Z.of_nat (length txs))
                       (maxQueueSize m - Z.of_nat (length (transactionQueue m))))
                txs) as Hs.
  lia.
Qed.

Lemma invariant_sendBatchToClient ws now open send_ok m :
  invariant m → invariant (sendBatchToClient ws now open send_ok m).1.
Proof.
  intros (Hmax & Hq & Hc). unfold sendBatchToClient.
  destruct (connectedClients m !! ws) as [clientInfo|] eqn:Hws; [|done].
  destruct (Hc ws clientInfo Hws) as [Hbl Hbs].
  assert (∀ m', maxQueueSize m' = 5000 →
            Z.of_nat (length (transactionQueue m')) ≤ maxQueueSize m' →
            connectedClients m' = delete ws (connectedClients m) →
            invariant m') as Hdel.
  { intros m' ? ? Hm'. split_and!; [done|done|]. intros ws' c'. rewrite Hm'.
    rewrite lookup_delete_Some. intros [_ ?]. eauto. }
  destruct open; simpl; [|by apply Hdel].
  case_decide; [done|].
  destruct (queueBacklog clientInfo) as [|x bl] eqn:Hbacklog;
    [destruct (transactionQueue m) as [|y q] eqn:Hqueue|].
  - split_and!; simpl; [done|by rewrite Hqueue|].
    intros ws' c'. rewrite lookup_insert_Some.
    intros [[_ <-]|[_ ?]]; [|by eauto]. simpl. rewrite Hbacklog. done.
  - destruct send_ok; simpl.
    + split_and!; simpl; [done| |].
      * rewrite length_drop. simpl in *. lia.
      * intros ws' c'. rewrite lookup_insert_Some.
        intros [[_ <-]|[Hne Hl]]; simpl.
        { rewrite Hbacklog. done. }
        rewrite map_lookup_imap in Hl.
        destruct (connectedClients m !! ws') as [c0|] eqn:Hc0; [|done].
        simpl in Hl. rewrite decide_False in Hl by done. simplify_eq.
        destruct (Hc ws' c0 Hc0) as [? ?]. split; [|done].
        rewrite mirror_backlog, length_slice_last. lia.
    + apply Hdel; simpl; [done| |done].
      rewrite length_drop. simpl in *. lia.
  - destruct send_ok; simpl.
    + split_and!; simpl; [done|done|].
      intros ws' c'. rewrite lookup_insert_Some.
      intros [[_ <-]|[_ ?]]; [|by eauto]. simpl. split; [|done].
      rewrite length_drop. simpl in *. lia.
    + by apply Hdel.
Qed.

Lemma invariant_startStreaming ws clientId now open send_ok m :
  invariant m → invariant (startStreaming ws clientId now open send_ok m).1.1.
Proof.
  intros (Hmax & Hq & Hc). unfold startStreaming.
  set (m1 := set_clients _ m).
  assert (invariant m1) as H1.
  { split_and!; [done|done|]. intros ws' c'. simpl.
    rewrite lookup_insert_Some. intros [[_ <-]|[_ ?]]; simpl; eauto.
    split; [lia|done]. }
  assert (invariant (if decide (size (connectedClients m1) = 1%nat)
                     then startPolling m1 else (m1, None)).1) as H2.
  { case_decide; [|done]. unfold startPolling.
    pose proof (invariant_fetch_begin m1 H1) as Hb.
    destruct (fetch_begin m1) as [m1' req]. simpl in *.
    destruct Hb as (? & ? & ?). by split_and!. }
  destruct (if decide (size (connectedClients m1) = 1%nat)
            then startPolling m1 else (m1, None)) as [m2 req].
  pose proof (invariant_sendBatchToClient ws now open send_ok m2 H2) as H3.
  by destruct (sendBatchToClient ws now open send_ok m2).
Qed.

Lemma invariant_removeClient ws m : invariant m → invariant (removeClient ws m).
Proof.
  intros (Hmax & Hq & Hc). unfold removeClient.
  case_decide; (split_and!; simpl; [done|try done; lia|]);
    intros ws' c'; rewrite lookup_delete_Some; intros [_ ?]; eauto.
Qed.

Lemma reachable_invariant m : reachable m → invariant m.
Proof.
  induction 1 as [|m m' Hm IH Hstep].
  - split_and!; [done|simpl; lia|]. intros ws c Hl.
    simpl in Hl. by rewrite lookup_empty in Hl.
  - destruct Hstep.
    + by apply invariant_startStreaming.
    + by apply invariant_fetch_begin.
    + by apply invariant_fetch_end.
    + by apply invariant_sendBatchToClient.
    + by apply invariant_removeClient.
Qed.


(** C6.  In every state the server reaches, the shared queue holds at
    most [maxQueueSize] = 5000 items; and whenever the queue holds
    [maxQueueSize] items or more, a poll tick returns at once: no request
    is sent and nothing changes. *)
Theorem queue_within_capacity :
  (∀ m, reachable m →
        maxQueueSize m = 5000 ∧
        Z.of_nat (length (transactionQueue m)) ≤ maxQueueSize m) ∧
  (∀ m, maxQueueSize m ≤ Z.of_nat (length (transactionQueue m)) →
        fetch_begin m = (m, None)).
Proof.
  split.
  - intros m Hm. destruct (reachable_invariant m Hm) as (? & ? & _). done.
  - intros m Hfull. unfold fetch_begin. destruct (isFetching m); [done|].
    by rewrite decide_True.
Qed.

(** A state the server reaches: one client connects, the first fetch is
    answered with two events. *)
Lemma queue_within_capacity_witness :
  let m1 := (startStreaming 1 1 0 true true constructor).1.1 in
  let page := [mkPendingEvent [TILE_MINED] ["0xb"; "0x0"; "0x3"]%string;
               mkPendingEvent [] []] in
  let m2 := fetch_end (Events page (Some "0-2"%string)) 5 m1 in
  reachable m2 ∧
  maxQueueSize m2 = 5000 ∧
  Z.of_nat (length (transactionQueue m2)) ≤ maxQueueSize m2.
Proof.
  intros m1 page m2.
  assert (reachable m2) as Hm2.
  { apply (reach_step m1).
    - apply (reach_step constructor); [apply reach_init|].
      apply (step_connect constructor 1 1 0 true true).
    - apply (step_answer m1). reflexivity. }
  split; [exact Hm2|]. exact (proj1 queue_within_capacity m2 Hm2).
Defined.

(** C7.  Appending a batch to a backlog keeps the last 1000 items of the
    backlog followed by the batch: the length is at most 1000, the items
    kept are in order, and those evicted are the oldest.  The same holds
    after any sequence of appends, and every backlog of every state the
    server reaches holds at most 1000 items. *)
Theorem backlog_capped :
  (∀ batch c,
     queueBacklog (mirror batch c) = slice_last 1000 (queueBacklog c ++ batch) ∧
     (length (queueBacklog (mirror batch c)) ≤ 1000)%nat) ∧
  (∀ batches c,
     (length (queueBacklog c) ≤ 1000)%nat →
     let c' := foldl (λ c b, mirror b c) c batches in
     let all := queueBacklog c ++ concat batches in
     (length (queueBacklog c') = Nat.min 1000 (length all)) ∧
     ∃ evicted, all = evicted ++ queueBacklog c' ∧
                length evicted = (length all - 1000)%nat) ∧
  (∀ m ws c, reachable m → connectedClients m !! ws = Some c →
             (length (queueBacklog c) ≤ 1000)%nat).
Proof.
  split_and!.
  - intros batch c. rewrite mirror_backlog, length_slice_last. split; [done|lia].
  - intros batches c Hc. cbv zeta. rewrite mirrors_backlog by done.
    split; [apply length_slice_last|apply slice_last_suffix].
  - intros m ws c Hm Hl.
    destruct (reachable_invariant m Hm) as (_ & _ & Hc).
    by destruct (Hc ws c Hl).
Qed.


Lemma backlog_capped_witness :
  let item := mkItem "TileMined" [] 0 in
  let c := mkClient 1 10 0 100 [item] in
  let batches := [[item; item]; [item]] in
  let c' := foldl (λ c b, mirror b c) c batches in
  let all := queueBacklog c ++ concat batches in
  let m := (startStreaming 1 1 0 true true constructor).1.1 in
  (length (queueBacklog c') = Nat.min 1000 (length all) ∧
   ∃ evicted, all = evicted ++ queueBacklog c' ∧
              length evicted = (length all - 1000)%nat) ∧
  (length (queueBacklog (mkClient 1 10 100 100 [])) ≤ 1000)%nat.
Proof.
  intros item c batches c' all m. split.
  - apply (proj1 (proj2 backlog_capped) batches c). simpl. lia.
  - apply (proj2 (proj2 backlog_capped) m 1%nat (mkClient 1 10 100 100 [])).
    + apply (reach_step constructor); [apply reach_init|].
      apply (step_connect constructor 1 1 0 true true).
    + reflexivity.
Defined.





(** C10.  When a page of [n] events arrives and only [r < n] places are
    left under the capacity, the first [r] events of the page are
    enqueued and the other [n - r] are not; the queue is then full, and
    the continuation token is the one returned with the page, which the
    next request carries once the queue has room again. *)
Theorem overflow_is_dropped (m : TransactionManager)
    (transactions : list PendingEvent) (tok : option string) (now : Z) :
  let room := maxQueueSize m - Z.of_nat (length (transactionQueue m)) in
  0 ≤ room < Z.of_nat (length transactions) →
  let m' := fetch_end (Events transactions tok) now m in
  transactionQueue m'
  = transactionQueue m
    ++ map (format eventName now) (take (Z.to_nat room) transactions) ∧
  Z.of_nat (length (transactionQueue m')) = maxQueueSize m ∧
  Z.of_nat (length (drop (Z.to_nat room) transactions))
  = Z.of_nat (length transactions) - room ∧
  continuationToken m' = tok ∧
  (∀ q, Z.of_nat (length q) < maxQueueSize m →
        (fetch_begin (set_queue q m')).2 = Some (payload 200 tok)).
Proof.
  intros room Hroom m'. subst m'. unfold fetch_end.
  destruct transactions as [|tx txs] eqn:Htx; [simpl in Hroom; lia|].
  rewrite <- Htx in *. clear Htx tx txs.
  cbn [transactionQueue continuationToken set_fetching set_queue set_token].
  fold room. rewrite Z.min_r by lia. rewrite slice0_take by lia.
  split_and!.
  - done.
  - rewrite length_app, length_map, length_take. subst room. lia.
  - rewrite length_drop. lia.
  - done.
  - intros q Hq. unfold fetch_begin. simpl.
    rewrite decide_False; [done|lia].
Qed.

(** The queue holds 4999 items and a page of three events arrives: one
    is enqueued, two are left out, the token moves on. *)
Lemma overflow_is_dropped_witness :
  let item := mkItem "TransferEvent" [] 0 in
  let m := mkManager (replicate 4999 item) None true ∅ true 5000 in
  let page := [mkPendingEvent [TILE_MINED] ["0xb"; "0x0"; "0x3"]%string;
               mkPendingEvent [DIAMOND_FOUND] ["0xb"; "0x0"; "0x3"]%string;
               mkPendingEvent [] []] in
  let m' := fetch_end (Events page (Some "0-3"%string)) 7 m in
  transactionQueue m'
  = replicate 4999 item ++ [mkItem "TileMined" ["0xb"; "0x0"; "0x3"]%string 7] ∧
  continuationToken m' = Some "0-3"%string.
Proof.
  intros item m page m'.
  assert (0 ≤ maxQueueSize m - Z.of_nat (length (transactionQueue m))
          < Z.of_nat (length page)) as Hroom.
  { subst m page. cbn [maxQueueSize transactionQueue].
    rewrite length_replicate. simpl. lia. }
  destruct (overflow_is_dropped m page (Some "0-3"%string) 7 Hroom)
    as (Hq & _ & _ & Htok & _).
  split; [|exact Htok].
  etrans; [exact Hq|]. subst m page. cbn [maxQueueSize transactionQueue].
  rewrite length_replicate. reflexivity.
Defined.

(** C9 on the capped server.  A fetch that throws leaves the continuation
    token as it was, and the request that follows carries it. *)
Theorem token_kept_on_fetch_error :
  let m := mkManager [] (Some "0-200"%string) true ∅ true 5000 in
  let m' := fetch_end Throws 0 m in
  continuationToken m' = Some "0-200"%string ∧
  (fetch_begin m').2 = Some (mkRequest 200 (Some "0-200"%string)).
Proof. split; reflexivity. Qed.

Lemma fetch_end_error_keeps_token m now :
  continuationToken (fetch_end Throws now m) = continuationToken m ∧
  continuationToken (fetch_end InvalidFormat now m) = continuationToken m.
Proof. done. Qed.

Lemma second_server_keeps_token m now :
  SecondServer.continuationToken (SecondServer.fetch_end Throws now m)
  = SecondServer.continuationToken m.
Proof. done. Qed.

(** The first server does reset it, in its [catch]. *)
Lemma first_server_resets_token m now :
  let m' := FirstServer.fetch_end Throws now m in
  FirstServer.continuationToken m' = None ∧
  (FirstServer.fetch_begin m').2 = Some (mkRequest 1000 None).
Proof. done. Qed.

End LiveQueue.

(** * Further properties of the batch mutator *)

Section BatchFurther.
Import Batch BatchScan.

Lemma bulkWrite_app {D Op} (exec : Op → list D → list D) ops1 ops2 c :
  bulkWrite exec (ops1 ++ ops2) c = bulkWrite exec ops2 (bulkWrite exec ops1 c).
Proof. unfold bulkWrite. by rewrite foldl_app. Qed.

Lemma processEventsBatch_nil blockNumber s : processEventsBatch [] blockNumber s = s.
Proof. destruct s. unfold processEventsBatch. simpl. by rewrite app_nil_r. Qed.

Lemma processEventsBatch_app e1 e2 blockNumber s :
  processEventsBatch (e1 ++ e2) blockNumber s
  = processEventsBatch e2 blockNumber (processEventsBatch e1 blockNumber s).
Proof.
  unfold processEventsBatch, bulkBots, bulkMines, bulkTransactions. simpl.
  rewrite !map_app, !concat_app, !bulkWrite_app. by rewrite app_assoc.
Qed.

(** The bulk mutator gives the store that applying the events one batch
    after the other, or one event at a time, gives: splitting a block's
    events into batches does not change the outcome. *)
Theorem batch_is_sequential :
  (∀ e1 e2 blockNumber s,
     processEventsBatch (e1 ++ e2) blockNumber s
     = processEventsBatch e2 blockNumber (processEventsBatch e1 blockNumber s)) ∧
  (∀ events blockNumber s,
     processEventsBatch events blockNumber s
     = foldl (λ acc ev, processEventsBatch [ev] blockNumber acc) s events).
Proof.
  split; [apply processEventsBatch_app|].
  intros events blockNumber s. revert s.
  induction events as [|ev events IH]; intros s; simpl.
  - apply processEventsBatch_nil.
  - rewrite <- IH. apply (processEventsBatch_app [ev] events).
Qed.

Lemma keys_update_first {D K} (key : D → K) p f (c c' : list D) :
  (∀ d, p d = true → key (f d) = key d) →
  update_first p f c = Some c' → map key c' = map key c.
Proof.
  intros Hf. revert c'. induction c as [|d c IH]; intros c'; simpl; [done|].
  destruct (p d) eqn:Hd.
  - intros [= <-]. simpl. by rewrite Hf.
  - destruct (update_first p f c) as [c''|]; [|done].
    intros [= <-]. simpl. by rewrite (IH c'').
Qed.

Lemma keys_updateOne {D K} (key : D → K) p f ups (c : list D) :
  (∀ d, p d = true → key (f d) = key d) →
  map key (updateOne p f ups c)
  = map key c ++ (if findOne p c is Some _ then []
                  else if ups is Some v then [key v] else []).
Proof.
  intros Hf. unfold updateOne.
  destruct (update_first p f c) as [c'|] eqn:E.
  - rewrite (keys_update_first key p f c c' Hf E).
    destruct (findOne p c) eqn:Hfind; [by rewrite app_nil_r|].
    apply (update_first_find p f) in Hfind. congruence.
  - apply update_first_find in E. rewrite E.
    destruct ups; [by rewrite map_app|by rewrite app_nil_r].
Qed.

Lemma findOne_by_key_None {D K} `{EqDecision K} (key : D → K) k (c : list D) :
  findOne (by_key key k) c = None → k ∉ map key c.
Proof.
  induction c as [|d c IH]; simpl; [intros _; apply not_elem_of_nil|].
  unfold by_key at 1. case_bool_decide as Hd; [done|].
  intros Hn. apply not_elem_of_cons. split; [congruence|by apply IH].
Qed.

(** What one operation of [bulkBots] does to the list of addresses, and
    one of [bulkMines] to the list of pairs: nothing, or one new key at the
    end. *)
Lemma addresses_exec_bot op c :
  ∃ new, map bot_address (exec_bot op c) = map bot_address c ++ new ∧
         (new = [] ∨ ∃ a, new = [a] ∧ a ∉ map bot_address c).
Proof.
  destruct op as [a n|a|a pl tile]; simpl.
  - rewrite (keys_updateOne bot_address) by done.
    exists []. destruct (findOne _ c); auto.
  - rewrite (keys_updateOne bot_address) by done.
    exists []. destruct (findOne _ c); auto.
  - rewrite (keys_updateOne bot_address).
    + destruct (findOne (bot_filter a) c) eqn:Hf; [exists []; auto|].
      exists [a]. split; [done|]. right. exists a. split; [done|].
      by apply (findOne_by_key_None bot_address).
    + intros d Hd. apply bool_decide_eq_true_1 in Hd. simpl. rewrite Hd.
      by destruct a.
Qed.

Lemma pairs_exec_mine op c :
  ∃ new, map mine_key (exec_mine op c) = map mine_key c ++ new ∧
         (new = [] ∨ ∃ k, new = [k] ∧ k ∉ map mine_key c).
Proof.
  assert (∀ a l ty ts f,
            (∀ d, mine_filter a l d = true → mine_key (f d) = mine_key d) →
            ∃ new, map mine_key (updateOne (mine_filter a l) f
                                    (Some (mkMine a l ty ts)) c)
                   = map mine_key c ++ new ∧
                   (new = [] ∨ ∃ k, new = [k] ∧ k ∉ map mine_key c)) as H.
  { intros a l ty ts f Hf. rewrite (keys_updateOne mine_key) by done.
    destruct (findOne (mine_filter a l) c) eqn:Hfind; [exists []; auto|].
    exists [(a, l)]. split; [done|]. right. exists (a, l). split; [done|].
    apply (findOne_by_key_None mine_key). rewrite <- Hfind.
    clear. induction c as [|d c IH]; simpl; [done|].
    by rewrite mine_filter_key, IH. }
  destruct op as [a l ty ts|a l ty ts]; simpl; apply H; [done|].
  intros d Hd. rewrite mine_filter_key in Hd.
  apply bool_decide_eq_true_1 in Hd. by rewrite Hd.
Qed.

Lemma keys_bulkWrite {D Op K} (key : D → K) (exec : Op → list D → list D) :
  (∀ op c, ∃ new, map key (exec op c) = map key c ++ new ∧
                  (new = [] ∨ ∃ k, new = [k] ∧ k ∉ map key c)) →
  ∀ ops c, map key c `prefix_of` map key (bulkWrite exec ops c) ∧
           (NoDup (map key c) → NoDup (map key (bulkWrite exec ops c))).
Proof.
  intros Hexec ops. induction ops as [|op ops IH]; intros c.
  - split; [done|done].
  - change (bulkWrite exec (op :: ops) c)
      with (bulkWrite exec ops (exec op c)).
    destruct (IH (exec op c)) as [Hpre Hnd].
    destruct (Hexec op c) as (new & Hnew & Hcase). rewrite Hnew in Hpre, Hnd.
    split.
    + etrans; [|exact Hpre]. by apply prefix_app_r.
    + intros Hc. apply Hnd. destruct Hcase as [->|(k & -> & Hk)].
      * by rewrite app_nil_r.
      * apply NoDup_app. split_and!; [done| |apply NoDup_singleton].
        intros x Hx ->%list_elem_of_singleton. done.
Qed.

Lemma processEventsBatch_extends events blockNumber s :
  extends s (processEventsBatch events blockNumber s) ∧
  (unique_keys s → unique_keys (processEventsBatch events blockNumber s)).
Proof.
  destruct (keys_bulkWrite bot_address exec_bot addresses_exec_bot
              (bulkBots events) (bots s)) as [Hb1 Hb2].
  destruct (keys_bulkWrite mine_key exec_mine pairs_exec_mine
              (bulkMines events) (mines s)) as [Hm1 Hm2].
  split.
  - split_and!; [done|done|]. simpl. by apply prefix_app_r.
  - intros [? ?]. split; simpl; auto.
Qed.

Lemma extends_refl s : extends s s.
Proof. by split_and!. Qed.

Lemma extends_trans s1 s2 s3 : extends s1 s2 → extends s2 s3 → extends s1 s3.
Proof.
  intros (? & ? & ?) (? & ? & ?). split_and!; by etrans.
Qed.

Lemma fetchAndStoreEvents_extends blockNumber r s :
  extends s (fetchAndStoreEvents blockNumber r s).1 ∧
  (unique_keys s → unique_keys (fetchAndStoreEvents blockNumber r s).1).
Proof.
  destruct (fetchAndStoreEvents_cases blockNumber r s)
    as [[_ ->]|(evs & _ & ->)]; simpl.
  - split; [apply extends_refl|done].
  - destruct evs as [|ev evs]; [split; [by split_and!|done]|].
    destruct (processEventsBatch_extends (ev :: evs) blockNumber s)
      as [(? & ? & ?) Hu].
    split; [by split_and!|]. intros Hs. destruct (Hu Hs). by split.
Qed.

Lemma fetchLiveBlocks_extends rounds startBlock s :
  extends s (fetchLiveBlocks rounds startBlock s).1.2 ∧
  (unique_keys s → unique_keys (fetchLiveBlocks rounds startBlock s).1.2).
Proof.
  revert startBlock s.
  induction rounds as [|r rounds IH]; intros startBlock s; simpl.
  - split; [apply extends_refl|done].
  - assert (∀ n b s0, extends s0 (for_blocks n b (getEvents r) s0).1 ∧
              (unique_keys s0 →
               unique_keys (for_blocks n b (getEvents r) s0).1)) as Hfor.
    { induction n as [|n IHn]; intros b s0; simpl.
      + split; [apply extends_refl|done].
      + destruct (fetchAndStoreEvents_extends b (getEvents r b) s0) as [H1 H2].
        destruct (fetchAndStoreEvents b (getEvents r b) s0) as [s1 l1].
        destruct (IHn (b + 1) s1) as [H3 H4].
        destruct (for_blocks n (b + 1) (getEvents r) s1) as [s2 l2].
        simpl in *. split; [by eapply extends_trans|auto]. }
    unfold pass.
    destruct (Hfor (Z.to_nat (latest r - startBlock)) (startBlock + 1) s)
      as [H1 H2].
    destruct (for_blocks _ _ _ s) as [s1 l1].
    destruct (IH (latest r) s1) as [H3 H4].
    destruct (fetchLiveBlocks rounds (latest r) s1) as [[b s2] l2].
    simpl in *. split; [by eapply extends_trans|auto].
Qed.

(** The batch mutator and the whole scanner keep the keys unique: from a
    store with at most one bot per address and one mine per pair (agent,
    location) they never produce a second document for a key. *)
Theorem scanner_keeps_keys_unique :
  (∀ events blockNumber s,
     unique_keys s → unique_keys (processEventsBatch events blockNumber s)) ∧
  (∀ rounds s, unique_keys s → unique_keys (main rounds s).1.2).
Proof.
  split.
  - intros events blockNumber s. apply processEventsBatch_extends.
  - intros rounds s. apply fetchLiveBlocks_extends.
Qed.

Lemma scanner_keeps_keys_unique_witness :
  let s := mkStore None [mkBot (Some "0xb"%string) None alive 0 None]
                   [mkMine (Some "0xb"%string) (Some "0x3"%string) Empty "t0"] [] in
  let tile := mkEvent 431 (Some TILE_MINED) ["0xb"; "0x0"; "0x3"]%string "t1" in
  let spawn := mkEvent 431 (Some SPAWNED_BOT) ["0xb"; "0xp"; "0x1"]%string "t2" in
  unique_keys (processEventsBatch [tile; spawn; tile] 431 s).
Proof.
  intros s tile spawn.
  apply (proj1 scanner_keeps_keys_unique [tile; spawn; tile] 431 s).
  split; simpl; apply NoDup_singleton.
Defined.

(** Nothing is ever deleted or re-keyed by the scanner: after any run the
    bots of the start are still there, in place and under their addresses,
    and so are the mines under their pairs, and the Transaction documents
    unchanged; whatever is new comes after them. *)
Theorem scanner_only_adds :
  (∀ events blockNumber s, extends s (processEventsBatch events blockNumber s)) ∧
  (∀ rounds s, extends s (main rounds s).1.2).
Proof.
  split.
  - intros events blockNumber s. apply processEventsBatch_extends.
  - intros rounds s. apply fetchLiveBlocks_extends.
Qed.

Lemma ops_of_bomb ev :
  ev_key ev = Some BOMB_FOUND →
  bot_ops_of ev = [SetDead (ev_data ev !! 0%nat)] ∧
  mine_ops_of ev = [ForceSet (ev_data ev !! 0%nat) (ev_data ev !! 1%nat)
                             Bomb (ev_timestamp ev)].
Proof.
  intros Hk. unfold bot_ops_of, mine_ops_of. rewrite Hk.
  destruct keys_distinct as (_ & H2 & _ & H4 & _).
  rewrite (decide_False (P := BOMB_FOUND = TILE_MINED)) by congruence.
  rewrite (decide_False (P := BOMB_FOUND = DIAMOND_FOUND)) by congruence.
  by rewrite (decide_True (P := BOMB_FOUND = BOMB_FOUND)).
Qed.

Lemma ops_of_spawn ev :
  ev_key ev = Some SPAWNED_BOT →
  bot_ops_of ev = [SetSpawned (ev_data ev !! 0%nat) (ev_data ev !! 1%nat)
                              (ev_data ev !! 2%nat)] ∧
  mine_ops_of ev = [].
Proof.
  intros Hk. unfold bot_ops_of, mine_ops_of. rewrite Hk.
  destruct keys_distinct as (_ & _ & H3 & _ & H5 & H6).
  rewrite (decide_False (P := SPAWNED_BOT = TILE_MINED)) by congruence.
  rewrite (decide_False (P := SPAWNED_BOT = DIAMOND_FOUND)) by congruence.
  rewrite (decide_False (P := SPAWNED_BOT = BOMB_FOUND)) by congruence.
  by rewrite (decide_True (P := SPAWNED_BOT = SPAWNED_BOT)).
Qed.

Lemma ops_of_unhandled ev :
  handled (ev_key ev) = false → bot_ops_of ev = [] ∧ mine_ops_of ev = [].
Proof.
  intros Hh. apply bool_decide_eq_false_1 in Hh.
  unfold bot_ops_of, mine_ops_of. destruct (ev_key ev) as [k|]; [|done].
  repeat case_decide; subst; try done; exfalso; apply Hh; auto.
Qed.

Lemma findOne_upsert {D} (p : D → bool) (d : D) c :
  p d = true → findOne p (updateOne p (λ _, d) (Some d) c) = Some d.
Proof.
  intros Hd. destruct (findOne p c) as [x|] eqn:Hx.
  - by rewrite (findOne_updateOne _ _ _ _ x).
  - rewrite updateOne_absent by done. by apply findOne_app_r.
Qed.

(** A TileMined for a pair that already has a LocationClaim, of whatever
    kind, leaves the LocationClaim collection as it is (a Diamond or a Bomb
    found there is not overwritten), and still adds 10 to the score of the
    agent. *)
Theorem tile_mined_on_claimed_tile (s : Store) (ev : Event) (blockNumber : Z)
    (a l : option string) (m : Mine) :
  ev_key ev = Some TILE_MINED →
  ev_data ev !! 0%nat = a → ev_data ev !! 2%nat = l →
  findOne (mine_filter a l) (mines s) = Some m →
  let s' := processEventsBatch [ev] blockNumber s in
  mines s' = mines s ∧
  ∀ bot, findOne (bot_filter a) (bots s) = Some bot →
         (score <$> findOne (bot_filter a) (bots s')) = Some (score bot + 10).
Proof.
  intros Hk Ha Hl Hm s'. subst s'. destruct (ops_of_tile ev Hk) as [Hbo Hmo].
  unfold processEventsBatch, bulkBots, bulkMines. simpl.
  rewrite Hbo, Hmo, Ha, Hl. simpl. unfold bulkWrite. simpl. split.
  - by eapply updateOne_keep.
  - intros bot Hbot. rewrite (findOne_updateOne _ _ _ _ bot); [done|done|].
    rewrite bot_filter_add_score. by eapply findOne_true.
Qed.

Lemma tile_mined_on_claimed_tile_witness :
  let a := Some "0xb"%string in
  let l := Some "0x3"%string in
  let s := mkStore None [mkBot a None alive 5000 None]
                   [mkMine a l Diamond "t0"] [] in
  let ev := mkEvent 431 (Some TILE_MINED) ["0xb"; "0x0"; "0x3"]%string "t1" in
  let s' := processEventsBatch [ev] 431 s in
  mines s' = mines s ∧
  ∀ bot, findOne (bot_filter a) (bots s) = Some bot →
         (score <$> findOne (bot_filter a) (bots s')) = Some (score bot + 10).
Proof.
  intros a l s ev.
  apply (tile_mined_on_claimed_tile s ev 431 a l (mkMine a l Diamond "t0"));
    reflexivity.
Defined.

(** A BombFound takes the location from [data[1]]: whatever the pair
    (data[0], data[1]) had before, its first LocationClaim is a Bomb with the
    timestamp of the event; the agent, if there is one, is marked dead with
    its score and other fields as they were, and no agent is created. *)
Theorem bomb_found_marks_and_kills (s : Store) (ev : Event) (blockNumber : Z)
    (a l : option string) :
  ev_key ev = Some BOMB_FOUND →
  ev_data ev !! 0%nat = a → ev_data ev !! 1%nat = l →
  let s' := processEventsBatch [ev] blockNumber s in
  findOne (mine_filter a l) (mines s') = Some (mkMine a l Bomb (ev_timestamp ev)) ∧
  (∀ bot, findOne (bot_filter a) (bots s) = Some bot →
          findOne (bot_filter a) (bots s') = Some (set_status dead bot)) ∧
  (findOne (bot_filter a) (bots s) = None → bots s' = bots s).
Proof.
  intros Hk Ha Hl s'. subst s'. destruct (ops_of_bomb ev Hk) as [Hbo Hmo].
  unfold processEventsBatch, bulkBots, bulkMines. simpl.
  rewrite Hbo, Hmo, Ha, Hl. simpl. unfold bulkWrite. simpl. split_and!.
  - apply findOne_upsert, mine_filter_own.
  - intros bot Hbot. rewrite (findOne_updateOne _ _ _ _ bot); [done|done|].
    change (bot_filter a (set_status dead bot)) with (bot_filter a bot).
    by eapply findOne_true.
  - intros Hnone. by rewrite updateOne_absent.
Qed.

Lemma bomb_found_marks_and_kills_witness :
  let a := Some "0xb"%string in
  let l := Some "0x9"%string in
  let s := mkStore None [mkBot a None alive 20 None] [] [] in
  let ev := mkEvent 431 (Some BOMB_FOUND) ["0xb"; "0x9"; "0x0"]%string "t1" in
  let s' := processEventsBatch [ev] 431 s in
  findOne (mine_filter a l) (mines s') = Some (mkMine a l Bomb "t1") ∧
  findOne (bot_filter a) (bots s') = Some (mkBot a None dead 20 None).
Proof.
  intros a l s ev.
  destruct (bomb_found_marks_and_kills s ev 431 a l eq_refl eq_refl eq_refl)
    as (Hmine & Hbot & _).
  split; [exact Hmine|]. apply (Hbot (mkBot a None alive 20 None)). reflexivity.
Defined.

(** A SpawnedBot makes the bot of the address [data[0]] alive with score
    0.  A bot that is there is updated in place, so its score is gone; its
    player and its starting tile become [data[1]] and [data[2]] where the
    event has them, and stay what they were where it has not.  When no bot
    has the address one document is added, with the fields the event has.
    The mines are not touched. *)
Theorem spawn_resets_agent (s : Store) (ev : Event) (blockNumber : Z)
    (a : option string) :
  ev_key ev = Some SPAWNED_BOT → ev_data ev !! 0%nat = a →
  let s' := processEventsBatch [ev] blockNumber s in
  (∀ old, findOne (bot_filter a) (bots s) = Some old →
     findOne (bot_filter a) (bots s')
     = Some (mkBot a (set_defined (ev_data ev !! 1%nat) (player old)) alive 0
                   (set_defined (ev_data ev !! 2%nat) (starting_tile old))) ∧
     length (bots s') = length (bots s)) ∧
  (findOne (bot_filter a) (bots s) = None →
     bots s' = bots s ++ [mkBot a (ev_data ev !! 1%nat) alive 0
                                (ev_data ev !! 2%nat)]) ∧
  mines s' = mines s.
Proof.
  intros Hk Ha s'. subst s'. destruct (ops_of_spawn ev Hk) as [Hbo Hmo].
  unfold processEventsBatch, bulkBots, bulkMines. simpl.
  rewrite Hbo, Hmo, Ha. simpl. unfold bulkWrite. simpl. split_and!.
  - intros old Hold.
    pose proof (findOne_true _ _ _ Hold) as Hp.
    apply bool_decide_eq_true_1 in Hp.
    assert (set_spawned a (ev_data ev !! 1%nat) (ev_data ev !! 2%nat) old
            = mkBot a (set_defined (ev_data ev !! 1%nat) (player old)) alive 0
                    (set_defined (ev_data ev !! 2%nat) (starting_tile old)))
      as Hset.
    { unfold set_spawned. rewrite Hp. by destruct a. }
    split.
    + rewrite (findOne_updateOne _ _ _ _ old Hold); rewrite Hset; [done|].
      unfold bot_filter. simpl. by rewrite bool_decide_eq_true_2.
    + by rewrite (length_updateOne_present _ _ _ _ old).
  - intros Hnone. by rewrite updateOne_absent.
  - done.
Qed.

Lemma spawn_resets_agent_witness :
  let a := Some "0xb"%string in
  let old := mkBot a (Some "0xp"%string) dead 5020 (Some "0x7"%string) in
  let s := mkStore None [old] [] [] in
  let full := mkEvent 431 (Some SPAWNED_BOT) ["0xb"; "0xq"; "0x1"]%string "t1" in
  let short := mkEvent 431 (Some SPAWNED_BOT) ["0xb"; "0xq"]%string "t1" in
  let other := mkEvent 431 (Some SPAWNED_BOT) ["0xc"]%string "t1" in
  findOne (bot_filter a) (bots (processEventsBatch [full] 431 s))
  = Some (mkBot a (Some "0xq"%string) alive 0 (Some "0x1"%string)) ∧
  findOne (bot_filter a) (bots (processEventsBatch [short] 431 s))
  = Some (mkBot a (Some "0xq"%string) alive 0 (Some "0x7"%string)) ∧
  bots (processEventsBatch [other] 431 s)
  = [old; mkBot (Some "0xc"%string) None alive 0 None].
Proof.
  intros a old s full short other.
  destruct (spawn_resets_agent s full 431 a eq_refl eq_refl) as (H1 & _ & _).
  destruct (spawn_resets_agent s short 431 a eq_refl eq_refl) as (H2 & _ & _).
  destruct (spawn_resets_agent s other 431 (Some "0xc"%string) eq_refl eq_refl)
    as (_ & H3 & _).
  split_and!.
  - apply (H1 old). reflexivity.
  - apply (H2 old). reflexivity.
  - apply H3. reflexivity.
Defined.

Lemma processEvent_unhandled ev s :
  handled (ev_key ev) = false →
  bots (PerEvent.processEvent ev s) = bots s ∧
  mines (PerEvent.processEvent ev s) = mines s.
Proof.
  intros Hh. apply bool_decide_eq_false_1 in Hh.
  unfold PerEvent.processEvent.
  destruct (EVENT_MAP (ev_key ev)) as [name|]; [|done].
  destruct (ev_key ev) as [k|]; simpl.
  - repeat case_decide; subst; try done; exfalso; apply Hh; auto.
  - repeat case_decide; done.
Qed.

(** Only TileMined, DiamondFound, BombFound and SpawnedBot change bots or
    mines.  Any list of events of other kinds (TileAlreadyMined, SuspendBot,
    ReviveBot, unknown hashes, events without a key) leaves both
    collections as they are, in the batch mutator and in the per-event
    processor: a ReviveBot does not revive, a SuspendBot does not suspend. *)
Theorem unhandled_events_change_no_entity :
  (∀ events blockNumber s,
     Forall (λ ev, handled (ev_key ev) = false) events →
     bots (processEventsBatch events blockNumber s) = bots s ∧
     mines (processEventsBatch events blockNumber s) = mines s) ∧
  (∀ events s,
     Forall (λ ev, handled (ev_key ev) = false) events →
     bots (PerEvent.processEvents events s) = bots s ∧
     mines (PerEvent.processEvents events s) = mines s) ∧
  handled (Some REVIVE_BOT) = false ∧ handled (Some SUSPEND_BOT) = false ∧
  handled (Some TILE_ALREADY_MINED) = false ∧ handled None = false.
Proof.
  split_and!; try by vm_compute.
  - intros events blockNumber s Hall.
    assert (bulkBots events = [] ∧ bulkMines events = []) as [Hb Hm].
    { unfold bulkBots, bulkMines.
      induction Hall as [|ev events Hev Hall IH]; [done|]. simpl.
      destruct (ops_of_unhandled ev Hev) as [-> ->]. exact IH. }
    unfold processEventsBatch. simpl. by rewrite Hb, Hm.
  - intros events s Hall. revert s. unfold PerEvent.processEvents.
    induction Hall as [|ev events Hev Hall IH]; intros s; [done|]. simpl.
    destruct (IH (PerEvent.processEvent ev s)) as [-> ->].
    by apply processEvent_unhandled.
Qed.

Lemma unhandled_events_change_no_entity_witness :
  let s := mkStore None [mkBot (Some "0xb"%string) None dead 20 None] [] [] in
  let revive := mkEvent 431 (Some REVIVE_BOT) ["0xb"]%string "t1" in
  bots (processEventsBatch [revive] 431 s) = bots s ∧
  mines (processEventsBatch [revive] 431 s) = mines s.
Proof.
  intros s revive.
  apply (proj1 unhandled_events_change_no_entity [revive] 431 s).
  repeat constructor.
Defined.

Lemma same_agent_grown_refl b : same_agent_grown b b.
Proof. unfold same_agent_grown. split_and!; (done || lia). Qed.

Lemma same_agent_grown_trans b1 b2 b3 :
  same_agent_grown b1 b2 → same_agent_grown b2 b3 → same_agent_grown b1 b3.
Proof.
  unfold same_agent_grown. intros (? & ? & ? & ? & ?) (? & ? & ? & ? & ?).
  split_and!; try congruence; try lia. auto.
Qed.

Lemma Forall2_diagonal {D} (R : D → D → Prop) (c : list D) :
  (∀ d, R d d) → Forall2 R c c.
Proof. intros Hrefl. induction c; constructor; auto. Qed.

Lemma Forall2_updateOne {D} (R : D → D → Prop) p f (c : list D) :
  (∀ d, R d d) → (∀ d, R d (f d)) → Forall2 R c (updateOne p f None c).
Proof.
  intros Hrefl Hf. unfold updateOne.
  assert (∀ c', update_first p f c = Some c' → Forall2 R c c') as H.
  { induction c as [|d c IH]; intros c'; simpl; [done|].
    destruct (p d).
    - intros [= <-]. constructor; [apply Hf|]. by apply Forall2_diagonal.
    - destruct (update_first p f c) as [c''|]; [|done].
      intros [= <-]. constructor; [apply Hrefl|by apply IH]. }
  destruct (update_first p f c) as [c'|]; [by apply H|].
  by apply Forall2_diagonal.
Qed.

(** While no SpawnedBot is among the events, the batch mutator keeps the
    bots one for one: same address, player and starting tile, a score that
    is not lower than before, and a dead bot stays dead.  No bot appears or
    disappears; events for an unknown agent touch no bot at all. *)
Theorem agents_only_grow_without_spawn (events : list Event) (blockNumber : Z)
    (s : Store) :
  Forall (λ ev, is_spawn ev = false) events →
  Forall2 same_agent_grown (bots s) (bots (processEventsBatch events blockNumber s)).
Proof.
  intros Hall. unfold processEventsBatch. simpl.
  assert (Forall (λ op, match op with
                        | IncScore _ n => 0 ≤ n
                        | SetDead _ => True
                        | SetSpawned _ _ _ => False
                        end) (bulkBots events)) as Hops.
  { unfold bulkBots. induction Hall as [|ev events Hev Hall IH]; [done|].
    simpl. apply Forall_app. split; [|done].
    apply bool_decide_eq_false_1 in Hev. unfold bot_ops_of.
    destruct (ev_key ev) as [k|]; [|done].
    repeat case_decide; subst; repeat constructor; try lia; try done. }
  revert Hops. generalize (bulkBots events) (bots s). clear.
  intros ops. induction ops as [|op ops IH]; intros c Hops.
  - apply Forall2_diagonal, same_agent_grown_refl.
  - apply Forall_cons in Hops as [Hop Hops].
    change (bulkWrite exec_bot (op :: ops) c)
      with (bulkWrite exec_bot ops (exec_bot op c)).
    assert (Forall2 same_agent_grown c (exec_bot op c)) as H1.
    { destruct op as [a n|a|a pl tile]; simpl; [| |done].
      - apply Forall2_updateOne; [apply same_agent_grown_refl|].
        intros d. unfold same_agent_grown. simpl. split_and!; (done || lia).
      - apply Forall2_updateOne; [apply same_agent_grown_refl|].
        intros d. unfold same_agent_grown. simpl. split_and!; (done || lia). }
    specialize (IH (exec_bot op c) Hops).
    eapply Forall2_trans; [|exact H1|exact IH].
    intros ? ? ?. apply same_agent_grown_trans.
Qed.

Lemma agents_only_grow_without_spawn_witness :
  let s := mkStore None [mkBot (Some "0xb"%string) None alive 0 None] [] [] in
  let tile := mkEvent 431 (Some TILE_MINED) ["0xb"; "0x0"; "0x3"]%string "t1" in
  let bomb := mkEvent 431 (Some BOMB_FOUND) ["0xb"; "0x4"]%string "t2" in
  let ghost := mkEvent 431 (Some DIAMOND_FOUND) ["0xc"; "0x0"; "0x5"]%string "t3" in
  Forall2 same_agent_grown (bots s)
          (bots (processEventsBatch [tile; bomb; ghost; tile] 431 s)).
Proof.
  intros s tile bomb ghost.
  apply (agents_only_grow_without_spawn [tile; bomb; ghost; tile] 431 s).
  repeat constructor.
Defined.

End BatchFurther.

(** * Further properties of the per-event processor and of the scanners *)

Section ScannersFurther.
Import Batch BatchScan.

Lemma processEvent_grows ev s :
  mines s `prefix_of` mines (PerEvent.processEvent ev s) ∧
  transactions s `prefix_of` transactions (PerEvent.processEvent ev s) ∧
  length (transactions (PerEvent.processEvent ev s))
  = (length (transactions s) + if mapped ev then 1 else 0)%nat.
Proof.
  unfold PerEvent.processEvent, mapped.
  destruct (EVENT_MAP (ev_key ev)) as [name|] eqn:Hname.
  - rewrite bool_decide_eq_true_2 by eauto.
    assert (∀ (bm : list Bot * list Mine),
              mines s `prefix_of` bm.2 →
              mines s `prefix_of`
                mines (let '(bs, ms) := bm in
                       mkStore (checkpoint s) bs ms
                         (create (mkTransaction (ev_block ev) name (ev_key ev)
                                    (ev_data ev) (ev_timestamp ev))
                                 (transactions s))) ∧
              transactions s `prefix_of`
                transactions (let '(bs, ms) := bm in
                       mkStore (checkpoint s) bs ms
                         (create (mkTransaction (ev_block ev) name (ev_key ev)
                                    (ev_data ev) (ev_timestamp ev))
                                 (transactions s))) ∧
              length (transactions (let '(bs, ms) := bm in
                       mkStore (checkpoint s) bs ms
                         (create (mkTransaction (ev_block ev) name (ev_key ev)
                                    (ev_data ev) (ev_timestamp ev))
                                 (transactions s))))
              = (length (transactions s) + 1)%nat) as H.
    { intros [bs ms] Hpre. simpl in *. split_and!; [done| |].
      - by apply prefix_app_r.
      - unfold create. by rewrite length_app. }
    apply H. repeat case_decide; simpl;
      try destruct (findOne _ (mines s)); simpl; try done;
      by apply prefix_app_r.
  - rewrite bool_decide_eq_false_2 by (intros [? ?]; done).
    split_and!; [done|done|lia].
Qed.

(** The per-event processor writes one Transaction document for every event
    whose key is in [EVENT_MAP] and none for the others, so the audit trail
    of a list of events has as many new documents as the list has mapped
    events; and it only ever appends to the Mine and Transaction
    collections: the documents that were there stay in place, unchanged (an
    existing LocationClaim is never updated, whatever is found there
    later). *)
Theorem per_event_audit_and_append_only (events : list Event) (s : Store) :
  let s' := PerEvent.processEvents events s in
  length (transactions s')
  = (length (transactions s) + length (List.filter mapped events))%nat ∧
  transactions s `prefix_of` transactions s' ∧
  mines s `prefix_of` mines s'.
Proof.
  revert s. unfold PerEvent.processEvents.
  induction events as [|ev events IH]; intros s; simpl.
  - split_and!; [lia|done|done].
  - destruct (IH (PerEvent.processEvent ev s)) as (Hlen & Htx & Hm).
    destruct (processEvent_grows ev s) as (Hm1 & Htx1 & Hlen1).
    split_and!.
    + rewrite Hlen, Hlen1. destruct (mapped ev); simpl; lia.
    + by etrans.
    + by etrans.
Qed.

(** A SpawnedBot on the per-event processor always inserts a bot; when the
    address already has one, the old document stays the first of its
    address, so it is the old one that [findOne] returns and that later
    score and status updates reach, not the one just spawned. *)
Theorem per_event_respawn_is_shadowed (ev : Event) (s : Store)
    (a : option string) :
  ev_key ev = Some SPAWNED_BOT → ev_data ev !! 0%nat = a →
  let s' := PerEvent.processEvent ev s in
  bots s' = bots s ++ [mkBot a (ev_data ev !! 1%nat) alive 0 (ev_data ev !! 2%nat)] ∧
  (∀ old, findOne (bot_filter a) (bots s) = Some old →
          findOne (bot_filter a) (bots s') = Some old) ∧
  (∀ old tile, findOne (bot_filter a) (bots s) = Some old →
     ev_key tile = Some DIAMOND_FOUND → ev_data tile !! 0%nat = a →
     findOne (bot_filter a) (bots (PerEvent.processEvent tile s'))
     = Some (add_score 5000 old)).
Proof.
  intros Hk Ha s'.
  assert (bots s' = bots s ++ [mkBot a (ev_data ev !! 1%nat) alive 0
                                     (ev_data ev !! 2%nat)]) as Hb.
  { subst s'. unfold PerEvent.processEvent. rewrite Hk.
    change (EVENT_MAP (Some SPAWNED_BOT)) with (Some "SpawnedBot"%string).
    cbn [default]. destruct keys_distinct as (_ & _ & H3 & _ & H5 & H6).
    rewrite (decide_False (P := SPAWNED_BOT = TILE_MINED)) by congruence.
    rewrite (decide_False (P := SPAWNED_BOT = DIAMOND_FOUND)) by congruence.
    rewrite (decide_False (P := SPAWNED_BOT = BOMB_FOUND)) by congruence.
    rewrite (decide_True (P := SPAWNED_BOT = SPAWNED_BOT)) by done.
    by rewrite Ha. }
  split_and!; [done| |].
  - intros old Hold. rewrite Hb. by apply (findOne_create _ _ _ old).
  - intros old tile Hold Hkt Hat.
    assert (bots (PerEvent.processEvent tile s')
            = updateOne (bot_filter a) (add_score 5000) None (bots s')) as ->.
    { unfold PerEvent.processEvent. rewrite Hkt.
      change (EVENT_MAP (Some DIAMOND_FOUND)) with (Some "DiamondFound"%string).
      cbn [default]. destruct keys_distinct as (H1 & _).
      rewrite (decide_False (P := DIAMOND_FOUND = TILE_MINED)) by congruence.
      rewrite (decide_True (P := DIAMOND_FOUND = DIAMOND_FOUND)) by done.
      by rewrite Hat. }
    rewrite (findOne_updateOne _ _ _ _ old); [done| |].
    + rewrite Hb. by apply (findOne_create _ _ _ old).
    + rewrite bot_filter_add_score. by eapply findOne_true.
Qed.

Lemma per_event_respawn_is_shadowed_witness :
  let a := Some "0xb"%string in
  let old := mkBot a (Some "0xp"%string) dead 30 None in
  let s := mkStore None [old] [] [] in
  let ev := mkEvent 431 (Some SPAWNED_BOT) ["0xb"; "0xq"; "0x1"]%string "t1" in
  let s' := PerEvent.processEvent ev s in
  length (bots s') = 2%nat ∧ findOne (bot_filter a) (bots s') = Some old.
Proof.
  intros a old s ev.
  destruct (per_event_respawn_is_shadowed ev s a eq_refl eq_refl)
    as (Hb & Hold & _).
  split.
  - etrans; [exact (f_equal length Hb)|reflexivity].
  - apply Hold. reflexivity.
Defined.

(** The two scanners read the same pages of a block (up to the first page
    without a truthy token, or to the call that throws), in the same
    order.  When a call throws, the batch scanner has applied nothing of
    the block, while the per-event scanner has applied every event of the
    pages read before it; neither sets the checkpoint. *)
Theorem scanners_read_the_same_pages (blockNumber : Z) (r : RpcScan)
    (s : Store) :
  let '(events, ok) := consumed blockNumber r in
  collect blockNumber r [] = (if ok then Some events else None) ∧
  (PerEvent.scan blockNumber r s).1.1 = PerEvent.processEvents events s ∧
  (ok = false →
   fetchAndStoreEvents blockNumber r s = (s, [Scanned blockNumber false]) ∧
   (PerEvent.fetchAndStoreEvents blockNumber r s).1
   = PerEvent.processEvents events s ∧
   checkpoint (PerEvent.fetchAndStoreEvents blockNumber r s).1 = checkpoint s) ∧
  (ok = true →
   (fetchAndStoreEvents blockNumber r s).1
   = updateCheckpoint blockNumber (processEventsBatch events blockNumber s) ∧
   (PerEvent.fetchAndStoreEvents blockNumber r s).1
   = updateCheckpoint blockNumber (PerEvent.processEvents events s)).
Proof.
  pose proof (collect_consumed blockNumber r) as Hc.
  pose proof (scan_consumed blockNumber r s) as Hs.
  destruct (consumed blockNumber r) as [events ok]. simpl in *.
  split_and!; [done|by rewrite Hs| |].
  - intros ->. unfold fetchAndStoreEvents, PerEvent.fetchAndStoreEvents.
    rewrite Hc, Hs. split_and!; [done|done|]. simpl.
    clear. revert s. unfold PerEvent.processEvents.
    induction events as [|ev events IH]; intros s; simpl; [done|].
    rewrite IH. unfold PerEvent.processEvent.
    destruct (EVENT_MAP (ev_key ev)); [|done].
    by repeat case_decide; try destruct (findOne _ (mines s)).
  - intros ->. unfold fetchAndStoreEvents, PerEvent.fetchAndStoreEvents.
    rewrite Hc, Hs. split; [|done]. destruct events; [|done].
    by rewrite processEventsBatch_nil.
Qed.

Lemma scanners_read_the_same_pages_witness :
  let page := [mkRpcEvent [TILE_MINED] ["0xb"; "0x0"; "0x3"]%string "t1"] in
  let r := RpcPage page (Some "1-0"%string) RpcError in
  let s := mkStore (Some 430) [] [] [] in
  fetchAndStoreEvents 431 r s = (s, [Scanned 431 false]) ∧
  length (mines (PerEvent.fetchAndStoreEvents 431 r s).1) = 1%nat ∧
  checkpoint (PerEvent.fetchAndStoreEvents 431 r s).1 = Some 430.
Proof.
  intros page r s.
  pose proof (scanners_read_the_same_pages 431 r s) as H.
  simpl in H. destruct H as (_ & _ & Hfail & _).
  destruct (Hfail eq_refl) as (Hb & Hp & Hc).
  split_and!; [exact Hb| |exact Hc].
  etrans; [exact (f_equal (λ st, length (mines st)) Hp)|reflexivity].
Defined.

Lemma for_blocks_complete n b rpc s :
  (∀ x, b ≤ x < b + Z.of_nat n → is_Some (collect x (rpc x) [])) →
  checkpoints_of (for_blocks n b rpc s).2 = seqZ b (Z.of_nat n) ∧
  ((0 < n)%nat →
   checkpoint (for_blocks n b rpc s).1 = Some (b + Z.of_nat n - 1)).
Proof.
  revert b s. induction n as [|n IH]; intros b s Hall.
  - split; [done|]. lia.
  - simpl for_blocks.
    destruct (fetchAndStoreEvents_cases b (rpc b) s)
      as [[Hnone _]|(evs & Hevs & ->)].
    { destruct (Hall b) as [? Hsome]; [lia|]. congruence. }
    match goal with |- context [for_blocks n (b + 1) rpc ?st] =>
      destruct (IH (b + 1) st) as [Hcp Hlast] end.
    { intros x Hx. apply Hall. lia. }
    match goal with |- context [for_blocks n (b + 1) rpc ?st] =>
      pose proof (for_blocks_checkpoints n (b + 1) rpc st) as Hst;
      destruct (for_blocks n (b + 1) rpc st) as [s2 l2] end.
    cbv beta iota zeta in *. cbn [fst snd] in *.
    assert (checkpoints_of (block_trace b evs ++ l2) = b :: checkpoints_of l2)
      as ->.
    { unfold checkpoints_of. rewrite omap_app.
      fold (checkpoints_of (block_trace b evs)).
      by rewrite checkpoints_of_block_trace. }
    rewrite Hcp. split.
    + rewrite (seqZ_cons b) by lia. f_equal. f_equal; lia.
    + intros _. destruct n as [|n].
      * destruct Hst as [_ ->]. rewrite Hcp. simpl. f_equal. lia.
      * rewrite Hlast by lia. f_equal. lia.
Qed.

(** When every scan of a pass completes, the pass checkpoints each block
    from [startBlock + 1] to the head, in order, and leaves the checkpoint
    at the head: a scanner that meets no failure is caught up after one
    pass. *)
Theorem pass_catches_up (startBlock : Z) (r : Round) (s : Store) :
  startBlock < latest r →
  (∀ b, startBlock < b ≤ latest r → is_Some (collect b (getEvents r b) [])) →
  checkpoints_of (pass startBlock r s).2
  = seqZ (startBlock + 1) (latest r - startBlock) ∧
  checkpoint (pass startBlock r s).1 = Some (latest r).
Proof.
  intros Hlt Hall. unfold pass.
  destruct (for_blocks_complete (Z.to_nat (latest r - startBlock))
              (startBlock + 1) (getEvents r) s) as [Hcp Hlast].
  { intros x Hx. apply Hall. lia. }
  split.
  - rewrite Hcp. f_equal. lia.
  - rewrite Hlast by lia. f_equal. lia.
Qed.

Lemma pass_catches_up_witness :
  let s := mkStore None [] [] [] in
  let r := mkRound 433 (λ _, RpcPage [] None RpcError) in
  checkpoints_of (pass 430 r s).2 = [431; 432; 433] ∧
  checkpoint (pass 430 r s).1 = Some 433.
Proof.
  intros s r. apply (pass_catches_up 430 r s).
  - simpl. lia.
  - intros b _. simpl. eauto.
Defined.





(** [fetchLiveBlocks] of pendingIngestion.js scans one block past the head:
    a turn that sees the head [h] above [lastProcessed] scans the blocks
    [lastProcessed + 1 .. h + 1] and keeps [h]; the next turn that sees a
    higher head starts again at [h + 1], so that block is scanned twice.
    A turn whose [getBlock] throws, or that sees no new head, does
    nothing. *)
Theorem live_turn_scans_past_the_head (lastProcessed h1 h2 : Z)
    (t1 t2 : PerEventLoop.Turn) (s : Store) :
  PerEventLoop.head t1 = Some h1 → PerEventLoop.head t2 = Some h2 →
  lastProcessed < h1 → h1 < h2 →
  let '(lp1, s1, log1) := PerEventLoop.turn lastProcessed t1 s in
  let '(lp2, s2, log2) := PerEventLoop.turn lp1 t2 s1 in
  lp1 = h1 ∧ lp2 = h2 ∧
  scans_of log1 = seqZ (lastProcessed + 1) (h1 + 1 - lastProcessed) ∧
  scans_of log2 = seqZ (h1 + 1) (h2 + 1 - h1) ∧
  h1 + 1 ∈ scans_of log1 ∧ h1 + 1 ∈ scans_of log2.
Proof.
  intros Hh1 Hh2 Hlt1 Hlt2. unfold PerEventLoop.turn.
  rewrite Hh1, decide_True by done.
  pose proof (PerEvent_for_blocks_scans (Z.to_nat (h1 + 1 - lastProcessed))
                (lastProcessed + 1) (PerEventLoop.answers t1) s) as Hs1.
  destruct (PerEvent.for_blocks _ _ (PerEventLoop.answers t1) s) as [s1 log1].
  rewrite Hh2, decide_True by done.
  pose proof (PerEvent_for_blocks_scans (Z.to_nat (h2 + 1 - h1))
                (h1 + 1) (PerEventLoop.answers t2) s1) as Hs2.
  destruct (PerEvent.for_blocks _ _ (PerEventLoop.answers t2) s1) as [s2 log2].
  simpl in *. rewrite Z2Nat.id in Hs1, Hs2 by lia.
  split_and!; [done|done|done|done| |].
  - rewrite Hs1. apply elem_of_seqZ. lia.
  - rewrite Hs2. apply elem_of_seqZ. lia.
Qed.

Lemma live_turn_scans_past_the_head_witness :
  let t1 := PerEventLoop.mkTurn (Some 431) (λ _, RpcPage [] None RpcError) in
  let t2 := PerEventLoop.mkTurn (Some 432) (λ _, RpcPage [] None RpcError) in
  let s := mkStore (Some 430) [] [] [] in
  let '(lp1, s1, log1) := PerEventLoop.turn 430 t1 s in
  let '(lp2, s2, log2) := PerEventLoop.turn lp1 t2 s1 in
  scans_of log1 = [431; 432] ∧ scans_of log2 = [432; 433].
Proof.
  intros t1 t2 s.
  pose proof (live_turn_scans_past_the_head 430 431 432 t1 t2 s
                eq_refl eq_refl) as H.
  destruct (PerEventLoop.turn 430 t1 s) as [[lp1 s1] log1].
  destruct (PerEventLoop.turn lp1 t2 s1) as [[lp2 s2] log2].
  destruct H as (_ & _ & H1 & H2 & _); [lia|lia|].
  split; [exact H1|exact H2].
Defined.

End ScannersFurther.

(** * Further properties of the capped server *)

Section ManagerFurther.
Import Manager.

Lemma sendBatchToClient_frame ws now open send_ok m :
  let m' := (sendBatchToClient ws now open send_ok m).1 in
  pollInterval m' = pollInterval m ∧
  continuationToken m' = continuationToken m ∧
  isFetching m' = isFetching m ∧
  maxQueueSize m' = maxQueueSize m ∧
  transactionQueue m' `suffix_of` transactionQueue m.
Proof.
  unfold sendBatchToClient.
  destruct (connectedClients m !! ws) as [c|]; [|by split_and!].
  destruct open; simpl; [|by split_and!].
  case_decide; [by split_and!|].
  destruct (queueBacklog c), (transactionQueue m) eqn:Hq, send_ok; simpl;
    split_and!; try done; try (rewrite Hq; done);
    rewrite <- ?Hq; apply suffix_drop.
Qed.

Lemma settings_sendBatchToClient ws now open send_ok m :
  client_settings m → client_settings (sendBatchToClient ws now open send_ok m).1.
Proof.
  intros Hc. unfold sendBatchToClient.
  destruct (connectedClients m !! ws) as [c|] eqn:Hws; [|done].
  destruct (Hc ws c Hws) as [Hbs Hbi].
  assert (∀ m', connectedClients m' = delete ws (connectedClients m) →
                client_settings m') as Hdel.
  { intros m' Hm' ws' c'. rewrite Hm', lookup_delete_Some.
    intros [_ ?]. eauto. }
  destruct open; simpl; [|by apply Hdel].
  case_decide; [done|].
  destruct (queueBacklog c) as [|x bl] eqn:Hbacklog;
    [destruct (transactionQueue m) as [|y q] eqn:Hqueue|].
  - intros ws' c'. simpl. rewrite lookup_insert_Some.
    intros [[_ <-]|[_ ?]]; [done|eauto].
  - destruct send_ok; simpl; [|by apply Hdel].
    intros ws' c'. simpl. rewrite lookup_insert_Some.
    intros [[_ <-]|[Hne Hl]]; [done|].
    rewrite map_lookup_imap in Hl.
    destruct (connectedClients m !! ws') as [c0|] eqn:Hc0; [|done].
    simpl in Hl. rewrite decide_False in Hl by done. simplify_eq.
    by apply (Hc ws' c0).
  - destruct send_ok; simpl; [|by apply Hdel].
    intros ws' c'. simpl. rewrite lookup_insert_Some.
    intros [[_ <-]|[_ ?]]; [done|eauto].
Qed.

Lemma reachable_settings m : reachable m → client_settings m.
Proof.
  induction 1 as [|m m' Hm IH Hstep].
  - intros ws c Hl. simpl in Hl. by rewrite lookup_empty in Hl.
  - destruct Hstep.
    + unfold startStreaming.
      set (m1 := set_clients _ m).
      assert (client_settings m1) as H1.
      { intros ws' c'. simpl. rewrite lookup_insert_Some.
        intros [[_ <-]|[_ ?]]; [done|eauto]. }
      assert (client_settings
                (if decide (size (connectedClients m1) = 1%nat)
                 then startPolling m1 else (m1, None)).1) as H2.
      { case_decide; [|done]. unfold startPolling, fetch_begin.
        destruct (isFetching m1); [done|]. by case_decide. }
      destruct (if decide (size (connectedClients m1) = 1%nat)
                then startPolling m1 else (m1, None)) as [m2 req].
      pose proof (settings_sendBatchToClient ws now open send_ok m2 H2) as H3.
      by destruct (sendBatchToClient ws now open send_ok m2).
    + unfold fetch_begin. destruct (isFetching m); [done|]. by case_decide.
    + unfold fetch_end. by destruct resp as [| |[|? ?] ?].
    + by apply settings_sendBatchToClient.
    + unfold removeClient. case_decide; intros ws' c'; simpl;
        rewrite lookup_delete_Some; intros [_ ?]; eauto.
Qed.

(** A client gets at most 10 items per turn and at most one batch every
    50 ms: in every state the server reaches, a turn that is due and whose
    send returns hands at most 10 items to the socket, and any further turn
    of that client less than 50 ms later does nothing. *)
Theorem client_rate_is_bounded (m : TransactionManager) (ws : nat) (now : Z)
    (c : ClientInfo) :
  reachable m → connectedClients m !! ws = Some c → nextBatchTime c ≤ now →
  let '(m1, sent) := sendBatchToClient ws now true true m in
  (length (default [] sent) ≤ 10)%nat ∧
  ∀ now' send_ok', now' < now + 50 →
    sendBatchToClient ws now' true send_ok' m1 = (m1, None).
Proof.
  intros Hm Hws Hdue. destruct (reachable_settings m Hm ws c Hws) as [Hbs Hbi].
  assert (∀ len, now + 50 ≤ next_time now c len) as Hnext.
  { intros len. unfold next_time. rewrite Hbi.
    repeat case_decide; change (100 * 5 / 10) with 50;
      change (100 * 7 / 10) with 70; change (100 * 10 / 10) with 100; lia. }
  assert (∀ m1 c1, connectedClients m1 !! ws = Some c1 →
            now + 50 ≤ nextBatchTime c1 →
            ∀ now' send_ok', now' < now + 50 →
              sendBatchToClient ws now' true send_ok' m1 = (m1, None)) as Hidle.
  { intros m1 c1 Hc1 Ht now' send_ok' Hlt. unfold sendBatchToClient.
    rewrite Hc1. simpl. by rewrite decide_True by lia. }
  unfold sendBatchToClient at 1. rewrite Hws. simpl negb. cbv iota.
  rewrite decide_False by lia.
  destruct (queueBacklog c) as [|x bl] eqn:Hb;
    [destruct (transactionQueue m) as [|y q] eqn:Hq|]; cbv beta iota zeta.
  - split; [simpl; lia|]. eapply Hidle; [apply lookup_insert_eq|]. apply Hnext.
  - split; [change (default [] (Some ?b)) with b; rewrite length_take; lia|].
    eapply Hidle; [apply lookup_insert_eq|]. apply Hnext.
  - split; [change (default [] (Some ?b)) with b; rewrite length_take; lia|].
    eapply Hidle; [apply lookup_insert_eq|].
    change (nextBatchTime (set_next ?t _)) with t.
    unfold next_time. cbn [batchInterval set_backlog]. rewrite Hbi.
    repeat case_decide; change (100 * 5 / 10) with 50;
      change (100 * 7 / 10) with 70; change (100 * 10 / 10) with 100; lia.
Qed.

Lemma client_rate_is_bounded_witness :
  let page := [mkPendingEvent [TILE_MINED] ["0xb"; "0x0"; "0x3"]%string] in
  let m1 := (startStreaming 1 1 0 true true constructor).1.1 in
  let m2 := fetch_end (Events page (Some "0-1"%string)) 5 m1 in
  let '(m3, sent) := sendBatchToClient 1 100 true true m2 in
  (length (default [] sent) ≤ 10)%nat ∧
  sendBatchToClient 1 149 true true m3 = (m3, None).
Proof.
  intros page m1 m2.
  assert (reachable m2) as Hm2.
  { apply (reach_step m1).
    - apply (reach_step constructor); [apply reach_init|].
      apply (step_connect constructor 1 1 0 true true).
    - apply (step_answer m1). reflexivity. }
  pose proof (client_rate_is_bounded m2 1 100 (mkClient 1 10 100 100 [])
                Hm2 eq_refl) as H.
  destruct (sendBatchToClient 1 100 true true m2) as [m3 sent].
  destruct H as [Hlen Hidle]; [simpl; lia|].
  split; [exact Hlen|]. apply Hidle. lia.
Defined.

Lemma polling_sendBatchToClient ws now open send_ok m :
  polling_while_connected m →
  polling_while_connected (sendBatchToClient ws now open send_ok m).1.
Proof.
  intros Hp. destruct (sendBatchToClient_frame ws now open send_ok m)
    as (Htimer & _).
  intros Hne. rewrite Htimer. apply Hp. intros Hempty. apply Hne.
  assert (sendBatchToClient ws now open send_ok m = (m, None)) as ->; [|done].
  unfold sendBatchToClient. by rewrite Hempty, lookup_empty.
Qed.

(** While a client is connected the poll timer is set: in every state the
    server reaches with a non-empty client map, [pollInterval] is set. *)
Theorem poller_runs_while_connected (m : TransactionManager) :
  reachable m → connectedClients m ≠ ∅ → pollInterval m = true.
Proof.
  induction 1 as [|m m' Hm IH Hstep]; [done|].
  fold (polling_while_connected m) in IH.
  fold (polling_while_connected m'). destruct Hstep.
  - unfold startStreaming. set (m1 := set_clients _ m).
    assert (polling_while_connected
              (if decide (size (connectedClients m1) = 1%nat)
               then startPolling m1 else (m1, None)).1) as H2.
    { case_decide as Hsize.
      - unfold startPolling. by destruct (fetch_begin m1).
      - intros _. apply IH. intros Hempty. apply Hsize. subst m1. simpl.
        rewrite Hempty. by rewrite insert_empty, map_size_singleton. }
    destruct (if decide (size (connectedClients m1) = 1%nat)
              then startPolling m1 else (m1, None)) as [m2 req].
    pose proof (polling_sendBatchToClient ws now open send_ok m2 H2) as H3.
    by destruct (sendBatchToClient ws now open send_ok m2).
  - unfold fetch_begin. destruct (isFetching m); [done|]. by case_decide.
  - unfold fetch_end. by destruct resp as [| |[|? ?] ?].
  - by apply polling_sendBatchToClient.
  - unfold removeClient. case_decide as Hsize.
    + intros Hne. simpl in *. by apply map_size_empty_iff in Hsize.
    + intros _. apply IH. intros Hempty. apply Hsize. simpl.
      rewrite Hempty. by rewrite delete_empty, map_size_empty.
Qed.

Lemma poller_runs_while_connected_witness :
  pollInterval (startStreaming 1 1 0 true true constructor).1.1 = true.
Proof.
  apply (poller_runs_while_connected
           (startStreaming 1 1 0 true true constructor).1.1).
  - apply (reach_step constructor); [apply reach_init|].
    apply (step_connect constructor 1 1 0 true true).
  - intros Hempty. by apply (f_equal (λ M, M !! 1%nat)) in Hempty.
Defined.

(** The two ways a turn removes a client.  A socket that is not open is
    taken out of the map and nothing else changes.  A send that throws
    takes the client out too, and the batch that was cut off for it is
    gone: when it came from the shared queue the queue has lost it and no
    other client has got it in its backlog.  In both cases the timer, the
    token and the rest of the queue stay, even when the client was the
    last one: only [removeClient] stops the poller and clears the queue. *)
Theorem failed_turn_drops_client_and_batch (m : TransactionManager)
    (ws : nat) (now : Z) (c : ClientInfo) :
  reachable m → connectedClients m !! ws = Some c →
  (∀ send_ok, sendBatchToClient ws now false send_ok m
              = (set_clients (delete ws (connectedClients m)) m, None)) ∧
  (nextBatchTime c ≤ now →
   queueBacklog c ≠ [] ∨ transactionQueue m ≠ [] →
   let '(m', sent) := sendBatchToClient ws now true false m in
   connectedClients m' = delete ws (connectedClients m) ∧
   pollInterval m' = pollInterval m ∧
   continuationToken m' = continuationToken m ∧
   (queueBacklog c ≠ [] → transactionQueue m' = transactionQueue m) ∧
   (queueBacklog c = [] →
    ∃ batch, sent = Some batch ∧ batch ≠ [] ∧
             transactionQueue m = batch ++ transactionQueue m')).
Proof.
  intros Hm Hws. destruct (reachable_settings m Hm ws c Hws) as [Hbs _].
  split.
  - intros send_ok. unfold sendBatchToClient. by rewrite Hws.
  - intros Hdue Hsome. unfold sendBatchToClient. rewrite Hws. simpl negb.
    cbv iota. rewrite decide_False by lia.
    destruct (queueBacklog c) as [|x bl] eqn:Hb;
      [destruct (transactionQueue m) as [|y q] eqn:Hq|];
      cbv beta iota zeta.
    + by destruct Hsome.
    + split_and!; [done|done|done|done|]. intros _.
      exists (take (Nat.min (length (y :: q)) (batchSize c)) (y :: q)).
      split_and!; [done| |].
      * rewrite Hbs. done.
      * cbn [transactionQueue set_queue]. by rewrite take_drop.
    + split_and!; [done|done|done| |done]. intros _.
      done.
Qed.

Lemma failed_turn_drops_client_and_batch_witness :
  let page := [mkPendingEvent [TILE_MINED] ["0xb"; "0x0"; "0x3"]%string] in
  let m1 := (startStreaming 1 1 0 true true constructor).1.1 in
  let m2 := fetch_end (Events page (Some "0-1"%string)) 5 m1 in
  let '(m', sent) := sendBatchToClient 1 100 true false m2 in
  connectedClients m' = ∅ ∧ pollInterval m' = true ∧
  transactionQueue m' = [] ∧ sent = Some (map (format eventName 5) page).
Proof.
  intros page m1 m2.
  assert (reachable m2) as Hm2.
  { apply (reach_step m1).
    - apply (reach_step constructor); [apply reach_init|].
      apply (step_connect constructor 1 1 0 true true).
    - apply (step_answer m1). reflexivity. }
  destruct (failed_turn_drops_client_and_batch m2 1 100
              (mkClient 1 10 100 100 []) Hm2 eq_refl) as [_ H].
  specialize (H ltac:(simpl; lia) ltac:(right; discriminate)).
  destruct (sendBatchToClient 1 100 true false m2) as [m' sent] eqn:Hrun.
  vm_compute in Hrun. injection Hrun as <- <-.
  split_and!; reflexivity.
Defined.

(** An answer that arrives after the last client has left undoes the
    clearing: [removeClient] empties the queue and the token but leaves the
    fetch in flight, and when its page arrives the events are enqueued and
    the token is set again, with no client connected and the timer off.
    The next client to connect is served these events first. *)
Theorem late_answer_refills_cleared_queue (m : TransactionManager) (ws : nat)
    (transactions : list PendingEvent) (tok : option string) (now : Z) :
  dom (connectedClients m) = {[ws]} →
  transactions ≠ [] → Z.of_nat (length transactions) ≤ maxQueueSize m →
  let m1 := removeClient ws m in
  let m2 := fetch_end (Events transactions tok) now m1 in
  transactionQueue m1 = [] ∧ continuationToken m1 = None ∧
  isFetching m1 = isFetching m ∧
  connectedClients m2 = ∅ ∧ pollInterval m2 = false ∧
  transactionQueue m2 = map (format eventName now) transactions ∧
  continuationToken m2 = tok.
Proof.
  intros Hdom Hne Hroom m1 m2.
  assert (connectedClients m1 = ∅ ∧ transactionQueue m1 = [] ∧
          continuationToken m1 = None ∧ isFetching m1 = isFetching m ∧
          pollInterval m1 = false ∧ maxQueueSize m1 = maxQueueSize m)
    as (Hc1 & Hq1 & Ht1 & Hf1 & Hp1 & Hmax1).
  { subst m1. unfold removeClient. simpl.
    assert (delete ws (connectedClients m) = ∅) as Hempty.
    { apply dom_empty_inv_L. rewrite dom_delete_L, Hdom. apply difference_diag_L. }
    rewrite Hempty, map_size_empty. rewrite decide_True by done.
    by split_and!. }
  split_and!; [done|done|done| | | |].
  - subst m2. unfold fetch_end. by destruct transactions.
  - subst m2. unfold fetch_end. by destruct transactions.
  - subst m2. unfold fetch_end.
    destruct transactions as [|tx txs] eqn:Htx; [done|].
    rewrite <- Htx in *. cbn [transactionQueue set_fetching set_queue set_token].
    rewrite Hq1, Hmax1. simpl length. rewrite Z.sub_0_r, Z.min_l by lia.
    rewrite slice0_take by lia. by rewrite Nat2Z.id, firstn_all.
  - subst m2. unfold fetch_end. by destruct transactions.
Qed.

Lemma late_answer_refills_cleared_queue_witness :
  let page := [mkPendingEvent [TILE_MINED] ["0xb"; "0x0"; "0x3"]%string] in
  let m := (startStreaming 1 1 0 true true constructor).1.1 in
  let m2 := fetch_end (Events page (Some "0-1"%string)) 5 (removeClient 1 m) in
  isFetching m = true ∧ connectedClients m2 = ∅ ∧
  transactionQueue m2 = map (format eventName 5) page ∧
  continuationToken m2 = Some "0-1"%string.
Proof.
  intros page m.
  destruct (late_answer_refills_cleared_queue m 1 page (Some "0-1"%string) 5)
    as (_ & _ & _ & Hc & _ & Hq & Ht).
  - reflexivity.
  - discriminate.
  - vm_compute. discriminate.
  - split_and!; [reflexivity|exact Hc|exact Hq|exact Ht].
Defined.

Lemma queue_fetch_begin m : transactionQueue (fetch_begin m).1 = transactionQueue m.
Proof.
  unfold fetch_begin. destruct (isFetching m); [done|]. by case_decide.
Qed.

(** The shared queue is a FIFO.  A step of the server either only takes
    items off the front of the queue (what is left is a suffix of what was
    there) or only puts items at its back (what was there is a prefix of
    what is there now): no step removes, moves or inserts an item in the
    middle.  An answer appends a prefix of its formatted page, in the order
    of the page; a turn of a client that hands out a batch cut off the
    queue takes exactly that batch off the front. *)
Theorem queue_is_fifo :
  (∀ m m', step m m' →
     transactionQueue m' `suffix_of` transactionQueue m ∨
     transactionQueue m `prefix_of` transactionQueue m') ∧
  (∀ resp now m,
     ∃ added, transactionQueue (fetch_end resp now m)
              = transactionQueue m ++ added ∧
              added `prefix_of`
                map (format eventName now)
                    (if resp is Events transactions _ then transactions else [])) ∧
  (∀ ws now open send_ok m c,
     connectedClients m !! ws = Some c → queueBacklog c = [] →
     let '(m', sent) := sendBatchToClient ws now open send_ok m in
     default [] sent ++ transactionQueue m' = transactionQueue m).
Proof.
  assert (∀ resp now m,
     ∃ added, transactionQueue (fetch_end resp now m)
              = transactionQueue m ++ added ∧
              added `prefix_of`
                map (format eventName now)
                    (if resp is Events transactions _ then transactions else []))
    as Hfetch.
  { intros resp now m. unfold fetch_end.
    destruct resp as [| |[|tx txs] tok]; simpl;
      try (exists []; split; [by rewrite app_nil_r|apply prefix_nil]).
    eexists. split; [done|].
    assert (∀ n, map (format eventName now) (take n (tx :: txs))
                 `prefix_of` map (format eventName now) (tx :: txs)) as Htake.
    { intros n. exists (map (format eventName now) (drop n (tx :: txs))).
      by rewrite <- map_app, take_drop. }
    unfold slice0. case_decide; apply Htake. }
  assert (∀ ws now open send_ok m,
            transactionQueue (sendBatchToClient ws now open send_ok m).1
            `suffix_of` transactionQueue m) as Hsend.
  { intros. apply sendBatchToClient_frame. }
  split_and!; [|done|].
  - intros m m' Hstep. destruct Hstep.
    + left. unfold startStreaming. set (m1 := set_clients _ m).
      assert (transactionQueue
                (if decide (size (connectedClients m1) = 1%nat)
                 then startPolling m1 else (m1, None)).1
              = transactionQueue m) as H2.
      { case_decide; [|done]. unfold startPolling.
        pose proof (queue_fetch_begin m1) as Hb.
        by destruct (fetch_begin m1). }
      destruct (if decide (size (connectedClients m1) = 1%nat)
                then startPolling m1 else (m1, None)) as [m2 req].
      pose proof (Hsend ws now open send_ok m2) as H3.
      destruct (sendBatchToClient ws now open send_ok m2). simpl in *.
      by rewrite H2 in H3.
    + left. by rewrite queue_fetch_begin.
    + right. destruct (Hfetch resp now m) as (added & -> & _).
      by apply prefix_app_r.
    + left. apply Hsend.
    + left. unfold removeClient. case_decide; simpl; [apply suffix_nil|done].
  - intros ws now open send_ok m c Hws Hb. unfold sendBatchToClient.
    rewrite Hws, Hb. destruct open; simpl; [|done].
    case_decide; [done|].
    destruct (transactionQueue m) as [|x q] eqn:Hq.
    + cbn [transactionQueue set_clients default]. by rewrite Hq.
    + destruct send_ok; cbn [transactionQueue set_queue set_clients default];
        apply take_drop.
Qed.

(** The answer to the first fetch puts its page behind the empty queue,
    and the turn of the client then takes it off the front. *)
Lemma queue_is_fifo_witness :
  let page := [mkPendingEvent [TILE_MINED] ["0xb"; "0x0"; "0x3"]%string] in
  let m1 := (startStreaming 1 1 0 true true constructor).1.1 in
  let m2 := fetch_end (Events page (Some "0-1"%string)) 5 m1 in
  (transactionQueue m2 `suffix_of` transactionQueue m1 ∨
   transactionQueue m1 `prefix_of` transactionQueue m2) ∧
  transactionQueue m2 = map (format eventName 5) page ∧
  let '(m', sent) := sendBatchToClient 1 200 true true m2 in
  default [] sent ++ transactionQueue m' = transactionQueue m2.
Proof.
  intros page m1 m2. split_and!.
  - apply (proj1 queue_is_fifo m1). apply step_answer. reflexivity.
  - reflexivity.
  - apply (proj2 (proj2 queue_is_fifo) 1%nat 200 true true m2
             (mkClient 1 10 100 100 [])); reflexivity.
Defined.

End ManagerFurther.

(** * The second server *)

Section SecondStreamFacts.
Import SecondServer SecondStream.

Lemma queue_startPolling s :
  transactionQueue (manager (startPolling s).1) = transactionQueue (manager s).
Proof.
  unfold startPolling, fetch_begin. by destruct (isFetching (manager s)).
Qed.

Lemma currentBatchSize_bounds n :
  (15 ≤ currentBatchSize n ≤ 100)%nat.
Proof.
  unfold currentBatchSize, batchSize. repeat case_decide; lia.
Qed.

Lemma streamBatch_splits ws send_ok s :
  let '(s1, sent, _) := streamBatch ws send_ok s in
  default [] sent ++ transactionQueue (manager s1)
  = transactionQueue (manager s) ∧
  (∀ batch, sent = Some batch →
     ws ∈ connectedClients s ∧ (1 ≤ length batch ≤ 100)%nat).
Proof.
  unfold streamBatch. case_decide as Hin; [|done].
  destruct (transactionQueue (manager s)) as [|x q] eqn:Hq; [done|].
  pose proof (currentBatchSize_bounds (length (x :: q))) as Hn.
  assert (∀ batch,
            Some (take (currentBatchSize (length (x :: q))) (x :: q)) = Some batch →
            ws ∈ connectedClients s ∧ (1 ≤ length batch ≤ 100)%nat) as Hb.
  { intros batch [= <-]. split; [done|].
    rewrite length_take. simpl length in *. lia. }
  destruct send_ok; cbn [default manager set_queue set_manager transactionQueue];
    (split; [apply take_drop|exact Hb]).
Qed.

Lemma callback_splits cb s :
  is_close cb = false →
  let '(s1, l) := callback cb s in
  concat (map snd l) ++ transactionQueue (manager s1)
  = transactionQueue (manager s) ++ arrived cb ∧
  Forall (λ wb, (1 ≤ length wb.2 ≤ 100)%nat) l.
Proof.
  destruct cb as [ws send_ok|ws send_ok| |resp now|ws]; intros Hc; [| | | |done].
  - unfold callback, startStreaming.
    set (s0 := mkServer (manager s) ({[ws]} ∪ connectedClients s) (pollInterval s)).
    assert (transactionQueue
              (manager (if decide (size (connectedClients s0) = 1%nat)
                        then startPolling s0 else (s0, None)).1)
            = transactionQueue (manager s)) as Hq.
    { case_decide; [by rewrite queue_startPolling|done]. }
    destruct (if decide (size (connectedClients s0) = 1%nat)
              then startPolling s0 else (s0, None)) as [s2 req].
    pose proof (streamBatch_splits ws send_ok s2) as H.
    destruct (streamBatch ws send_ok s2) as [[s3 sent] d].
    destruct H as [H1 H2]. simpl in Hq. rewrite Hq in H1.
    simpl arrived. rewrite app_nil_r. destruct sent as [batch|]; simpl in *.
    + rewrite app_nil_r. split; [done|].
      constructor; [|done]. by apply (H2 batch).
    + done.
  - unfold callback.
    pose proof (streamBatch_splits ws send_ok s) as H.
    destruct (streamBatch ws send_ok s) as [[s3 sent] d].
    destruct H as [H1 H2].
    simpl arrived. rewrite app_nil_r. destruct sent as [batch|]; simpl in *.
    + rewrite app_nil_r. split; [done|].
      constructor; [|done]. by apply (H2 batch).
    + done.
  - simpl. rewrite app_nil_r. split; [|done].
    unfold fetch_begin. by destruct (isFetching (manager s)).
  - simpl. split; [|done].
    destruct resp as [| |[|tx txs] tok]; simpl; by rewrite ?app_nil_r.
Qed.

(** On the second server the clients do not each receive the stream:
    every run of a client loop cuts its batch off the one shared queue, so
    each fetched item is handed to exactly one socket.  While no socket
    closes, the batches handed out, in the order they were sent, followed by
    the queue, are the queue at the start followed by the pages that
    arrived; each batch has between 1 and 100 items. *)
Theorem second_server_splits_the_stream (cbs : list Callback) (s : Server) :
  forallb (λ cb, negb (is_close cb)) cbs = true →
  let '(s', handed) := run cbs s in
  concat (map snd handed) ++ transactionQueue (manager s')
  = transactionQueue (manager s) ++ concat (map arrived cbs) ∧
  Forall (λ wb, (1 ≤ length wb.2 ≤ 100)%nat) handed.
Proof.
  revert s. induction cbs as [|cb cbs IH]; intros s Hc.
  - simpl. by rewrite app_nil_r.
  - simpl in Hc. apply andb_true_iff in Hc as [Hcb Hcbs].
    apply negb_true_iff in Hcb.
    simpl run. pose proof (callback_splits cb s Hcb) as H1.
    destruct (callback cb s) as [s1 l1].
    specialize (IH s1 Hcbs). destruct (run cbs s1) as [s2 l2].
    destruct H1 as [H1 F1], IH as [H2 F2]. split.
    + rewrite map_app, concat_app, <- app_assoc, H2.
      simpl. rewrite !app_assoc. by rewrite H1.
    + by apply Forall_app.
Qed.

Lemma second_server_splits_the_stream_witness :
  let page := [mkPendingEvent [TILE_MINED] ["0xb"; "0x0"; "0x3"]%string;
               mkPendingEvent [DIAMOND_FOUND] ["0xb"; "0x0"; "0x4"]%string] in
  let cbs := [Connection 1 true; Connection 2 true;
              Answer (Events page (Some "0-2"%string)) 7;
              Timeout 2 true; Timeout 1 true] in
  (run cbs constructor).2 = [(2%nat, map (format eventName 7) page)] ∧
  let '(s', handed) := run cbs constructor in
  concat (map snd handed) ++ transactionQueue (manager s')
  = transactionQueue (manager constructor) ++ concat (map arrived cbs) ∧
  Forall (λ wb, (1 ≤ length wb.2 ≤ 100)%nat) handed.
Proof.
  intros page cbs. split.
  - vm_compute. reflexivity.
  - apply (second_server_splits_the_stream cbs constructor). reflexivity.
Defined.

End SecondStreamFacts.

(** * The statistics *)

Section StatsFacts.
Import Stats.

#[local] Instance higher_trans : Transitive higher.
Proof. intros a b c. unfold higher. lia. Qed.

#[local] Instance higher_total : Total higher.
Proof. intros a b. unfold higher. lia. Qed.

Lemma group_ids bots : map _id (group bots) = remove_dups (map player bots).
Proof.
  unfold group. rewrite map_map. simpl. apply map_id.
Qed.

Lemma elem_of_group r bots :
  r ∈ group bots ↔
  (∃ b, b ∈ bots ∧ player b = _id r) ∧
  total_score r = sum_scores (List.filter (of_player (_id r)) bots).
Proof.
  unfold group. split.
  - intros (p & -> & Hp)%list_elem_of_fmap_1. simpl. split; [|done].
    apply elem_of_remove_dups, list_elem_of_fmap_1 in Hp as (b & -> & Hb).
    by exists b.
  - intros [(b & Hb & Hpl) Hsum]. apply list_elem_of_fmap.
    exists (_id r). split.
    + destruct r as [i t]. simpl in *. by rewrite Hsum.
    + apply elem_of_remove_dups, list_elem_of_fmap. by exists b.
Qed.

Lemma remove_dups_Some {A} `{EqDecision A} (l : list A) :
  remove_dups (map Some l) = map Some (remove_dups l).
Proof.
  induction l as [|x l IH]; simpl; [done|].
  rewrite IH. destruct (decide_rel elem_of (Some x) (map Some l))
    as [Hin|Hnin]; destruct (decide_rel elem_of x l) as [Hin'|Hnin'];
    try done.
  - apply list_elem_of_fmap_1 in Hin as (y & [= ->] & Hy). done.
  - destruct Hnin. apply list_elem_of_fmap. by exists x.
Qed.

Lemma count_dead (bots : list Bot) :
  (countDocuments (λ _, true) bots
   = countDocuments (λ b, bool_decide (status b = alive)) bots
     + countDocuments (λ b, bool_decide (status b = dead)) bots)%nat.
Proof.
  unfold countDocuments. induction bots as [|b bots IH]; simpl; [done|].
  destruct (status b); simpl; lia.
Qed.

(** The leaderboard of the statistics message is the top ten of the
    players by the sum of the scores of their bots: at most ten rows, one
    row for a player, each with the sum over all bots of that player, in
    descending order of the sums, and every player who is left out has a sum
    no higher than any row shown.  When every bot has a player the number of
    rows is [totalPlayers], up to ten; [botsDead] is the number of bots whose
    status is dead. *)
Theorem leaderboard_is_top_ten (s : Store) :
  let msg := sendStatsAndLeaderboard s in
  (length (leaderboard msg) ≤ 10)%nat ∧
  NoDup (map _id (leaderboard msg)) ∧
  StronglySorted higher (leaderboard msg) ∧
  (∀ r, r ∈ leaderboard msg →
     (∃ b, b ∈ bots s ∧ player b = _id r) ∧
     total_score r = sum_scores (List.filter (of_player (_id r)) (bots s))) ∧
  (∀ b r, b ∈ bots s → player b ∉ map _id (leaderboard msg) →
     r ∈ leaderboard msg →
     sum_scores (List.filter (of_player (player b)) (bots s)) ≤ total_score r) ∧
  (Forall (λ b, is_Some (player b)) (bots s) →
     length (leaderboard msg) = Nat.min 10 (totalPlayers msg)) ∧
  botsDead msg
  = Z.of_nat (countDocuments (λ b, bool_decide (status b = dead)) (bots s)).
Proof.
  intros msg. subst msg. unfold sendStatsAndLeaderboard.
  cbn [leaderboard totalPlayers botsDead]. unfold aggregate.
  set (rows := group (bots s)). set (sorted := merge_sort higher rows).
  assert (sorted ≡ₚ rows) as Hperm by apply merge_sort_Permutation.
  assert (StronglySorted higher sorted) as Hsorted
    by apply (StronglySorted_merge_sort _).
  split_and!.
  - rewrite length_take. lia.
  - apply (sublist_NoDup _ (map _id sorted)).
    + rewrite Hperm. unfold rows. rewrite group_ids. apply NoDup_remove_dups.
    + rewrite <- (take_drop 10 sorted) at 2. rewrite map_app.
      by apply sublist_inserts_r.
  - rewrite <- (take_drop 10 sorted) in Hsorted.
    by apply StronglySorted_app_1_l in Hsorted.
  - intros r Hr. apply elem_of_group. fold rows. rewrite <- Hperm.
    eapply elem_of_submseteq; [exact Hr|].
    apply sublist_submseteq, sublist_take.
  - intros b r Hb Hout Hr.
    set (r' := mkRow (player b)
                     (sum_scores (List.filter (of_player (player b)) (bots s)))).
    assert (r' ∈ sorted) as Hin.
    { rewrite Hperm. apply elem_of_group. split; [by exists b|done]. }
    rewrite <- (take_drop 10 sorted) in Hin, Hsorted.
    apply elem_of_app in Hin as [Hin|Hin].
    + destruct Hout. apply list_elem_of_fmap. by exists r'.
    + apply (StronglySorted_app_1_elem_of _ _ _ r r') in Hsorted; done.
  - intros Hall. rewrite length_take. f_equal.
    rewrite Hperm. unfold rows.
    rewrite <- (length_map _id), group_ids.
    assert (∀ l : list Bot, Forall (λ b, is_Some (player b)) l →
              map player l = map Some (omap player l)) as Hmap.
    { intros l Hl. induction Hl as [|b bs [p Hp] _ IH]; simpl; [done|].
      rewrite Hp. simpl. by rewrite IH. }
    by rewrite (Hmap _ Hall), remove_dups_Some, length_map.
  - rewrite (count_dead (bots s)). lia.
Qed.

Lemma leaderboard_is_top_ten_witness :
  let bot a p st n := mkBot (Some a) (Some p) st n None in
  let s := mkStore None
             [bot "0xa" "0x1" alive 20; bot "0xb" "0x2" dead 5030;
              bot "0xc" "0x1" alive 10]%string [] [] in
  leaderboard (sendStatsAndLeaderboard s)
  = [mkRow (Some "0x2") 5030; mkRow (Some "0x1") 30]%string ∧
  length (leaderboard (sendStatsAndLeaderboard s))
  = Nat.min 10 (totalPlayers (sendStatsAndLeaderboard s)) ∧
  botsDead (sendStatsAndLeaderboard s) = 1.
Proof.
  intros bot s.
  destruct (leaderboard_is_top_ten s) as (_ & _ & _ & _ & _ & Hlen & Hdead).
  split_and!.
  - vm_compute. reflexivity.
  - apply Hlen. repeat constructor; by eexists.
  - rewrite Hdead. vm_compute. reflexivity.
Defined.

End StatsFacts.

(** * The tile views *)

Section TileFacts.
Import TileManager.







Lemma leb_nonzero_digit_zero (rangeStart t : string) :
  starts_with_nonzero_digit rangeStart = true →
  String.leb rangeStart (String "0" t) = false ∧
  String.leb (String "0" t) rangeStart = true.
Proof.
  destruct rangeStart as [|c rest]; [done|]. simpl.
  intros [H1 H2]%andb_true_iff. apply N.leb_le in H1, H2.
  unfold String.leb. simpl. unfold Ascii.compare.
  change (N_of_ascii "0") with 48%N.
  assert ((N_of_ascii c ?= 48)%N = Gt) as -> by (apply N.compare_gt_iff; lia).
  assert ((48 ?= N_of_ascii c)%N = Lt) as -> by (apply N.compare_lt_iff; lia).
  done.
Qed.

(** The updates of a tile view are chosen by comparing strings, not
    numbers.  When the lower bound of the range starts with a digit from 1
    to 9, no mine whose location starts with 0, as every hexadecimal
    location does, is ever sent as an update.  When the range is from "0"
    to a bound that starts with such a digit, every recent mine whose
    location starts with "0x" is sent, whatever its number. *)
Theorem tile_updates_compare_strings (rangeStart rangeEnd : string)
    (recent : string → bool) (mines : list Mine) :
  (starts_with_nonzero_digit rangeStart = true →
   ∀ m t, m ∈ updates rangeStart rangeEnd recent mines →
          location m ≠ Some (String "0" t)) ∧
  (rangeStart = "0"%string → starts_with_nonzero_digit rangeEnd = true →
   ∀ m t, m ∈ mines → location m = Some ("0x" ++ t)%string →
          recent (mine_timestamp m) = true →
          m ∈ updates rangeStart rangeEnd recent mines).
Proof.
  split.
  - intros Hd m t Hin Hloc. unfold updates in Hin.
    apply list_elem_of_In, filter_In in Hin as [_ Hin].
    rewrite Hloc in Hin.
    destruct (leb_nonzero_digit_zero rangeStart t Hd) as [H _].
    by rewrite H in Hin.
  - intros -> Hd m t Hm Hloc Hrecent. unfold updates.
    apply list_elem_of_In, filter_In. split; [by apply list_elem_of_In|].
    rewrite Hloc, Hrecent.
    destruct (leb_nonzero_digit_zero rangeEnd ("x" ++ t) Hd) as [_ H].
    change ("0x" ++ t)%string with (String "0" ("x" ++ t)).
    rewrite H. done.
Qed.

Lemma tile_updates_compare_strings_witness :
  let mine l := mkMine (Some "0xb") (Some l) Empty "t" in
  let mines := [mine "0x9"; mine "0xa"; mine "0x14"; mine "0x15"]%string in
  updates "10" "20" (λ _, true) mines = [] ∧
  getTileData "(10-20)" mines = Some [mine "0xa"; mine "0x14"]%string ∧
  mine "0x15"%string ∈ updates "0" "9" (λ _, true) mines ∧
  getTileData "(0-9)" mines = Some [mine "0x9"%string].
Proof.
  intros mine mines.
  pose proof (tile_updates_compare_strings "10" "20" (λ _, true) mines)
    as [Hnone _].
  pose proof (tile_updates_compare_strings "0" "9" (λ _, true) mines)
    as [_ Hall].
  split_and!.
  - specialize (Hnone eq_refl).
    destruct (updates "10" "20" (λ _, true) mines) as [|m ms] eqn:Hu; [done|].
    vm_compute in Hu. discriminate.
  - vm_compute. reflexivity.
  - apply (Hall eq_refl eq_refl (mine "0x15"%string) "15"%string);
      [|reflexivity|reflexivity].
    apply list_elem_of_In. simpl. tauto.
  - vm_compute. reflexivity.
Defined.

End TileFacts.

